(** * swaggrpc: the operation adapter

    A shallow embedding of [operation_adapter.go]: the conversion of decoded
    protocol-buffer field values to strings ([getStringConverter]), the
    extraction of the values of a field ([convertValues]), the placement of
    the strings in a swagger request ([getParamWriter]), the construction of
    an adapter ([newPathWrapper]) and the handling of one call
    ([getRequestWriter], [ReadResponse], [handleGRPCRequest]).

    Go values of type [interface{}] are a tagged union; a Go function that
    can panic or write to the process logger returns in the [Go] monad, which
    carries the lines logged so far and either a result or the panic. *)

From Stdlib Require Import Ascii String QArith Qpower Lqa.
From stdpp Require Import gmap strings list sorting.

Set Warnings "-register-all".
#[local] Open Scope Z_scope.

(** ** Go values *)

(** The dynamic type of an [interface{}] value as [dynamic.Message.GetField]
    hands it out: scalars of the Go type of the field kind, [[]interface{}]
    for repeated fields, [map[interface{}]interface{}] for map fields and a
    nested message.  A floating-point value is its IEEE 754 bit pattern.  In a
    [VMap] the list order is the order in which [range] visits the entries;
    Go leaves that order unspecified, so statements about a map quantify over
    every list.  [VStringMap] is the [map[string]interface{}] that the map
    converter builds for [json.Marshal]. *)
Inductive Value :=
| VNil
| VBool (b : bool)
| VInt32 (n : Z)
| VInt64 (n : Z)
| VUint32 (n : Z)
| VUint64 (n : Z)
| VFloat32 (bits : Z)
| VFloat64 (bits : Z)
| VString (s : string)
| VBytes (b : list Z)
| VSlice (l : list Value)
| VMap (m : list (Value * Value))
| VStringMap (m : gmap string Value)
| VMessage (fields : gmap Z Value).

(** ** Descriptors

    The part of [desc.FieldDescriptor] and [desc.MessageDescriptor] the
    adapter reads. *)

Inductive FieldDescriptorProto_Type :=
| TYPE_DOUBLE | TYPE_FLOAT | TYPE_INT64 | TYPE_UINT64 | TYPE_INT32
| TYPE_FIXED64 | TYPE_FIXED32 | TYPE_BOOL | TYPE_STRING | TYPE_GROUP
| TYPE_MESSAGE | TYPE_BYTES | TYPE_UINT32 | TYPE_ENUM | TYPE_SFIXED32
| TYPE_SFIXED64 | TYPE_SINT32 | TYPE_SINT64
| TYPE_other (n : Z).    (* the type is an int32: a number outside 1..18 *)

Inductive FieldDescriptorProto_Label :=
| LABEL_OPTIONAL | LABEL_REQUIRED | LABEL_REPEATED.

#[global] Instance FieldDescriptorProto_Type_eq_dec : EqDecision FieldDescriptorProto_Type.
Proof. solve_decision. Defined.
#[global] Instance FieldDescriptorProto_Label_eq_dec : EqDecision FieldDescriptorProto_Label.
Proof. solve_decision. Defined.

(** [mapEntry] is the [map_entry] option of the message type of the field
    ([GetMessageType().IsMapEntry()]), false when the field has no message
    type.  [declaredDefault] is the default the descriptor fixes for a
    scalar field when that is not the zero of the kind: the parsed
    [default = ...] option of a field of a proto2 file, or the number of
    the first value of its enum; a scalar field of a proto3 file has
    none. *)
Record FieldDescriptor := {
  GetName : string;
  GetNumber : Z;
  GetType : FieldDescriptorProto_Type;
  GetLabel : FieldDescriptorProto_Label;
  mapEntry : bool;
  declaredDefault : option Value;
}.

Definition IsRepeated (fd : FieldDescriptor) : bool :=
  bool_decide (GetLabel fd = LABEL_REPEATED).

(** A map field is a repeated field of the entry messages the compiler
    generates for [map<K, V>]. *)
Definition IsMap (fd : FieldDescriptor) : bool :=
  bool_decide (GetLabel fd = LABEL_REPEATED)
  && bool_decide (GetType fd = TYPE_MESSAGE)
  && mapEntry fd.

Record MessageDescriptor := {
  GetFields : list FieldDescriptor;
}.

Definition FindFieldByName (md : MessageDescriptor) (name : string) : option FieldDescriptor :=
  List.find (fun fd => bool_decide (GetName fd = name)) (GetFields md).

Record MethodDescriptor := {
  GetInputType : MessageDescriptor;
  GetOutputType : MessageDescriptor;
}.

(** The part of [spec.Parameter] the adapter reads. *)
Record spec_Parameter := {
  Name : string;
  In : string;
  Enum : list Value;
}.

(** ** Panics, log lines and errors *)

Inductive panic :=
| TypeAssertionFailed   (* x.(T) without ", ok" on a value that is not a T *)
| IndexOutOfRange       (* s[i] with i < 0 or i >= len(s) *)
| NilDereference.       (* field access through a nil pointer *)

(** The [error] values of the package, one constructor per [fmt.Errorf] call
    site, and the errors of the collaborators (stream, request, transport,
    encoders), which the package only passes on. *)
Inductive error :=
| ErrFieldNotFound (fieldName : string)     (* "Could not find proto field named %s" *)
| ErrGroup                                  (* "got proto2-only type 'group'" *)
| ErrBytes                                  (* "bytes not implemented" *)
| ErrUnhandledFieldType (t : FieldDescriptorProto_Type)            (* "ERROR: unhandled field type %s" *)
| ErrFormData                               (* "formData parameters are not supported" *)
| ErrCookie                                 (* "swagger 3.0 cookie parameters are not supported" *)
| ErrUnknownLocation (location name : string) (* "ERROR: Unknown parameter location %q for parameter %q" *)
| ErrResultCast                             (* "could not cast to expected result type" *)
| ErrJSONUnsupportedValue                   (* encoding/json: UnsupportedValueError *)
| ErrJSONUnsupportedType                    (* encoding/json: UnsupportedTypeError *)
| ErrExternal (msg : string).               (* any error of a collaborator *)

(** The calls to [log.Print] and [log.Printf], one constructor per call site,
    with the arguments of the format. *)
Inductive logLine :=
| LogNonMapValue                            (* "ERROR: Non-map value passed to map converter." *)
| LogNonStringKey                           (* "ERROR: Non-string key passed to map converter." *)
| LogJSONErrorMap (e : error)               (* "WARNING: Error JSON serializing: %s." *)
| LogJSONErrorMessage (e : error)           (* "WARNING: Error JSON serializing; ignoring." *)
| LogEnumOutOfBounds (rawValue : Z) (name : string)
                                            (* "ERROR: raw enum value '%d' out-of-bounds for param %s" *)
| LogMultipleValues (name : string)         (* "WARNING: parameter %s had multple values, only one allowed!" *)
| LogDeserializeError (e : error)           (* "Error deserializing request: %s" *)
| LogSubmitError (e : error).               (* "Got non-nil error: %s" *)

Inductive outcome (A : Type) :=
| Returns (a : A)
| Panics (p : panic).
Arguments Returns {A} a.
Arguments Panics {A} p.

(** A computation that logs and may panic: the lines it logged, in order, and
    how it ended. *)
Definition Go (A : Type) : Type := list logLine * outcome A.

Definition ret {A} (a : A) : Go A := ([], Returns a).

Definition bind {A B} (m : Go A) (k : A -> Go B) : Go B :=
  match m with
  | (l, Returns a) => let '(l', r) := k a in (l ++ l', r)
  | (l, Panics p) => (l, Panics p)
  end.

Definition logPrint (line : logLine) : Go unit := ([line], Returns tt).

Definition goPanic {A} (p : panic) : Go A := ([], Panics p).

#[global] Instance Go_ret : MRet Go := @ret.
#[global] Instance Go_bind : MBind Go := fun A B k m => bind m k.

Definition logged {A} (m : Go A) : list logLine := fst m.
Definition result {A} (m : Go A) : outcome A := snd m.

(** ** Machine integers *)

(** The conversion [int32(x)] of an integer: the low 32 bits, read as a
    two's-complement number. *)
Definition int32 (x : Z) : Z := (x + 2^31) mod 2^32 - 2^31.

(** The index expression [s[i]] on a slice: a run-time panic when the index
    is negative or not below the length. *)
Definition index {A} (s : list A) (i : Z) : Go A :=
  if i <? 0 then goPanic IndexOutOfRange
  else match s !! Z.to_nat i with
       | Some x => ret x
       | None => goPanic IndexOutOfRange
       end.

(** ** The formatting of numbers

    [fmt.Sprintf("%v", x)] and [json.Marshal] print numbers through package
    [strconv].  The integer printer follows [formatBits] in base ten.  The
    floating-point printer follows [FormatFloat] with precision [-1]: the
    digits are the shortest decimal that reads back as the same
    floating-point number, the nearest to the exact value when there are
    several, and [%e], [%f] and [%g] lay the digits out. *)
Module strconv.

#[local] Open Scope string_scope.
#[local] Open Scope Z_scope.

(** [byte('0' + d)] *)
Definition digit (d : Z) : ascii := ascii_of_nat (Z.to_nat (48 + d)).

(** The loop of [formatBits]: the last digit of [u] is put in front of
    [acc] until [u] is below ten.  An unsigned 64-bit number has at most
    twenty digits. *)
Fixpoint formatDigits (fuel : nat) (u : Z) (acc : string) : string :=
  match fuel with
  | O => acc
  | S fuel' =>
      if 10 <=? u
      then formatDigits fuel' (u / 10) (String (digit (u - (u / 10) * 10)) acc)
      else String (digit u) acc
  end.

Definition FormatUint (u : Z) : string := formatDigits 20 u "".

Definition FormatInt (i : Z) : string :=
  if i <? 0 then "-" +:+ FormatUint (- i) else FormatUint i.

Definition FormatBool (b : bool) : string := if b then "true" else "false".

Record floatInfo := { mantbits : Z; expbits : Z; bias : Z }.
Definition float32info := {| mantbits := 23; expbits := 8; bias := -127 |}.
Definition float64info := {| mantbits := 52; expbits := 11; bias := -1023 |}.

(** What a bit pattern denotes.  [Finite neg mant exp] is the number
    [mant * 2^(exp - mantbits)], negated when [neg]; [mant] is zero for the
    two zeros. *)
Inductive float :=
| NaN
| Inf (neg : bool)
| Finite (neg : bool) (mant exp : Z).

Definition decode (flt : floatInfo) (bits : Z) : float :=
  let neg := Z.testbit bits (expbits flt + mantbits flt) in
  let exp := Z.land (Z.shiftr bits (mantbits flt)) (2 ^ expbits flt - 1) in
  let mant := Z.land bits (2 ^ mantbits flt - 1) in
  if exp =? 2 ^ expbits flt - 1 then
    if mant =? 0 then Inf neg else NaN
  else if exp =? 0 then Finite neg mant (1 + bias flt)
  else Finite neg (mant + 2 ^ mantbits flt) (exp + bias flt).

(** Exact comparison of [a * 2^p * 10^r] with [b * 2^q * 10^s]. *)
Definition scale (a p r : Z) : Z * Z :=
  (a * 2 ^ Z.max p 0 * 10 ^ Z.max r 0, 2 ^ Z.max (- p) 0 * 10 ^ Z.max (- r) 0).

Definition cmp (x y : Z * Z) : comparison := (fst x * snd y ?= fst y * snd x).

Definition ltb (x y : Z * Z) : bool := match cmp x y with Lt => true | _ => false end.
Definition leb (x y : Z * Z) : bool := match cmp x y with Gt => false | _ => true end.

(** The position of the decimal point of [x > 0]: the [dp] with
    [10^(dp-1) <= x < 10^dp], found by stepping from [k]. *)
Fixpoint pointFrom (fuel : nat) (x : Z * Z) (k : Z) : Z :=
  match fuel with
  | O => k
  | S fuel' =>
      if leb (scale 1 0 k) x then pointFrom fuel' x (k + 1)
      else if ltb x (scale 1 0 (k - 1)) then pointFrom fuel' x (k - 1)
      else k
  end.

(** [t * 10^k] without the zeros at the end of [t]. *)
Fixpoint trimZeros (fuel : nat) (t k : Z) : Z * Z :=
  match fuel with
  | O => (t, k)
  | S fuel' =>
      if (0 <? t) && (t mod 10 =? 0) then trimZeros fuel' (t / 10) (k + 1) else (t, k)
  end.

(** The digits of [t * 10^k], without zeros at the end, and the position
    of the decimal point: the number is [0.d1d2...dn * 10^dp]. *)
Definition digitsOf (t k : Z) : string * Z :=
  let '(t', k') := trimZeros 20 t k in
  let d := FormatUint t' in
  (d, k' + Z.of_nat (String.length d)).

(** The shortest digits of [mant * 2^(exp - mantbits)], [mant > 0].  The
    numbers that read back as this one lie between [lower] and [upper],
    the midpoints to the neighbouring floating-point numbers, and the
    midpoints themselves do when [mant] is even.  With [n] digits the
    candidates are the value cut after [n] digits and that plus one unit
    of the last digit; the first [n] for which a candidate lies in the
    range decides. *)
Fixpoint shortestFrom (fuel : nat) (x lower upper : Z * Z) (inclusive : bool)
    (dp n : Z) : string * Z :=
  let k := dp - n in
  let unit := scale 1 0 k in
  let t := (fst x * snd unit) / (snd x * fst unit) in
  let inRange c :=
    if inclusive then leb lower c && leb c upper else ltb lower c && ltb c upper in
  let down := scale t 0 k in
  let up := scale (t + 1) 0 k in
  match fuel with
  | O => digitsOf t k
  | S fuel' =>
      match inRange down, inRange up with
      | true, true =>
          (* round to nearest, half to even: [2 * x] against [(2 * t + 1) * 10^k] *)
          match cmp (2 * fst x, snd x) (scale (2 * t + 1) 0 k) with
          | Lt => digitsOf t k
          | Gt => digitsOf (t + 1) k
          | Eq => if Z.even t then digitsOf t k else digitsOf (t + 1) k
          end
      | true, false => digitsOf t k
      | false, true => digitsOf (t + 1) k
      | false, false => shortestFrom fuel' x lower upper inclusive dp (n + 1)
      end
  end.

Definition shortest (flt : floatInfo) (mant exp : Z) : string * Z :=
  let q := exp - mantbits flt - 2 in
  let x := scale (4 * mant) q 0 in
  let upper := scale (4 * mant + 2) q 0 in
  let lower :=
    if (2 ^ mantbits flt <? mant) || (exp =? bias flt + 1)
    then scale (4 * mant - 2) q 0
    else scale (4 * mant - 1) q 0 in
  shortestFrom 20 x lower upper (Z.even mant) (pointFrom 400 x 0) 1.

Definition zeros (n : Z) : string := string_of_list_ascii (repeat "0"%char (Z.to_nat n)).

(** [%e]: [d.ddde±dd] with [prec] digits after the point. *)
Definition fmtE (neg : bool) (d : string) (dp prec : Z) : string :=
  let nd := Z.of_nat (String.length d) in
  let first := match d with String c _ => String c "" | EmptyString => "0" end in
  let more :=
    if 0 <? prec
    then "." +:+ String.substring 1 (Z.to_nat (Z.min nd (prec + 1) - 1)) d
             +:+ zeros (prec + 1 - Z.max 1 (Z.min nd (prec + 1)))
    else "" in
  let exp := if nd =? 0 then 0 else dp - 1 in
  let sign := if exp <? 0 then "-" else "+" in
  let e := Z.abs exp in
  let expDigits := if e <? 10 then "0" +:+ FormatUint e else FormatUint e in
  (if neg then "-" else "") +:+ first +:+ more +:+ "e" +:+ sign +:+ expDigits.

(** [%f]: the integer part, padded with zeros, and [prec] digits after
    the point. *)
Definition fmtF (neg : bool) (d : string) (dp prec : Z) : string :=
  let nd := Z.of_nat (String.length d) in
  let integer :=
    if 0 <? dp
    then String.substring 0 (Z.to_nat (Z.min nd dp)) d +:+ zeros (dp - Z.min nd dp)
    else "0" in
  let fraction :=
    if 0 <? prec
    then "." +:+ zeros (Z.min prec (- dp))
             +:+ String.substring (Z.to_nat dp) (Z.to_nat (Z.min prec (nd - Z.max dp 0))) d
             +:+ zeros (prec - Z.max (nd - dp) (Z.min prec (- dp)))
    else "" in
  (if neg then "-" else "") +:+ integer +:+ fraction.

(** [%g] with the shortest digits: [%e] when the exponent is below -4 or
    at least 6, [%f] otherwise. *)
Definition fmtG (neg : bool) (d : string) (dp : Z) : string :=
  let nd := Z.of_nat (String.length d) in
  let exp := dp - 1 in
  if (exp <? -4) || (6 <=? exp) then fmtE neg d dp (nd - 1)
  else fmtF neg d dp (Z.max (nd - dp) 0).

Inductive verb := verb_e | verb_f | verb_g.

(** [FormatFloat(f, fmt, -1, bitSize)] on the bit pattern of [f]. *)
Definition FormatFloat (flt : floatInfo) (bits : Z) (fmt : verb) : string :=
  match decode flt bits with
  | NaN => "NaN"
  | Inf neg => if neg then "-Inf" else "+Inf"
  | Finite neg mant exp =>
      let '(d, dp) := if mant =? 0 then ("", 0) else shortest flt mant exp in
      let nd := Z.of_nat (String.length d) in
      match fmt with
      | verb_e => fmtE neg d dp (Z.max (nd - 1) 0)
      | verb_f => fmtF neg d dp (Z.max (nd - dp) 0)
      | verb_g => fmtG neg d dp
      end
  end.

End strconv.

(** ** Printing with [%v] *)

(** What this development leaves open of the libraries the adapter calls:
    how [fmt] prints with [%v] a value that is neither a boolean, a number
    nor a string, and how [encoding/json] encodes a byte slice, a slice, a
    nested map and a [*dynamic.Message] (through its [MarshalJSON]). *)
Class Libraries := {
  fmtOther : Value -> string;
  jsonOther : Value -> string + error;
}.

Module fmt.
Section fmt.
Context `{Libraries}.

(** [fmt.Sprintf("%v", value)].  A floating-point number is printed as
    [strconv.FormatFloat(f, 'g', -1, size)]. *)
Definition Sprintf_v (value : Value) : string :=
  match value with
  | VBool b => strconv.FormatBool b
  | VInt32 n | VInt64 n => strconv.FormatInt n
  | VUint32 n | VUint64 n => strconv.FormatUint n
  | VFloat32 bits => strconv.FormatFloat strconv.float32info bits strconv.verb_g
  | VFloat64 bits => strconv.FormatFloat strconv.float64info bits strconv.verb_g
  | VString s => s
  | _ => fmtOther value
  end.

End fmt.
End fmt.

(** ** JSON

    [json.Marshal] on the values the converters hand to it, after
    [encoding/json] of the Go releases the package was written for. *)
Module json.
Section json.
Context `{Libraries}.

#[local] Open Scope string_scope.
#[local] Open Scope Z_scope.

Definition byte (c : ascii) : Z := Z.of_N (N_of_ascii c).

Definition dquote : ascii := ascii_of_nat 34.

Definition hex (d : Z) : ascii :=
  if d <? 10 then strconv.digit d else ascii_of_nat (Z.to_nat (87 + d)).

Definition continuation (c : ascii) : bool := (0x80 <=? byte c) && (byte c <=? 0xBF).

(** The number of bytes of the UTF-8 sequence at the head of [s], or [0]
    when the head is not the start of a valid sequence
    ([utf8.DecodeRuneInString] returning [RuneError] and size one). *)
Definition runeSize (s : list ascii) : nat :=
  match s with
  | b0 :: b1 :: rest =>
      let x := byte b0 in
      let y := byte b1 in
      if (0xC2 <=? x) && (x <=? 0xDF) then
        if continuation b1 then 2%nat else 0%nat
      else if (0xE0 <=? x) && (x <=? 0xEF) then
        let lo := if x =? 0xE0 then 0xA0 else 0x80 in
        let hi := if x =? 0xED then 0x9F else 0xBF in
        match rest with
        | b2 :: _ => if (lo <=? y) && (y <=? hi) && continuation b2 then 3%nat else 0%nat
        | [] => 0%nat
        end
      else if (0xF0 <=? x) && (x <=? 0xF4) then
        let lo := if x =? 0xF0 then 0x90 else 0x80 in
        let hi := if x =? 0xF4 then 0x8F else 0xBF in
        match rest with
        | b2 :: b3 :: _ =>
            if (lo <=? y) && (y <=? hi) && continuation b2 && continuation b3
            then 4%nat else 0%nat
        | _ => 0%nat
        end
      else 0%nat
  | _ => 0%nat
  end.

(** The body of the loop of [encodeState.string] with HTML escaping: what
    is written for the bytes of the string. *)
Fixpoint escape (fuel : nat) (s : list ascii) : list ascii :=
  match fuel, s with
  | O, _ | _, [] => []
  | S fuel', b :: rest =>
      let x := byte b in
      if x <? 0x80 then
        (if (0x20 <=? x) && negb (bool_decide (b ∈ [dquote; "&"; "<"; ">"; "\"]%char)) then [b]
         else if bool_decide (b ∈ ["\"%char; dquote]) then ["\"%char; b]
         else if x =? 10 then ["\"; "n"]%char
         else if x =? 13 then ["\"; "r"]%char
         else if x =? 9 then ["\"; "t"]%char
         else ["\"; "u"; "0"; "0"; hex (Z.shiftr x 4); hex (Z.land x 0xF)]%char)
        ++ escape fuel' rest
      else
        match runeSize s with
        | O => list_ascii_of_string "\ufffd" ++ escape fuel' rest
        | size =>
            (* the line and paragraph separators, U+2028 and U+2029 *)
            if bool_decide (take 3 s = [ascii_of_nat 0xE2; ascii_of_nat 0x80; ascii_of_nat 0xA8])
            then list_ascii_of_string "\u2028" ++ escape fuel' (drop size s)
            else if bool_decide (take 3 s = [ascii_of_nat 0xE2; ascii_of_nat 0x80; ascii_of_nat 0xA9])
            then list_ascii_of_string "\u2029" ++ escape fuel' (drop size s)
            else take size s ++ escape fuel' (drop size s)
        end
  end.

(** A string as a JSON string. *)
Definition encodeString (s : string) : string :=
  String dquote (string_of_list_ascii (escape (String.length s) (list_ascii_of_string s)))
  +:+ String dquote "".

(** The bit patterns of the constants [1e-6] and [1e21] at each size. *)
Definition cutoffs (flt : strconv.floatInfo) : Z * Z :=
  if strconv.mantbits flt =? 23 then (0x358637BD, 0x6258D727)
  else (0x3EB0C6F7A0B5ED8D, 0x444B1AE4D6E2EF50).

(** [floatEncoder]: no encoding of NaN and the infinities; [%f] unless
    the absolute value is below [1e-6] or at least [1e21], then [%e] with
    a one-digit negative exponent written without its zero.  Finite
    numbers of one sign are ordered as their bit patterns are. *)
Definition encodeFloat (flt : strconv.floatInfo) (bits : Z) : string + error :=
  match strconv.decode flt bits with
  | strconv.NaN | strconv.Inf _ => inr ErrJSONUnsupportedValue
  | strconv.Finite neg mant exp =>
      let abs := Z.land bits (2 ^ (strconv.expbits flt + strconv.mantbits flt) - 1) in
      if negb (abs =? 0) && ((abs <? fst (cutoffs flt)) || (snd (cutoffs flt) <=? abs))
      then
        let b := list_ascii_of_string (strconv.FormatFloat flt bits strconv.verb_e) in
        match rev b with
        | d :: "0"%char :: "-"%char :: "e"%char :: front =>
            inl (string_of_list_ascii (rev front ++ ["e"; "-"; d]%char))
        | _ => inl (string_of_list_ascii b)
        end
      else inl (strconv.FormatFloat flt bits strconv.verb_f)
  end.

(** The encoding of a value that is not the map at the top. *)
Definition encodeValue (value : Value) : string + error :=
  match value with
  | VNil => inl "null"
  | VBool b => inl (strconv.FormatBool b)
  | VInt32 n | VInt64 n => inl (strconv.FormatInt n)
  | VUint32 n | VUint64 n => inl (strconv.FormatUint n)
  | VFloat32 bits => encodeFloat strconv.float32info bits
  | VFloat64 bits => encodeFloat strconv.float64info bits
  | VString s => inl (encodeString s)
  | VMap _ => inr ErrJSONUnsupportedType   (* a key type that is not a string *)
  | _ => jsonOther value
  end.

(** The members of an object, each [key:value], or the first error. *)
Fixpoint encodeMembers (entries : list (string * Value)) : list string + error :=
  match entries with
  | [] => inl []
  | (k, v) :: rest =>
      match encodeValue v with
      | inr err => inr err
      | inl e =>
          match encodeMembers rest with
          | inr err => inr err
          | inl es => inl ((encodeString k +:+ ":" +:+ e) :: es)
          end
      end
  end.

Definition keyLe (a b : string * Value) : Prop := String.le a.1 b.1.

#[global] Instance keyLe_dec : RelDecision keyLe.
Proof. intros a b. unfold keyLe. apply _. Defined.

Fixpoint join (sep : string) (l : list string) : string :=
  match l with
  | [] => ""
  | [x] => x
  | x :: rest => x +:+ sep +:+ join sep rest
  end.

(** [mapEncoder]: the entries sorted by key, between braces, separated by
    commas. *)
Definition encodeMap (m : gmap string Value) : string + error :=
  match encodeMembers (merge_sort keyLe (map_to_list m)) with
  | inr err => inr err
  | inl members => inl ("{" +:+ join "," members +:+ "}")
  end.

Definition Marshal (value : Value) : string + error :=
  match value with
  | VStringMap m => encodeMap m
  | _ => encodeValue value
  end.

End json.
End json.

(** ** Decoded messages *)

(** A [*dynamic.Message]: the values of the fields that are set, by field
    number. *)
Abbreviation Message := (gmap Z Value).

(** The zero of the Go type of a kind. *)
Definition zeroValue (t : FieldDescriptorProto_Type) : Value :=
  match t with
  | TYPE_DOUBLE => VFloat64 0
  | TYPE_FLOAT => VFloat32 0
  | TYPE_INT64 | TYPE_SFIXED64 | TYPE_SINT64 => VInt64 0
  | TYPE_UINT64 | TYPE_FIXED64 => VUint64 0
  | TYPE_INT32 | TYPE_SFIXED32 | TYPE_SINT32 | TYPE_ENUM => VInt32 0
  | TYPE_UINT32 | TYPE_FIXED32 => VUint32 0
  | TYPE_BOOL => VBool false
  | TYPE_STRING => VString ""
  | TYPE_BYTES => VBytes []
  | TYPE_GROUP | TYPE_MESSAGE | TYPE_other _ => VNil
  end.

(** [fd.GetDefaultValue()], the value of a field that is not set: the
    empty map or slice for a map or repeated field, nil for a message or
    group, and for a scalar field the default the descriptor declares or,
    without one, the zero of the Go type of the kind. *)
Definition GetDefaultValue (fd : FieldDescriptor) : Value :=
  if IsMap fd then VMap []
  else if IsRepeated fd then VSlice []
  else match GetType fd with
       | TYPE_GROUP | TYPE_MESSAGE => VNil
       | t => default (zeroValue t) (declaredDefault fd)
       end.

(** [message.GetField(fd)] *)
Definition GetField (message : Message) (fd : FieldDescriptor) : Value :=
  default (GetDefaultValue fd) (message !! GetNumber fd).

(** ** The request under construction *)

(** [runtime.ClientRequest]: the four setters the writers call.  A setter
    changes the request and returns an error or nil. *)
Class ClientRequest (R : Type) := {
  SetQueryParam : string -> list string -> R -> option error * R;
  SetHeaderParam : string -> list string -> R -> option error * R;
  SetPathParam : string -> string -> R -> option error * R;
  (* the payload is a reader over the string *)
  SetBodyParam : string -> R -> option error * R;
}.

(** ** The adapter *)
Section adapter.
Context `{Libraries} {R : Type} `{ClientRequest R}.

#[local] Open Scope string_scope.
#[local] Open Scope Z_scope.

(** A function to write a single parameter value from a proto message to
    a swagger request. *)
Definition swaggerParamWriter : Type := Message -> R -> Go (option error * R).

(** The wrapper of one operation of a swagger service; the two clients are
    the [transport] below. *)
Record operationAdapter := {
  httpMethod : string;
  swaggerPath : string;
  paramWriters : list swaggerParamWriter;
  inputProtoType : MessageDescriptor;
  outputProtoType : MessageDescriptor;
}.

(** *** [getStringConverter] *)

(** The loop of the map converter over the entries in the order [range]
    visits them, and what follows the loop. *)
Fixpoint mapConverterLoop (mapValue : list (Value * Value))
    (convertedValue : gmap string Value) : Go string :=
  match mapValue with
  | (key, value) :: rest =>
      match key with
      | VString keyString => mapConverterLoop rest (<[keyString := value]> convertedValue)
      | _ => logPrint LogNonStringKey;; mret ""
      end
  | [] =>
      match json.Marshal (VStringMap convertedValue) with
      | inr err => logPrint (LogJSONErrorMap err);; mret ""
      | inl bytes => mret bytes
      end
  end.

Definition mapConverter (value : Value) : Go string :=
  match value with
  | VMap mapValue => mapConverterLoop mapValue ∅
  | _ => logPrint LogNonMapValue;; mret ""
  end.

Definition messageConverter (value : Value) : Go string :=
  match json.Marshal value with
  | inr err => logPrint (LogJSONErrorMessage err);; mret ""
  | inl bytes => mret bytes
  end.

Definition primitiveConverter (value : Value) : Go string :=
  mret (fmt.Sprintf_v value).

Definition stringConverter (value : Value) : Go string :=
  match value with
  | VString s => mret s
  | _ => goPanic TypeAssertionFailed
  end.

(** The enum converter uses the field value as an index in [param.Enum];
    [param] is the pointer the converter was made with. *)
Definition enumConverter (param : option spec_Parameter) (value : Value) : Go string :=
  rawValue ← match value with
             | VInt32 n => mret n
             | _ => goPanic TypeAssertionFailed
             end;
  match param with
  | None => goPanic NilDereference
  | Some param =>
      if int32 (Z.of_nat (length (Enum param))) <=? rawValue then
        logPrint (LogEnumOutOfBounds rawValue (Name param));; mret ""
      else
        enumValue ← index (Enum param) rawValue;
        match enumValue with
        | VString enumValue => mret enumValue
        | _ => mret ""
        end
  end.

(** Returns a serializer function for a given proto field / parameter
    pair. *)
Definition getStringConverter (fieldDesc : FieldDescriptor) (param : option spec_Parameter)
    : (Value -> Go string) + error :=
  if IsMap fieldDesc then inl mapConverter
  else match GetType fieldDesc with
       | TYPE_MESSAGE => inl messageConverter
       | TYPE_BOOL
       | TYPE_INT64 | TYPE_UINT64
       | TYPE_INT32 | TYPE_FIXED64
       | TYPE_FIXED32 | TYPE_UINT32
       | TYPE_SFIXED32 | TYPE_SFIXED64
       | TYPE_SINT32 | TYPE_SINT64
       | TYPE_DOUBLE | TYPE_FLOAT => inl primitiveConverter
       | TYPE_STRING => inl stringConverter
       | TYPE_GROUP => inr ErrGroup
       | TYPE_BYTES => inr ErrBytes
       | TYPE_ENUM => inl (enumConverter param)
       | TYPE_other _ => inr (ErrUnhandledFieldType (GetType fieldDesc))
       end.

(** *** [convertValues] *)

(** [for i, value := range values { stringValues[i] = toString(value) }] *)
Fixpoint convertEach (toString : Value -> Go string) (values : list Value) : Go (list string) :=
  match values with
  | [] => mret []
  | value :: rest =>
      s ← toString value;
      stringValues ← convertEach toString rest;
      mret (s :: stringValues)
  end.

(** Converts a single or repeated message into a slice of serialized
    strings for the given field descriptor. *)
Definition convertValues (message : Message) (fieldDesc : FieldDescriptor)
    (toString : Value -> Go string) : Go (list string) :=
  let rawValue := GetField message fieldDesc in
  values ← (if IsRepeated fieldDesc && negb (IsMap fieldDesc) then
              match rawValue with
              | VSlice values => mret values
              | _ => goPanic TypeAssertionFailed
              end
            else mret [rawValue]);
  convertEach toString values.

(** *** [getParamWriter] *)

Definition queryWriter (param : spec_Parameter) (values : list string) (request : R)
    : Go (option error * R) :=
  mret (SetQueryParam (Name param) values request).

Definition headerWriter (param : spec_Parameter) (values : list string) (request : R)
    : Go (option error * R) :=
  mret (SetHeaderParam (Name param) values request).

Definition pathWriter (param : spec_Parameter) (values : list string) (request : R)
    : Go (option error * R) :=
  (if 1 <? Z.of_nat (length values) then logPrint (LogMultipleValues (Name param)) else mret tt);;
  value ← index values 0;
  mret (SetPathParam (Name param) value request).

Definition bodyWriter (param : spec_Parameter) (values : list string) (request : R)
    : Go (option error * R) :=
  (if 1 <? Z.of_nat (length values) then logPrint (LogMultipleValues (Name param)) else mret tt);;
  value ← index values 0;
  mret (SetBodyParam value request).

(** Returns a function which will write the given param to a request. *)
Definition getParamWriter (param : spec_Parameter)
    : (list string -> R -> Go (option error * R)) + error :=
  if bool_decide (In param = "query") then inl (queryWriter param)
  else if bool_decide (In param = "header") then inl (headerWriter param)
  else if bool_decide (In param = "path") then inl (pathWriter param)
  else if bool_decide (In param = "body") then inl (bodyWriter param)
  else if bool_decide (In param = "formData") then inr ErrFormData
  else if bool_decide (In param = "cookie") then inr ErrCookie
  else inr (ErrUnknownLocation (In param) (Name param)).

(** *** [newPathWrapper] *)

(** [strings.Replace(s, "-", "_", -1)] *)
Fixpoint replaceHyphens (s : string) : string :=
  match s with
  | EmptyString => EmptyString
  | String c rest => String (if bool_decide (c = "-"%char) then "_"%char else c) (replaceHyphens rest)
  end.

(** The closure appended for one parameter. *)
Definition makeParamWriter (fieldDesc : FieldDescriptor) (stringConverter : Value -> Go string)
    (paramWriter : list string -> R -> Go (option error * R)) : swaggerParamWriter :=
  fun message request =>
    stringValues ← convertValues message fieldDesc stringConverter;
    paramWriter stringValues request.

(** The body of the loop over [parameters]: the writer for one parameter,
    or the error that ends the construction. *)
Definition bindParameter (inputProtoType : MessageDescriptor) (param : spec_Parameter)
    : swaggerParamWriter + error :=
  let fieldName := replaceHyphens (Name param) in
  match FindFieldByName inputProtoType fieldName with
  | None => inr (ErrFieldNotFound fieldName)
  | Some fieldDesc =>
      match getStringConverter fieldDesc (Some param) with
      | inr err => inr err
      | inl stringConverter =>
          match getParamWriter param with
          | inr err => inr err
          | inl paramWriter => inl (makeParamWriter fieldDesc stringConverter paramWriter)
          end
      end
  end.

(** The loop over [parameters], a map, in the order [range] visits it;
    [writers] is [newValue.paramWriters] so far. *)
Fixpoint bindParameters (inputProtoType : MessageDescriptor)
    (parameters : list (string * spec_Parameter)) (writers : list swaggerParamWriter)
    : list swaggerParamWriter + error :=
  match parameters with
  | [] => inl writers
  | (_, param) :: rest =>
      match bindParameter inputProtoType param with
      | inr err => inr err
      | inl writer => bindParameters inputProtoType rest (writers ++ [writer])%list
      end
  end.

(** Construct a new endpoint from the given swagger & proto method
    descriptions. *)
Definition newPathWrapper (httpMethod swaggerPath : string)
    (parameters : list (string * spec_Parameter)) (method : MethodDescriptor)
    : operationAdapter + error :=
  match bindParameters (GetInputType method) parameters [] with
  | inr err => inr err
  | inl writers =>
      inl {| httpMethod := httpMethod;
             swaggerPath := swaggerPath;
             paramWriters := writers;
             inputProtoType := GetInputType method;
             outputProtoType := GetOutputType method |}
  end.

(** *** [getRequestWriter] *)

(** The loop over [p.paramWriters]. *)
Fixpoint runWriters (writers : list swaggerParamWriter) (msg : Message) (request : R)
    : Go (option error * R) :=
  match writers with
  | [] => mret (None, request)
  | writer :: rest =>
      '(err, request) ← writer msg request;
      match err with
      | Some err => mret (Some err, request)
      | None => runWriters rest msg request
      end
  end.

(** Returns a serializer function for the given message. *)
Definition getRequestWriter (p : operationAdapter) (msg : Message) : R -> Go (option error * R) :=
  runWriters (paramWriters p) msg.

(** *** The collaborators of a call *)

(** The gRPC stream of the call: what [RecvMsg] decodes, or its error, and
    the error of [SendMsg] for a message. *)
Record ServerStream := {
  RecvMsg : Message + error;
  SendMsg : Message -> option error;
}.

(** The swagger client and the HTTP client under it: the request a
    submission starts from, what the server answers to a finished request
    (the body of the response, or the error of the round trip), and
    [jsonpb]'s permissive unmarshaler, which fills a message of the given
    type from a body and returns an error or nil. *)
Record transport := {
  newRequest : string -> string -> R;
  roundTrip : R -> string + error;
  Unmarshal : string -> MessageDescriptor -> Message * option error;
}.

(** What a call does to the world, in order. *)
Inductive event :=
| HTTPRequest (request : R)      (* a request handed to the HTTP client *)
| MessageSent (message : Message).  (* a message sent on the stream *)

(** The deserializer function for this endpoint. *)
Definition ReadResponse (t : transport) (p : operationAdapter) (body : string)
    : Message * option error :=
  Unmarshal t body (outputProtoType p).

(** [swaggerClient.Submit(&operation)]: the request is built by running
    [operation.Params] on a new request; an error of the build is returned
    with a nil result before anything is sent; otherwise the request goes to
    the HTTP client and the response to [operation.Reader], whose result and
    error are returned. *)
Definition Submit (t : transport) (method pathPattern : string)
    (params : R -> Go (option error * R)) (reader : string -> Message * option error)
    : Go (list event * (option Message * option error)) :=
  '(err, request) ← params (newRequest t method pathPattern);
  match err with
  | Some err => mret ([], (None, Some err))
  | None =>
      match roundTrip t request with
      | inr err => mret ([HTTPRequest request], (None, Some err))
      | inl body =>
          let '(protoOut, err) := reader body in
          mret ([HTTPRequest request], (Some protoOut, err))
      end
  end.

(** *** [handleGRPCRequest] *)

(** Handles a single gRPC call by proxying to the underlying swagger
    service.  Returns any error encountered, with what the call did. *)
Definition handleGRPCRequest (t : transport) (p : operationAdapter) (stream : ServerStream)
    : Go (list event * option error) :=
  match RecvMsg stream with
  | inr err => logPrint (LogDeserializeError err);; mret ([], Some err)
  | inl protoIn =>
      '(events, (result, err)) ←
        Submit t (httpMethod p) (swaggerPath p) (getRequestWriter p protoIn) (ReadResponse t p);
      match err with
      | Some err => logPrint (LogSubmitError err);; mret (events, Some err)
      | None =>
          match result with
          | None => mret (events, Some ErrResultCast)
          | Some resultMessage =>
              mret ((events ++ [MessageSent resultMessage])%list, SendMsg stream resultMessage)
          end
      end
  end.

End adapter.

(** ** Test doubles and the messages of the package's tests *)
Module Fixture.

#[local] Open Scope string_scope.
#[local] Open Scope Z_scope.

(** Libraries that print nothing for, and refuse to encode, what the
    development leaves open. *)
Definition libraries : Libraries :=
  {| fmtOther := fun _ => ""; jsonOther := fun _ => inr ErrJSONUnsupportedType |}.

(** A request that records the calls of its setters in order and refuses
    the parameter names in [refused]. *)
Inductive call :=
| QueryParam (name : string) (values : list string)
| HeaderParam (name : string) (values : list string)
| PathParam (name : string) (value : string)
| BodyParam (payload : string).

Record recorder := {
  refused : list string;
  calls : list call;
}.

Definition record (name : string) (c : call) (r : recorder) : option error * recorder :=
  if bool_decide (name ∈ refused r) then (Some (ErrExternal name), r)
  else (None, {| refused := refused r; calls := calls r ++ [c] |}).

Definition recorder_request : ClientRequest recorder :=
  {| SetQueryParam name values := record name (QueryParam name values);
     SetHeaderParam name values := record name (HeaderParam name values);
     SetPathParam name value := record name (PathParam name value);
     SetBodyParam payload := record "body" (BodyParam payload) |}.

(** [TestMessage] of [TestGetStringConverter]. *)
Definition scalar (name : string) (number : Z) (type : FieldDescriptorProto_Type)
    : FieldDescriptor :=
  {| GetName := name; GetNumber := number; GetType := type;
     GetLabel := LABEL_OPTIONAL; mapEntry := false; declaredDefault := None |}.

Definition mapValue : FieldDescriptor :=
  {| GetName := "mapValue"; GetNumber := 7; GetType := TYPE_MESSAGE;
     GetLabel := LABEL_REPEATED; mapEntry := true; declaredDefault := None |}.

Definition TestMessage : MessageDescriptor :=
  {| GetFields :=
       [ scalar "boolValue" 1 TYPE_BOOL; scalar "stringValue" 2 TYPE_STRING;
         scalar "int32Value" 3 TYPE_INT32; scalar "int64Value" 4 TYPE_INT64;
         scalar "doubleValue" 5 TYPE_DOUBLE; scalar "enumValue" 6 TYPE_ENUM;
         mapValue; scalar "messageValue" 8 TYPE_MESSAGE ] |}.

(** [TestMessage] of [TestConvertValues]. *)
Definition repeatedValue : FieldDescriptor :=
  {| GetName := "repeatedValue"; GetNumber := 2; GetType := TYPE_STRING;
     GetLabel := LABEL_REPEATED; mapEntry := false; declaredDefault := None |}.

Definition ValuesMessage : MessageDescriptor :=
  {| GetFields :=
       [ scalar "singleValue" 1 TYPE_STRING; repeatedValue;
         {| GetName := "mapValue"; GetNumber := 3; GetType := TYPE_MESSAGE;
            GetLabel := LABEL_REPEATED; mapEntry := true;
            declaredDefault := None |} ] |}.

Definition enumParam : spec_Parameter :=
  {| Name := "enumValue"; In := "query"; Enum := [VString "first"; VString "second"] |}.

Definition param (name location : string) : spec_Parameter :=
  {| Name := name; In := location; Enum := [] |}.

(** The double nearest to 3.34. *)
Definition double_3_34 : Z := 0x400AB851EB851EB8.

(** A quiet NaN. *)
Definition double_NaN : Z := 0x7FF8000000000001.

End Fixture.

(** An adapter of three parameters, its collaborators and a message. *)
Module Examples.

Import Fixture.
#[local] Open Scope string_scope.

#[local] Existing Instance libraries.
#[local] Existing Instance recorder_request.

Definition method : MethodDescriptor :=
  {| GetInputType := TestMessage; GetOutputType := TestMessage |}.

(** The second parameter is one the request refuses. *)
Definition parameters : list (string * spec_Parameter) :=
  [ ("stringValue", param "stringValue" "query");
    ("int32Value", param "int32Value" "header");
    ("boolValue", param "boolValue" "query") ].

Definition writerOf (fd : FieldDescriptor) (p : spec_Parameter)
    : swaggerParamWriter (R := recorder) :=
  match getStringConverter fd (Some p), getParamWriter p with
  | inl converter, inl placer => makeParamWriter fd converter placer
  | _, _ => fun _ request => mret (None, request)
  end.

Definition stringWriter := writerOf (scalar "stringValue" 2 TYPE_STRING) (param "stringValue" "query").
Definition int32Writer := writerOf (scalar "int32Value" 3 TYPE_INT32) (param "int32Value" "header").
Definition boolWriter := writerOf (scalar "boolValue" 1 TYPE_BOOL) (param "boolValue" "query").

Definition adapter : operationAdapter (R := recorder) :=
  {| httpMethod := "GET"; swaggerPath := "/items";
     paramWriters := [stringWriter; int32Writer; boolWriter];
     inputProtoType := TestMessage; outputProtoType := TestMessage |}.

Definition client (refused : list string) : transport (R := recorder) :=
  {| newRequest := fun _ _ => {| Fixture.refused := refused; calls := [] |};
     roundTrip := fun _ => inl "{}";
     Unmarshal := fun _ _ => (∅, None) |}.

Definition protoIn : Message :=
  {[ 2 := VString "foo"; 3 := VInt32 1234; 1 := VBool true ]}.

Definition stream (received : Message + error) : ServerStream :=
  {| RecvMsg := received; SendMsg := fun _ => None |}.

End Examples.

(** * The vocabulary of the properties *)

Section vocabulary.
Context `{Libraries} {R : Type} `{ClientRequest R}.

#[local] Open Scope string_scope.
#[local] Open Scope Z_scope.

(** A computation fails when it ends in a panic. *)
Definition fails {A} (m : Go A) : Prop := exists p, result m = Panics p.

Definition isString (v : Value) : bool :=
  match v with VString _ => true | _ => false end.

(** The entries of a [map[interface{}]interface{}] whose keys are all
    strings, with the keys as strings. *)
Fixpoint stringEntries (mapValue : list (Value * Value)) : option (list (string * Value)) :=
  match mapValue with
  | [] => Some []
  | (VString k, v) :: rest => option_map (cons (k, v)) (stringEntries rest)
  | _ :: _ => None
  end.

(** [s] is a JSON object with exactly the members [entries], in some
    order: [{k1:v1,...,kn:vn}], each key and value in its JSON encoding. *)
Definition jsonObjectOf (entries : list (string * Value)) (s : string) : Prop :=
  exists order members,
    order ≡ₚ entries
    /\ json.encodeMembers order = inl members
    /\ s = "{" +:+ json.join "," members +:+ "}".

(** What the map converter does with the map it built. *)
Definition marshalConverted (convertedValue : gmap string Value) : Go string :=
  match json.Marshal (VStringMap convertedValue) with
  | inr err => logPrint (LogJSONErrorMap err);; mret ""
  | inl bytes => mret bytes
  end.

(** The values of a field as the converter is to see them: the elements
    of the decoded sequence for a repeated field that is not a map, the one
    decoded value otherwise. *)
Definition fieldValues (message : Message) (fd : FieldDescriptor) (values : list Value) : Prop :=
  if IsRepeated fd && negb (IsMap fd)
  then GetField message fd = VSlice values
  else values = [GetField message fd].

(** The line the path and body placers log for the values after the
    first. *)
Definition excessWarning (name : string) (rest : list string) : list logLine :=
  match rest with
  | [] => []
  | _ :: _ => [LogMultipleValues name]
  end.

(** The location of a parameter is one the adapter writes. *)
Definition supportedLocation (location : string) : Prop :=
  location ∈ ["query"; "header"; "path"; "body"].

(** A parameter ends the construction. *)
Definition refusedParameter (input : MessageDescriptor) (param : spec_Parameter) : Prop :=
  exists err, bindParameter (R := R) input param = inr err.

(** The boolean, integer and floating-point kinds. *)
Definition primitiveKind (t : FieldDescriptorProto_Type) : bool :=
  match t with
  | TYPE_BOOL
  | TYPE_INT64 | TYPE_UINT64 | TYPE_INT32 | TYPE_FIXED64 | TYPE_FIXED32 | TYPE_UINT32
  | TYPE_SFIXED32 | TYPE_SFIXED64 | TYPE_SINT32 | TYPE_SINT64
  | TYPE_DOUBLE | TYPE_FLOAT => true
  | _ => false
  end.

(** Reading a decimal numeral: digits only, with one [-] in front for a
    negative number. *)
Definition digitValue (c : ascii) : option Z :=
  let n := Z.of_N (N_of_ascii c) in
  if (48 <=? n) && (n <=? 57) then Some (n - 48) else None.

Fixpoint readDigits (s : string) (acc : Z) : option Z :=
  match s with
  | EmptyString => Some acc
  | String c rest =>
      match digitValue c with
      | Some d => readDigits rest (10 * acc + d)
      | None => None
      end
  end.

Definition readUint (s : string) : option Z :=
  match s with
  | EmptyString => None
  | _ => readDigits s 0
  end.

Definition readInt (s : string) : option Z :=
  match s with
  | String "-"%char rest => option_map Z.opp (readUint rest)
  | _ => readUint s
  end.

(** The rational number a pair of [strconv.scale] stands for. *)
Definition toQ (p : Z * Z) : Q := Qmake (fst p) (Z.to_pos (snd p)).

(** [c] lies between [Lo] and [Up], which count when [inclusive]. *)
Definition inRange (Lo Up : Q) (inclusive : bool) (c : Q) : Prop :=
  if inclusive then (Lo <= c /\ c <= Up)%Q else (Lo < c /\ c < Up)%Q.

(** The midpoints between the float [mant * 2^(exp - mantbits)] and the
    floats next to it; the float below is half as far when [mant] is the
    least mantissa of a binade above the lowest. *)
Definition lowerMidpoint (flt : strconv.floatInfo) (mant exp : Z) : Q :=
  if (2 ^ strconv.mantbits flt <? mant) || (exp =? strconv.bias flt + 1)
  then ((inject_Z mant - (1 # 2)) * 2 ^ (exp - strconv.mantbits flt))%Q
  else ((inject_Z mant - (1 # 4)) * 2 ^ (exp - strconv.mantbits flt))%Q.

Definition upperMidpoint (flt : strconv.floatInfo) (mant exp : Z) : Q :=
  ((inject_Z mant + (1 # 2)) * 2 ^ (exp - strconv.mantbits flt))%Q.

(** The number [c] rounds to the float, to nearest and to an even mantissa
    from a midpoint: reading [c] gives the float back. *)
Definition roundsTo (flt : strconv.floatInfo) (mant exp : Z) (c : Q) : Prop :=
  inRange (lowerMidpoint flt mant exp) (upperMidpoint flt mant exp) (Z.even mant) c.

(** The digits [d] with the decimal point at [dp], the number
    [0.d1d2...dn * 10^dp], read back as the float, and no decimal with
    fewer digits does. *)
Definition shortestDecimal (flt : strconv.floatInfo) (mant exp : Z) (d : string) (dp : Z)
    : Prop :=
  exists a,
    readUint d = Some a
    /\ roundsTo flt mant exp (inject_Z a * 10 ^ (dp - Z.of_nat (String.length d)))
    /\ forall b j, 0 < b < 10 ^ (Z.of_nat (String.length d) - 1) ->
         ~ roundsTo flt mant exp (inject_Z b * 10 ^ j).

End vocabulary.

(** ** The text of a decimal number *)
Section decimal_text.

#[local] Open Scope string_scope.
#[local] Open Scope Z_scope.

Fixpoint zeroes (n : nat) : string :=
  match n with
  | O => ""
  | S n' => String "0" (zeroes n')
  end.

(** The number [0.d1d2...dn * 10^dp] in positional notation: the digits
    with the point after the first [dp] of them, zeros in between when the
    point lies outside the digits, and no point after a whole number. *)
Definition positional (d : string) (dp : Z) : string :=
  let nd := Z.of_nat (String.length d) in
  if dp <=? 0 then "0." +:+ zeroes (Z.to_nat (- dp)) +:+ d
  else if dp <? nd
       then String.substring 0 (Z.to_nat dp) d +:+ "."
            +:+ String.substring (Z.to_nat dp) (Z.to_nat (nd - dp)) d
       else d +:+ zeroes (Z.to_nat (dp - nd)).

(** The exponent of the scientific notation: its sign and at least two
    digits; for exponents of fewer than four digits. *)
Definition exponentText (e : Z) : string :=
  let a := Z.abs e in
  let digit n := ascii_of_nat (Z.to_nat (48 + n)) in
  (if e <? 0 then "-" else "+")
  +:+ (if 100 <=? a then String (digit (a / 100)) "" else "")
  +:+ String (digit (a / 10 mod 10)) (String (digit (a mod 10)) "").

(** The same number in scientific notation: the first digit, the others
    after a point when there are others, and the exponent of ten that
    goes with the first digit. *)
Definition scientific (d : string) (dp : Z) : string :=
  match d with
  | EmptyString => ""
  | String c rest =>
      String c (match rest with EmptyString => "" | _ => "." +:+ rest end)
      +:+ "e" +:+ exponentText (dp - 1)
  end.

(** The notation [%v] chooses: scientific when the exponent is below -4
    or at least 6, positional otherwise. *)
Definition decimalText (d : string) (dp : Z) : string :=
  if (dp - 1 <? -4) || (6 <=? dp - 1) then scientific d dp else positional d dp.

(** Reading a decimal back: [s] up to the first [c] and what follows
    it. *)
Fixpoint splitAt (c : ascii) (s : string) : string * option string :=
  match s with
  | EmptyString => (EmptyString, None)
  | String x rest =>
      if bool_decide (x = c) then (EmptyString, Some rest)
      else let '(before, after) := splitAt c rest in (String x before, after)
  end.

Definition stripSign (s : string) : bool * string :=
  match s with
  | String "-"%char rest => (true, rest)
  | _ => (false, s)
  end.

Definition readExponent (s : string) : option Z :=
  match s with
  | String "+"%char rest => readUint rest
  | String "-"%char rest => option_map Z.opp (readUint rest)
  | _ => None
  end.

(** The number of a sign, the digits before the point, the digits after
    it if there is a point, and the exponent if there is one. *)
Definition decimalValue (neg : bool) (integer : string) (fraction exponent : option string)
    : option Q :=
  match readUint integer with
  | None => None
  | Some i =>
      match match fraction with
            | None => Some (i, 0)
            | Some EmptyString => None
            | Some f => option_map (fun c => (c, Z.of_nat (String.length f))) (readDigits f i)
            end,
            match exponent with
            | None => Some 0
            | Some x => readExponent x
            end
      with
      | Some (c, places), Some e =>
          Some ((if neg then -1 else 1) * (inject_Z c * 10 ^ (e - places)))%Q
      | _, _ => None
      end
  end.

(** The number a text denotes: an optional [-], digits, optionally a
    point and more digits, optionally [e], a sign and the digits of an
    exponent of ten.  No other character is read. *)
Definition readDecimal (s : string) : option Q :=
  let '(neg, body) := stripSign s in
  let '(significand, exponent) := splitAt "e" body in
  let '(integer, fraction) := splitAt "." significand in
  decimalValue neg integer fraction exponent.

(** [s] is the text of the floating-point number with the bit pattern
    [bits]: the name of a number that is not finite, [0] under its sign
    for a zero, and otherwise the shortest digits that read back as the
    number, under its sign and in the notation [%v] chooses; read as a
    decimal, the text denotes a number that rounds to the floating-point
    number. *)
Definition canonicalFloat (flt : strconv.floatInfo) (bits : Z) (s : string) : Prop :=
  match strconv.decode flt bits with
  | strconv.NaN => s = "NaN"
  | strconv.Inf neg => s = if neg then "-Inf" else "+Inf"
  | strconv.Finite neg mant exp =>
      if mant =? 0 then s = if neg then "-0" else "0"
      else exists d dp q,
             shortestDecimal flt mant exp d dp
             /\ s = (if neg then "-" else "") +:+ decimalText d dp
             /\ readDecimal s = Some q
             /\ roundsTo flt mant exp (if neg then - q else q)%Q
  end.

End decimal_text.

(** ** The vocabulary of the construction and of a call *)

Section construction_vocabulary.
Context `{Libraries} {R : Type} `{ClientRequest R}.

#[local] Open Scope string_scope.

(** The kinds of field [getStringConverter] has a converter for. *)
Definition supportedKind (t : FieldDescriptorProto_Type) : bool :=
  match t with
  | TYPE_GROUP | TYPE_BYTES | TYPE_other _ => false
  | _ => true
  end.

(** The error of [getStringConverter] for a kind without a converter. *)
Definition kindError (t : FieldDescriptorProto_Type) : error :=
  match t with
  | TYPE_GROUP => ErrGroup
  | TYPE_BYTES => ErrBytes
  | _ => ErrUnhandledFieldType t
  end.

(** The error of [getParamWriter] for a location without a placer. *)
Definition locationError (param : spec_Parameter) : error :=
  if bool_decide (In param = "formData") then ErrFormData
  else if bool_decide (In param = "cookie") then ErrCookie
  else ErrUnknownLocation (In param) (Name param).

(** A parameter the adapter can write: the input message has a field
    under the name of the parameter with its hyphens replaced, the kind of
    the field has a converter and the location has a placer. *)
Definition bindable (input : MessageDescriptor) (param : spec_Parameter) : Prop :=
  exists fd,
    FindFieldByName input (replaceHyphens (Name param)) = Some fd
    /\ supportedKind (GetType fd) = true
    /\ supportedLocation (In param).

(** The writer [newPathWrapper] appends for a parameter it can write. *)
Definition boundWriter (input : MessageDescriptor) (param : spec_Parameter)
    : swaggerParamWriter (R := R) :=
  match bindParameter input param with
  | inl writer => writer
  | inr _ => fun _ request => mret (None, request)
  end.

(** The string of the zero value of a kind: the empty string, [false]
    and [0]. *)
Definition zeroString (t : FieldDescriptorProto_Type) : string :=
  match t with
  | TYPE_STRING => ""
  | TYPE_BOOL => "false"
  | _ => "0"
  end.

(** What a call did is nothing, one HTTP request, or one HTTP request
    followed by one message on the stream. *)
Inductive callShape : list (event (R := R)) -> Prop :=
| nothingDone : callShape []
| requestOnly request : callShape [HTTPRequest request]
| requestAndReply request message : callShape [HTTPRequest request; MessageSent message].

End construction_vocabulary.

(** * Properties *)

(** ** The [Go] monad *)

Lemma bind_ret {A B} (a : A) (k : A -> Go B) : (mret a ≫= k) = k a.
Proof. unfold mbind, Go_bind, bind, mret, Go_ret, ret. destruct (k a); reflexivity. Qed.

Lemma bind_panic {A B} (p : panic) (k : A -> Go B) : (goPanic p ≫= k) = goPanic p.
Proof. reflexivity. Qed.

Lemma bind_returns {A B} (m : Go A) (k : A -> Go B) l a :
  m = (l, Returns a) -> (m ≫= k) = (l ++ logged (k a), result (k a)).
Proof. intros ->. unfold mbind, Go_bind, bind. destruct (k a); reflexivity. Qed.

Lemma bind_panics {A B} (m : Go A) (k : A -> Go B) l p :
  m = (l, Panics p) -> (m ≫= k) = (l, Panics p).
Proof. intros ->. reflexivity. Qed.

Lemma result_bind_returns {A B} (m : Go A) (k : A -> Go B) a :
  result m = Returns a -> result (m ≫= k) = result (k a).
Proof.
  destruct m as [l r]; simpl; intros ->.
  unfold mbind, Go_bind, bind. destruct (k a); reflexivity.
Qed.

Lemma int32_small x : 0 <= x < 2 ^ 31 -> int32 x = x.
Proof.
  intros Hx. unfold int32.
  rewrite Z.mod_small by lia. lia.
Qed.

Lemma index_negative {A} (s : list A) i : i < 0 -> index s i = goPanic IndexOutOfRange.
Proof. intros Hi. unfold index. destruct (Z.ltb_spec i 0); [reflexivity | lia]. Qed.

Lemma index_lookup {A} (s : list A) i x :
  0 <= i -> s !! Z.to_nat i = Some x -> index s i = mret x.
Proof.
  intros Hi Hx. unfold index. destruct (Z.ltb_spec i 0); [lia |]. rewrite Hx. reflexivity.
Qed.

Lemma index_nil {A} i : index (@nil A) i = goPanic IndexOutOfRange.
Proof. unfold index. destruct (i <? 0); reflexivity. Qed.

(** ** The enum converter *)
Section enum.

#[local] Open Scope string_scope.
#[local] Open Scope Z_scope.

(** An ordinal within the list converts to the element it indexes when
    that is a string. *)
Lemma enumConverter_in_range (param : spec_Parameter) (i : Z) (s : string) :
  Z.of_nat (length (Enum param)) < 2 ^ 31 ->
  0 <= i ->
  Enum param !! Z.to_nat i = Some (VString s) ->
  enumConverter (Some param) (VInt32 i) = mret s.
Proof.
  intros Hlen Hi Hs. unfold enumConverter. rewrite bind_ret.
  rewrite int32_small by lia.
  pose proof (lookup_lt_Some _ _ _ Hs).
  destruct (Z.leb_spec (Z.of_nat (length (Enum param))) i); [lia |].
  rewrite (index_lookup _ _ _ Hi Hs), bind_ret. reflexivity.
Qed.

(** An element that is not a string converts to the empty string. *)
Lemma enumConverter_not_string (param : spec_Parameter) (i : Z) (v : Value) :
  Z.of_nat (length (Enum param)) < 2 ^ 31 ->
  0 <= i ->
  Enum param !! Z.to_nat i = Some v ->
  (forall s, v <> VString s) ->
  enumConverter (Some param) (VInt32 i) = mret "".
Proof.
  intros Hlen Hi Hv Hns. unfold enumConverter. rewrite bind_ret.
  rewrite int32_small by lia.
  pose proof (lookup_lt_Some _ _ _ Hv).
  destruct (Z.leb_spec (Z.of_nat (length (Enum param))) i); [lia |].
  rewrite (index_lookup _ _ _ Hi Hv), bind_ret.
  destruct v; try reflexivity. exfalso. eapply Hns. reflexivity.
Qed.

(** An ordinal at or past the end of the list converts to the empty
    string, and the converter logs an error. *)
Lemma enumConverter_past_end (param : spec_Parameter) (i : Z) :
  Z.of_nat (length (Enum param)) < 2 ^ 31 ->
  Z.of_nat (length (Enum param)) <= i ->
  enumConverter (Some param) (VInt32 i) = ([LogEnumOutOfBounds i (Name param)], Returns "").
Proof.
  intros Hlen Hi. unfold enumConverter. rewrite bind_ret.
  rewrite int32_small by lia.
  destruct (Z.leb_spec (Z.of_nat (length (Enum param))) i); [reflexivity | lia].
Qed.

(** C1, the ordinals the guard misses: the converter compares the ordinal
    with the length of the list only, so a negative ordinal reaches the
    index expression [param.Enum[rawValue]], which panics.  The converter
    does not return the empty string for it. *)
Theorem enumConverter_negative_panics (param : spec_Parameter) (i : Z) :
  Z.of_nat (length (Enum param)) < 2 ^ 31 ->
  i < 0 ->
  enumConverter (Some param) (VInt32 i) = goPanic IndexOutOfRange.
Proof.
  intros Hlen Hi. unfold enumConverter. rewrite bind_ret.
  rewrite int32_small by lia.
  destruct (Z.leb_spec (Z.of_nat (length (Enum param))) i); [lia |].
  rewrite index_negative by lia. reflexivity.
Qed.

End enum.

Lemma enumConverter_negative_panics_witness :
  enumConverter (Some Fixture.enumParam) (VInt32 (-1)) = ([], Panics IndexOutOfRange).
Proof.
  apply (enumConverter_negative_panics Fixture.enumParam (-1)).
  - simpl. lia.
  - lia.
Defined.

(** ** The map converter *)

Section map_converter.
Context `{Libraries}.

#[local] Open Scope string_scope.

Lemma mapConverterLoop_non_string mapValue convertedValue :
  Exists (fun kv => isString kv.1 = false) mapValue ->
  mapConverterLoop mapValue convertedValue = ([LogNonStringKey], Returns "").
Proof.
  intros Hex. revert convertedValue.
  induction mapValue as [| [key value] rest IH]; intros convertedValue.
  - inversion Hex.
  - cbn [mapConverterLoop].
    destruct key; try reflexivity.
    apply IH. inversion Hex as [? ? Hk | ? ? Hk]; subst; [discriminate Hk | exact Hk].
Qed.

Lemma mapConverterLoop_strings mapValue entries convertedValue :
  stringEntries mapValue = Some entries ->
  mapConverterLoop mapValue convertedValue
  = marshalConverted (foldl (fun m kv => <[kv.1 := kv.2]> m) convertedValue entries).
Proof.
  revert entries convertedValue.
  induction mapValue as [| [key value] rest IH]; intros entries convertedValue Hs.
  - injection Hs as <-. reflexivity.
  - cbn [mapConverterLoop]. destruct key; try discriminate Hs.
    cbn [stringEntries] in Hs.
    destruct (stringEntries rest) as [entries' |] eqn:Hrest; [| discriminate Hs].
    injection Hs as <-. cbn [foldl]. apply IH. reflexivity.
Qed.

Lemma foldl_insert_list_to_map (entries : list (string * Value)) (m : gmap string Value) :
  foldl (fun m kv => <[kv.1 := kv.2]> m) m entries = list_to_map (rev entries) ∪ m.
Proof.
  revert m. induction entries as [| [k v] rest IH]; intros m.
  - cbn. rewrite (left_id_L ∅ (∪)). reflexivity.
  - cbn [foldl rev]. rewrite IH. cbn [fst snd].
    rewrite list_to_map_app. cbn [list_to_map foldr fst snd uncurry].
    rewrite <- (assoc_L (∪)). f_equal.
    rewrite insert_union_singleton_l.
    rewrite insert_empty. reflexivity.
Qed.

Lemma converted_list_to_map (entries : list (string * Value)) :
  NoDup entries.*1 ->
  foldl (fun m kv => <[kv.1 := kv.2]> m) (∅ : gmap string Value) entries
  = list_to_map entries.
Proof.
  intros Hnd. rewrite foldl_insert_list_to_map, (right_id_L ∅ (∪)).
  symmetry. apply list_to_map_proper; [exact Hnd |].
  apply Permutation_rev.
Qed.

Lemma stringEntries_Permutation mapValue mapValue' entries :
  mapValue ≡ₚ mapValue' ->
  stringEntries mapValue = Some entries ->
  exists entries', stringEntries mapValue' = Some entries' /\ entries ≡ₚ entries'.
Proof.
  intros Hp. revert entries.
  induction Hp as [| [k v] l l' Hp IH | [k1 v1] [k2 v2] l | l1 l2 l3 Hp1 IH1 Hp2 IH2];
    intros entries Hs.
  - injection Hs as <-. exists []. split; reflexivity.
  - cbn [stringEntries] in *. destruct k; try discriminate Hs.
    destruct (stringEntries l) as [e |]; [| discriminate Hs].
    destruct (IH e eq_refl) as (e' & -> & He). injection Hs as <-.
    exists ((s, v) :: e'). split; [reflexivity | constructor; exact He].
  - destruct k1, k2; simpl in Hs; try discriminate Hs.
    cbn [stringEntries].
    destruct (stringEntries l) as [e |]; [| discriminate Hs].
    injection Hs as <-. eexists. split; [reflexivity | apply perm_swap].
  - destruct (IH1 _ Hs) as (e2 & Hs2 & He2).
    destruct (IH2 _ Hs2) as (e3 & Hs3 & He3).
    exists e3. split; [exact Hs3 | etransitivity; eassumption].
Qed.

Lemma stringEntries_non_string mapValue :
  stringEntries mapValue = None <-> Exists (fun kv => isString kv.1 = false) mapValue.
Proof.
  induction mapValue as [| [k v] rest IH].
  - split; [discriminate | intros Hex; inversion Hex].
  - cbn [stringEntries]. destruct k;
      try (split; [intros _; left; reflexivity | reflexivity]).
    destruct (stringEntries rest) as [e |].
    + split; [discriminate |]. intros Hex.
      inversion Hex as [? ? Hk | ? ? Hk]; subst; [discriminate Hk |].
      apply IH in Hk. discriminate Hk.
    + split; [| reflexivity]. intros _. right. apply IH. reflexivity.
Qed.

Lemma encodeMembers_encodes (entries : list (string * Value)) :
  Forall (fun kv => exists e, json.encodeValue kv.2 = inl e) entries ->
  exists members, json.encodeMembers entries = inl members.
Proof.
  induction 1 as [| [k v] rest [e He] _ [members IH]].
  - exists []. reflexivity.
  - cbn [json.encodeMembers]. cbn [snd] in He. rewrite He, IH. eexists. reflexivity.
Qed.

Lemma encodeMembers_refuses (entries : list (string * Value)) :
  Exists (fun kv => exists err, json.encodeValue kv.2 = inr err) entries ->
  exists err, json.encodeMembers entries = inr err.
Proof.
  induction entries as [| [k v] rest IH]; intros Hex.
  - inversion Hex.
  - cbn [json.encodeMembers]. destruct (json.encodeValue v) as [e | err] eqn:He.
    + inversion Hex as [? ? [err Hk] | ? ? Hk]; subst.
      * cbn [snd] in Hk. congruence.
      * destruct (IH Hk) as [err ->]. exists err. reflexivity.
    + exists err. reflexivity.
Qed.

Lemma sorted_entries_Permutation (entries : list (string * Value)) :
  NoDup entries.*1 ->
  merge_sort json.keyLe (map_to_list (list_to_map entries : gmap string Value)) ≡ₚ entries.
Proof.
  intros Hnd. rewrite merge_sort_Permutation. apply map_to_list_to_map. exact Hnd.
Qed.

(** The converter on a map whose keys are all strings: the JSON encoding
    of the map with exactly these entries. *)
Lemma mapConverter_strings mapValue entries :
  stringEntries mapValue = Some entries ->
  NoDup entries.*1 ->
  mapConverter (VMap mapValue) = marshalConverted (list_to_map entries).
Proof.
  intros Hs Hnd. unfold mapConverter.
  rewrite (mapConverterLoop_strings _ _ _ Hs), converted_list_to_map by exact Hnd.
  reflexivity.
Qed.

(** The order in which [range] visits the map does not show in the
    result. *)
Lemma mapConverter_order mapValue mapValue' entries :
  stringEntries mapValue = Some entries ->
  NoDup entries.*1 ->
  mapValue' ≡ₚ mapValue ->
  mapConverter (VMap mapValue') = mapConverter (VMap mapValue).
Proof.
  intros Hs Hnd Hp.
  destruct (stringEntries_Permutation _ _ _ (symmetry Hp) Hs) as (entries' & Hs' & He).
  assert (Hnd' : NoDup entries'.*1) by (rewrite <- He; exact Hnd).
  rewrite (mapConverter_strings _ _ Hs Hnd), (mapConverter_strings _ _ Hs' Hnd').
  f_equal. apply list_to_map_proper; [exact Hnd' | symmetry; exact He].
Qed.

(** C2, as the code has it: a key that is not a string does not make the
    converter fail.  Whatever the other entries and the order in which they
    are visited, the converter logs one error and returns the empty
    string. *)
Theorem mapConverter_non_string_key (mapValue : list (Value * Value)) :
  Exists (fun kv => isString kv.1 = false) mapValue ->
  mapConverter (VMap mapValue) = ([LogNonStringKey], Returns "")
  /\ ~ fails (mapConverter (VMap mapValue)).
Proof.
  intros Hex. unfold mapConverter.
  rewrite (mapConverterLoop_non_string _ _ Hex).
  split; [reflexivity |]. intros [p Hp]. discriminate Hp.
Qed.

(** C8, as the code has it: for a map with string keys whose values all
    have a JSON encoding, the converter returns a JSON object with exactly
    the entries of the map, the same string for every order in which the
    map is visited; when a value has no JSON encoding the converter logs a
    warning and returns the empty string. *)
Theorem mapConverter_string_keys (mapValue : list (Value * Value))
    (entries : list (string * Value)) :
  stringEntries mapValue = Some entries ->
  NoDup entries.*1 ->
  (Forall (fun kv => exists e, json.encodeValue kv.2 = inl e) entries ->
   exists s,
     mapConverter (VMap mapValue) = mret s
     /\ jsonObjectOf entries s
     /\ forall mapValue', mapValue' ≡ₚ mapValue -> mapConverter (VMap mapValue') = mret s)
  /\ (Exists (fun kv => exists err, json.encodeValue kv.2 = inr err) entries ->
      exists err, mapConverter (VMap mapValue) = ([LogJSONErrorMap err], Returns "")).
Proof.
  intros Hs Hnd. pose proof (sorted_entries_Permutation _ Hnd) as Hsorted. split.
  - intros Henc.
    assert (Hall : Forall (fun kv => exists e, json.encodeValue kv.2 = inl e)
                     (merge_sort json.keyLe (map_to_list (list_to_map entries : gmap string Value)))).
    { rewrite Hsorted. exact Henc. }
    destruct (encodeMembers_encodes _ Hall) as [members Hm].
    assert (Hconv : mapConverter (VMap mapValue) = mret ("{" +:+ json.join "," members +:+ "}")).
    { rewrite (mapConverter_strings _ _ Hs Hnd). unfold marshalConverted.
      cbn [json.Marshal]. unfold json.encodeMap. rewrite Hm. reflexivity. }
    eexists. split; [exact Hconv |]. split.
    + eexists _, members. split; [exact Hsorted |]. split; [exact Hm | reflexivity].
    + intros mapValue' Hp. rewrite (mapConverter_order _ _ _ Hs Hnd Hp). exact Hconv.
  - intros Hex.
    assert (Hany : Exists (fun kv => exists err, json.encodeValue kv.2 = inr err)
                     (merge_sort json.keyLe (map_to_list (list_to_map entries : gmap string Value)))).
    { rewrite Hsorted. exact Hex. }
    destruct (encodeMembers_refuses _ Hany) as [err Hm].
    exists err. rewrite (mapConverter_strings _ _ Hs Hnd). unfold marshalConverted.
    cbn [json.Marshal]. unfold json.encodeMap. rewrite Hm. reflexivity.
Qed.

End map_converter.

Lemma mapConverter_non_string_key_witness :
  @mapConverter Fixture.libraries (VMap [(VString "a", VInt32 1); (VInt32 1, VInt32 2)])
  = ([LogNonStringKey], Returns ""%string)
  /\ ~ fails (@mapConverter Fixture.libraries
                (VMap [(VString "a", VInt32 1); (VInt32 1, VInt32 2)])).
Proof.
  apply (@mapConverter_non_string_key Fixture.libraries).
  right. left. reflexivity.
Defined.

(** The claim C2 as it is written, at a map with the key [1]: the converter
    does not fail. *)
Lemma mapConverter_non_string_key_counterexample :
  ~ (forall mapValue : list (Value * Value),
       Exists (fun kv => isString kv.1 = false) mapValue ->
       fails (@mapConverter Fixture.libraries (VMap mapValue))).
Proof.
  intros Hclaim.
  destruct (Hclaim [(VInt32 1, VInt32 2)]) as [p Hp].
  - left. reflexivity.
  - discriminate Hp.
Qed.

Lemma mapConverter_string_keys_witness :
  (exists s,
     @mapConverter Fixture.libraries (VMap [(VString "bar", VInt32 1); (VString "foo", VInt32 2)])
     = mret s
     /\ @jsonObjectOf Fixture.libraries [("bar"%string, VInt32 1); ("foo"%string, VInt32 2)] s
     /\ forall mapValue',
          mapValue' ≡ₚ [(VString "bar", VInt32 1); (VString "foo", VInt32 2)] ->
          @mapConverter Fixture.libraries (VMap mapValue') = mret s)
  /\ (exists err,
        @mapConverter Fixture.libraries (VMap [(VString "x", VFloat64 Fixture.double_NaN)])
        = ([LogJSONErrorMap err], Returns ""%string)).
Proof.
  split.
  - apply (proj1 (@mapConverter_string_keys Fixture.libraries
                    [(VString "bar", VInt32 1); (VString "foo", VInt32 2)]
                    [("bar"%string, VInt32 1); ("foo"%string, VInt32 2)]
                    eq_refl
                    ltac:(apply (bool_decide_unpack _); vm_compute; reflexivity))).
    repeat constructor; eexists; reflexivity.
  - apply (proj2 (@mapConverter_string_keys Fixture.libraries
                    [(VString "x", VFloat64 Fixture.double_NaN)]
                    [("x"%string, VFloat64 Fixture.double_NaN)]
                    eq_refl
                    ltac:(apply (bool_decide_unpack _); vm_compute; reflexivity))).
    left. eexists. reflexivity.
Defined.

(** The map of the package's test, in both orders. *)
Example mapConverter_bar_foo :
  let expected :=
    ("{" +:+ json.encodeString "bar" +:+ ":1," +:+ json.encodeString "foo" +:+ ":2}")%string in
  json.encodeString "bar" = String json.dquote ("bar" +:+ String json.dquote "")
  /\ @mapConverter Fixture.libraries (VMap [(VString "bar", VInt32 1); (VString "foo", VInt32 2)])
     = mret expected
  /\ @mapConverter Fixture.libraries (VMap [(VString "foo", VInt32 2); (VString "bar", VInt32 1)])
     = mret expected.
Proof. vm_compute. repeat split. Qed.

(** The claim C8 as it is written, at the map [{x: NaN}] with a string
    key: [json.Marshal] refuses the value, and the converter returns the
    empty string, which is no JSON object. *)
Lemma mapConverter_string_keys_counterexample :
  let mapValue := [(VString "x", VFloat64 Fixture.double_NaN)] in
  let entries := [("x"%string, VFloat64 Fixture.double_NaN)] in
  stringEntries mapValue = Some entries
  /\ @mapConverter Fixture.libraries (VMap mapValue)
     = ([LogJSONErrorMap ErrJSONUnsupportedValue], Returns ""%string)
  /\ ~ (exists s, @mapConverter Fixture.libraries (VMap mapValue) = mret s
                  /\ @jsonObjectOf Fixture.libraries entries s).
Proof.
  split; [reflexivity |]. split; [vm_compute; reflexivity |].
  intros (s & Hs & _). vm_compute in Hs. discriminate Hs.
Qed.

(** ** Extraction and placement *)
Section placement.
Context `{Libraries} {R : Type} `{ClientRequest R}.

#[local] Open Scope string_scope.

Lemma convertValues_fieldValues message fd toString values :
  fieldValues message fd values ->
  convertValues message fd toString = convertEach toString values.
Proof.
  unfold fieldValues, convertValues.
  destruct (IsRepeated fd && negb (IsMap fd)).
  - intros ->. apply bind_ret.
  - intros ->. apply bind_ret.
Qed.

Lemma convertEach_returns (toString : Value -> Go string) values strings :
  Forall2 (fun v s => result (toString v) = Returns s) values strings ->
  convertEach toString values
  = (concat (map (fun v => logged (toString v)) values), Returns strings).
Proof.
  induction 1 as [| v s values strings Hv _ IH].
  - reflexivity.
  - cbn [convertEach map concat].
    destruct (toString v) as [l r] eqn:Hts. cbn in Hv. subst r.
    rewrite (bind_returns _ _ l s eq_refl), IH.
    rewrite (bind_returns _ _ _ strings eq_refl).
    cbn. rewrite app_nil_r. reflexivity.
Qed.

(** C3: the strings extracted from a field are the conversions of its
    values, one for each and in their order: of every element for a
    repeated field that is not a map, and of the one decoded value (for a
    map, the whole map) otherwise.  The lines the conversions log come in
    the same order. *)
Theorem convertValues_each (message : Message) (fd : FieldDescriptor)
    (toString : Value -> Go string) (values : list Value) (strings : list string) :
  fieldValues message fd values ->
  Forall2 (fun v s => result (toString v) = Returns s) values strings ->
  convertValues message fd toString
  = (concat (map (fun v => logged (toString v)) values), Returns strings)
  /\ length strings = length values
  /\ (IsRepeated fd && negb (IsMap fd) = false ->
      exists s, strings = [s] /\ result (toString (GetField message fd)) = Returns s).
Proof.
  intros Hvalues Hall. split; [| split].
  - rewrite (convertValues_fieldValues _ _ _ _ Hvalues). apply convertEach_returns. exact Hall.
  - symmetry. eapply Forall2_length. exact Hall.
  - intros Hsingle. unfold fieldValues in Hvalues. rewrite Hsingle in Hvalues. subst values.
    inversion Hall as [| ? s ? ? Hs Hnil]; subst. inversion Hnil; subst.
    exists s. split; [reflexivity | exact Hs].
Qed.

Lemma pathWriter_cons param value rest (request : R) :
  pathWriter param (value :: rest) request
  = (excessWarning (Name param) rest, Returns (SetPathParam (Name param) value request)).
Proof.
  unfold pathWriter. destruct rest as [| value' rest]; [reflexivity |].
  cbn [length]. destruct (Z.ltb_spec 1 (Z.of_nat (S (S (length rest))))); [reflexivity | lia].
Qed.

Lemma bodyWriter_cons param value rest (request : R) :
  bodyWriter param (value :: rest) request
  = (excessWarning (Name param) rest, Returns (SetBodyParam value request)).
Proof.
  unfold bodyWriter. destruct rest as [| value' rest]; [reflexivity |].
  cbn [length]. destruct (Z.ltb_spec 1 (Z.of_nat (S (S (length rest))))); [reflexivity | lia].
Qed.

(** C4: given one value or more, the placer of a [path] parameter sets the
    path parameter to the first value and the placer of a [body] parameter
    hands the first value, as it is, to the request as its body; the values
    after the first are not used and only cause a warning in the log: the
    placer returns what the setter of the request returns. *)
Theorem path_and_body_place_first_value (name : string) (enum : list Value)
    (value : string) (rest : list string) (request : R) :
  (exists placer,
     getParamWriter {| Name := name; In := "path"; Enum := enum |} = inl placer
     /\ placer (value :: rest) request
        = (excessWarning name rest, Returns (SetPathParam name value request))
     /\ ~ fails (placer (value :: rest) request))
  /\ (exists placer,
        getParamWriter {| Name := name; In := "body"; Enum := enum |} = inl placer
        /\ placer (value :: rest) request
           = (excessWarning name rest, Returns (SetBodyParam value request))
        /\ ~ fails (placer (value :: rest) request)).
Proof.
  split.
  - eexists. split; [reflexivity |]. rewrite pathWriter_cons.
    split; [reflexivity |]. intros [p Hp]. discriminate Hp.
  - eexists. split; [reflexivity |]. rewrite bodyWriter_cons.
    split; [reflexivity |]. intros [p Hp]. discriminate Hp.
Qed.

(** C10: the placers of [path] and [body] parameters index the first value
    without a check: they end normally for every sequence with a value, and
    panic on the empty one, which a repeated field without elements bound
    to such a parameter produces. *)
Theorem path_and_body_need_a_value (param : spec_Parameter) (request : R) :
  pathWriter param [] request = goPanic IndexOutOfRange
  /\ bodyWriter param [] request = goPanic IndexOutOfRange
  /\ (forall value rest,
        ~ fails (pathWriter param (value :: rest) request)
        /\ ~ fails (bodyWriter param (value :: rest) request))
  /\ (forall message fd toString,
        IsRepeated fd = true -> IsMap fd = false -> GetField message fd = VSlice [] ->
        makeParamWriter fd toString (pathWriter param) message request = goPanic IndexOutOfRange
        /\ makeParamWriter fd toString (bodyWriter param) message request
           = goPanic IndexOutOfRange).
Proof.
  split; [reflexivity |]. split; [reflexivity |]. split.
  - intros value rest. rewrite pathWriter_cons, bodyWriter_cons.
    split; intros [p Hp]; discriminate Hp.
  - intros message fd toString Hrep Hmap Hempty.
    assert (Hvalues : convertValues message fd toString = mret []).
    { rewrite (convertValues_fieldValues _ _ _ []); [reflexivity |].
      unfold fieldValues. rewrite Hrep, Hmap. exact Hempty. }
    unfold makeParamWriter. rewrite Hvalues, !bind_ret. split; reflexivity.
Qed.

End placement.

Lemma convertValues_each_witness :
  let repeated : Message := {[ 2 := VSlice [VString "foo"; VString "bar"; VString "gaz"] ]} in
  let map : Message := {[ 7 := VMap [(VString "foo", VInt32 1); (VString "bar", VInt32 2)] ]} in
  let whole (v : Value) : Go string :=
    mret match v with VMap _ => "<map value>" | _ => "UNKNOWN" end%string in
  convertValues repeated Fixture.repeatedValue stringConverter
  = ([], Returns ["foo"; "bar"; "gaz"]%string)
  /\ convertValues map Fixture.mapValue whole = ([], Returns ["<map value>"%string])
  /\ (exists s, ["<map value>"%string] = [s]
                /\ result (whole (GetField map Fixture.mapValue)) = Returns s).
Proof.
  intros repeated map whole. split; [| split].
  - apply (proj1 (convertValues_each repeated Fixture.repeatedValue stringConverter
                    [VString "foo"; VString "bar"; VString "gaz"]
                    ["foo"; "bar"; "gaz"]%string eq_refl
                    ltac:(repeat constructor))).
  - apply (proj1 (convertValues_each map Fixture.mapValue whole
                    [VMap [(VString "foo", VInt32 1); (VString "bar", VInt32 2)]]
                    ["<map value>"%string] eq_refl ltac:(repeat constructor))).
  - apply (proj2 (proj2 (convertValues_each map Fixture.mapValue whole
                    [VMap [(VString "foo", VInt32 1); (VString "bar", VInt32 2)]]
                    ["<map value>"%string] eq_refl ltac:(repeat constructor)))).
    reflexivity.
Defined.

(** The fixtures of [TestConvertValues]: a single value, a repeated value
    and a map, which reaches the converter whole. *)
Example convertValues_test_fixtures :
  let echo (input : Value) : Go string :=
    mret match input with
         | VString stringValue => stringValue
         | VMap _ => "<map value>"
         | _ => "UNKNOWN"
         end%string in
  convertValues {[ 1 := VString "foo" ]} (Fixture.scalar "singleValue" 1 TYPE_STRING) echo
  = mret ["foo"%string]
  /\ convertValues {[ 2 := VSlice [VString "foo"; VString "bar"; VString "gaz"] ]}
       Fixture.repeatedValue echo
     = mret ["foo"; "bar"; "gaz"]%string
  /\ convertValues {[ 7 := VMap [(VString "foo", VInt32 1); (VString "bar", VInt32 2)] ]}
       Fixture.mapValue echo
     = mret ["<map value>"%string].
Proof. vm_compute. repeat split. Qed.

Lemma path_and_body_need_a_value_witness :
  let param := Fixture.param "repeatedValue" "path" in
  let request := {| Fixture.refused := []; Fixture.calls := [] |} in
  IsRepeated Fixture.repeatedValue = true
  /\ IsMap Fixture.repeatedValue = false
  /\ GetField ∅ Fixture.repeatedValue = VSlice []
  /\ @makeParamWriter _ Fixture.repeatedValue stringConverter
       (@pathWriter _ Fixture.recorder_request param) ∅ request
     = goPanic IndexOutOfRange.
Proof.
  split; [reflexivity |]. split; [reflexivity |]. split; [reflexivity |].
  apply (@path_and_body_need_a_value _ Fixture.recorder_request
           (Fixture.param "repeatedValue" "path")
           {| Fixture.refused := []; Fixture.calls := [] |});
    reflexivity.
Defined.

(** ** Construction *)
Section construction.
Context `{Libraries} {R : Type} `{ClientRequest R}.

#[local] Open Scope string_scope.

Lemma IsMap_message fd : IsMap fd = true -> GetType fd = TYPE_MESSAGE.
Proof.
  unfold IsMap. intros Hm.
  apply andb_prop in Hm as [Hm _]. apply andb_prop in Hm as [_ Hm].
  apply bool_decide_eq_true in Hm. exact Hm.
Qed.

Lemma IsMap_not_message fd : GetType fd <> TYPE_MESSAGE -> IsMap fd = false.
Proof.
  intros Hne. destruct (IsMap fd) eqn:Hm; [| reflexivity].
  apply IsMap_message in Hm. contradiction.
Qed.

Lemma getParamWriter_unsupported (param : spec_Parameter) :
  ~ supportedLocation (In param) ->
  getParamWriter (R := R) param
  = inr (if bool_decide (In param = "formData") then ErrFormData
         else if bool_decide (In param = "cookie") then ErrCookie
         else ErrUnknownLocation (In param) (Name param)).
Proof.
  unfold supportedLocation, getParamWriter. intros Hns.
  rewrite !bool_decide_eq_false_2 by (intros Hloc; apply Hns; rewrite Hloc; set_solver).
  repeat case_bool_decide; reflexivity.
Qed.

Lemma getStringConverter_bytes fd param :
  GetType fd = TYPE_BYTES -> getStringConverter fd param = inr ErrBytes.
Proof.
  intros Ht. unfold getStringConverter.
  rewrite IsMap_not_message by (rewrite Ht; discriminate). rewrite Ht. reflexivity.
Qed.

Lemma getStringConverter_group fd param :
  GetType fd = TYPE_GROUP -> getStringConverter fd param = inr ErrGroup.
Proof.
  intros Ht. unfold getStringConverter.
  rewrite IsMap_not_message by (rewrite Ht; discriminate). rewrite Ht. reflexivity.
Qed.

Lemma bindParameters_refused input parameters writers :
  Exists (fun kp => refusedParameter input kp.2) parameters ->
  exists err, bindParameters (R := R) input parameters writers = inr err.
Proof.
  intros Hex. revert writers.
  induction parameters as [| [k param] rest IH]; intros writers.
  - inversion Hex.
  - cbn [bindParameters].
    destruct (bindParameter input param) as [writer | err] eqn:Hb.
    + apply IH. inversion Hex as [? ? [err Herr] | ? ? Hrest]; subst.
      * cbn [snd] in Herr. congruence.
      * exact Hrest.
    + exists err. reflexivity.
Qed.

Lemma bindParameters_app input pre post writers writers' :
  bindParameters (R := R) input pre writers = inl writers' ->
  bindParameters input (pre ++ post)%list writers = bindParameters input post writers'.
Proof.
  revert writers. induction pre as [| [k param] pre IH]; intros writers Hpre.
  - injection Hpre as <-. reflexivity.
  - cbn [bindParameters app] in *.
    destruct (bindParameter input param) as [writer | err]; [| discriminate Hpre].
    apply IH. exact Hpre.
Qed.

Lemma bindParameters_bound input parameters writers :
  Forall (fun kp => exists writer, bindParameter (R := R) input kp.2 = inl writer) parameters ->
  exists bound,
    bindParameters input parameters writers = inl (writers ++ bound)%list
    /\ Forall2 (fun kp writer => bindParameter input kp.2 = inl writer) parameters bound.
Proof.
  intros Hall. revert writers.
  induction Hall as [| [k param] rest [writer Hw] _ IH]; intros writers.
  - exists []. rewrite app_nil_r. split; [reflexivity | constructor].
  - cbn [bindParameters]. cbn [snd] in Hw. rewrite Hw.
    destruct (IH (writers ++ [writer])%list) as (bound & Hb & Hall2).
    exists (writer :: bound). rewrite Hb, <- app_assoc. split; [reflexivity |].
    constructor; [exact Hw | exact Hall2].
Qed.

(** [newPathWrapper] returns no adapter when the loop ends in an error. *)
Lemma newPathWrapper_error httpMethod swaggerPath parameters method err :
  bindParameters (R := R) (GetInputType method) parameters [] = inr err ->
  newPathWrapper httpMethod swaggerPath parameters method = inr err.
Proof. unfold newPathWrapper. intros ->. reflexivity. Qed.

(** The writers of an adapter are those of the parameters, in the order in
    which the parameters were visited. *)
Lemma newPathWrapper_writers httpMethod swaggerPath parameters method :
  Forall (fun kp => exists writer, bindParameter (R := R) (GetInputType method) kp.2 = inl writer)
    parameters ->
  exists p,
    newPathWrapper httpMethod swaggerPath parameters method = inl p
    /\ Forall2 (fun kp writer => bindParameter (GetInputType method) kp.2 = inl writer)
         parameters (paramWriters p).
Proof.
  intros Hall. destruct (bindParameters_bound _ _ [] Hall) as (bound & Hb & Hall2).
  unfold newPathWrapper. rewrite Hb. eexists. split; [reflexivity | exact Hall2].
Qed.

(** [strings.Replace(s, "-", "_", -1)] changes every hyphen and nothing
    else. *)
Lemma replaceHyphens_get (s : string) (n : nat) :
  String.get n (replaceHyphens s)
  = option_map (fun c => if bool_decide (c = "-"%char) then "_"%char else c) (String.get n s).
Proof.
  revert n. induction s as [| c s IH]; intros n; [reflexivity |].
  destruct n as [| n]; [reflexivity |]. cbn [replaceHyphens String.get]. apply IH.
Qed.

(** C9: a field of kind bytes or group has no converter and a parameter
    whose location is [formData], [cookie] or any string other than
    [query], [header], [path] and [body] has no placer: the lookups return
    an error, and so does the construction of an adapter with such a
    parameter, whose writers therefore never run. *)
Theorem unsupported_kind_or_location :
  (forall fd param,
     (GetType fd = TYPE_BYTES -> getStringConverter fd param = inr ErrBytes)
     /\ (GetType fd = TYPE_GROUP -> getStringConverter fd param = inr ErrGroup))
  /\ (forall param : spec_Parameter,
        (In param = "formData" -> getParamWriter (R := R) param = inr ErrFormData)
        /\ (In param = "cookie" -> getParamWriter (R := R) param = inr ErrCookie)
        /\ (~ supportedLocation (In param) ->
            exists err, getParamWriter (R := R) param = inr err))
  /\ (forall httpMethod swaggerPath parameters method k param fd,
        (k, param) ∈ parameters ->
        FindFieldByName (GetInputType method) (replaceHyphens (Name param)) = Some fd ->
        GetType fd = TYPE_BYTES \/ GetType fd = TYPE_GROUP \/ ~ supportedLocation (In param) ->
        exists err,
          newPathWrapper (R := R) httpMethod swaggerPath parameters method = inr err).
Proof.
  split; [| split].
  - intros fd param. split; [apply getStringConverter_bytes | apply getStringConverter_group].
  - intros param. split; [| split].
    + intros Hloc. unfold getParamWriter. rewrite Hloc. reflexivity.
    + intros Hloc. unfold getParamWriter. rewrite Hloc. reflexivity.
    + intros Hns. rewrite (getParamWriter_unsupported _ Hns). eexists. reflexivity.
  - intros httpMethod swaggerPath parameters method k param fd Hin Hfd Hbad.
    destruct (bindParameters_refused (GetInputType method) parameters []) as [err Herr].
    + apply Exists_exists. exists (k, param). split; [exact Hin |].
      unfold refusedParameter, bindParameter. cbn [snd]. rewrite Hfd.
      destruct Hbad as [Hb | [Hg | Hns]].
      * rewrite (getStringConverter_bytes _ _ Hb). eexists. reflexivity.
      * rewrite (getStringConverter_group _ _ Hg). eexists. reflexivity.
      * destruct (getStringConverter fd (Some param)); [| eexists; reflexivity].
        rewrite (getParamWriter_unsupported _ Hns). eexists. reflexivity.
    + exists err. apply newPathWrapper_error. exact Herr.
Qed.

(** The loop ends with the error of the first parameter that cannot be
    bound, whatever follows it. *)
Lemma bindParameters_first_error input before after k param err writers :
  Forall (fun kp => exists writer, bindParameter (R := R) input kp.2 = inl writer) before ->
  bindParameter (R := R) input param = inr err ->
  bindParameters input (before ++ (k, param) :: after)%list writers = inr err.
Proof.
  intros Hbefore Herr.
  destruct (bindParameters_bound _ _ writers Hbefore) as (bound & Hb & _).
  rewrite (bindParameters_app _ _ _ _ _ Hb). cbn [bindParameters]. rewrite Herr. reflexivity.
Qed.

(** A list with a parameter that cannot be bound has a first one. *)
Lemma first_refused input (parameters : list (string * spec_Parameter)) :
  Exists (fun kp => refusedParameter (R := R) input kp.2) parameters ->
  exists before k param after err,
    parameters = (before ++ (k, param) :: after)%list
    /\ Forall (fun kp => exists writer, bindParameter (R := R) input kp.2 = inl writer) before
    /\ bindParameter (R := R) input param = inr err.
Proof.
  induction parameters as [| [k param] rest IH]; intros Hex; [inversion Hex |].
  destruct (bindParameter (R := R) input param) as [writer | err] eqn:Hb.
  - destruct IH as (before & k' & param' & after & err & -> & Hbefore & Herr).
    { inversion Hex as [? ? [err Herr] | ? ? Hrest]; subst; [| exact Hrest].
      cbn [snd] in Herr. congruence. }
    exists ((k, param) :: before), k', param', after, err.
    split; [reflexivity |]. split; [| exact Herr].
    constructor; [exists writer; exact Hb | exact Hbefore].
  - exists [], k, param, rest, err. split; [reflexivity |]. split; [constructor | exact Hb].
Qed.

(** C6, as the code has it: the field of a parameter is looked up under
    the name of the parameter with its hyphens turned into underscores.
    When a parameter has no such field the construction returns an error
    and no adapter.  The error is that of the first parameter, in the
    order of the visit, that could not be bound: it names the missing
    field when the parameters visited before it were all bound, and it is
    the error of an earlier parameter when one of these, wherever it
    stands, could not be bound while those before it were. *)
Theorem missing_field_fails_construction (httpMethod swaggerPath : string)
    (method : MethodDescriptor) (pre post : list (string * spec_Parameter))
    (k : string) (param : spec_Parameter) :
  FindFieldByName (GetInputType method) (replaceHyphens (Name param)) = None ->
  (forall n,
     String.get n (replaceHyphens (Name param))
     = option_map (fun c => if bool_decide (c = "-"%char) then "_"%char else c)
         (String.get n (Name param)))
  /\ (exists before k' param' after err,
        (pre ++ (k, param) :: post)%list = (before ++ (k', param') :: after)%list
        /\ Forall (fun kp => exists writer,
                     bindParameter (R := R) (GetInputType method) kp.2 = inl writer) before
        /\ bindParameter (R := R) (GetInputType method) param' = inr err
        /\ newPathWrapper (R := R) httpMethod swaggerPath (pre ++ (k, param) :: post)%list method
           = inr err)
  /\ (Forall (fun kp => exists writer, bindParameter (R := R) (GetInputType method) kp.2 = inl writer)
        pre ->
      newPathWrapper (R := R) httpMethod swaggerPath (pre ++ (k, param) :: post)%list method
      = inr (ErrFieldNotFound (replaceHyphens (Name param))))
  /\ (forall before k' param' after err,
        pre = (before ++ (k', param') :: after)%list ->
        Forall (fun kp => exists writer, bindParameter (R := R) (GetInputType method) kp.2 = inl writer)
          before ->
        bindParameter (R := R) (GetInputType method) param' = inr err ->
        newPathWrapper (R := R) httpMethod swaggerPath (pre ++ (k, param) :: post)%list method
        = inr err).
Proof.
  intros Hnone.
  assert (Hparam : bindParameter (R := R) (GetInputType method) param
                   = inr (ErrFieldNotFound (replaceHyphens (Name param)))).
  { unfold bindParameter. rewrite Hnone. reflexivity. }
  split; [apply replaceHyphens_get |]. split; [| split].
  - destruct (first_refused (GetInputType method) (pre ++ (k, param) :: post)%list)
      as (before & k' & param' & after & err & Heq & Hbefore & Herr).
    { apply Exists_app. right. left. eexists. exact Hparam. }
    exists before, k', param', after, err.
    split; [exact Heq |]. split; [exact Hbefore |]. split; [exact Herr |].
    apply newPathWrapper_error. rewrite Heq.
    apply bindParameters_first_error; assumption.
  - intros Hpre. apply newPathWrapper_error.
    apply bindParameters_first_error; assumption.
  - intros before k' param' after err -> Hbefore Herr. apply newPathWrapper_error.
    rewrite <- app_assoc. cbn [app].
    apply bindParameters_first_error; assumption.
Qed.

End construction.

(** ** Handling a call *)
Section call.
Context `{Libraries} {R : Type} `{ClientRequest R}.

#[local] Open Scope string_scope.

Lemma runWriters_app (pre post : list (swaggerParamWriter (R := R))) msg request l request' :
  runWriters pre msg request = (l, Returns (None, request')) ->
  runWriters (pre ++ post)%list msg request
  = (l ++ logged (runWriters post msg request'), result (runWriters post msg request'))%list.
Proof.
  revert request l. induction pre as [| writer pre IH]; intros request l Hpre.
  - cbn in Hpre. injection Hpre as <- <-. cbn [app]. destruct (runWriters post msg request).
    reflexivity.
  - cbn [runWriters app] in *.
    destruct (writer msg request) as [lw [[[err |] request1] | p]] eqn:Hw.
    + rewrite (bind_returns _ _ lw (Some err, request1) eq_refl) in Hpre.
      cbn in Hpre. congruence.
    + rewrite (bind_returns _ _ lw (None, request1) eq_refl) in Hpre.
      rewrite (bind_returns _ _ lw (None, request1) eq_refl).
      destruct (runWriters pre msg request1) as [lp rp] eqn:Hrun.
      cbn [logged result fst snd] in Hpre. injection Hpre as <- ->.
      rewrite (IH request1 lp Hrun). cbn [logged result fst snd].
      rewrite app_assoc. reflexivity.
    + rewrite (bind_panics _ _ lw p eq_refl) in Hpre. discriminate Hpre.
Qed.

(** The writers before the first error all ran, in order, and the writers
    after it did not: the request writer ends with the request as the
    failing writer left it, the lines logged up to then, and that error. *)
Lemma runWriters_first_error (pre post : list (swaggerParamWriter (R := R))) writer
    msg request l request' lw err request'' :
  runWriters pre msg request = (l, Returns (None, request')) ->
  writer msg request' = (lw, Returns (Some err, request'')) ->
  runWriters (pre ++ writer :: post)%list msg request
  = ((l ++ lw)%list, Returns (Some err, request'')).
Proof.
  intros Hpre Hw. rewrite (runWriters_app _ _ _ _ _ _ Hpre).
  cbn [runWriters]. rewrite (bind_returns _ _ lw (Some err, request'') Hw).
  cbn. rewrite app_nil_r. reflexivity.
Qed.

(** A prefix that returns no error is one whose writers each returned
    nil. *)
Lemma runWriters_none_inv (writers : list (swaggerParamWriter (R := R))) msg request l request' :
  runWriters writers msg request = (l, Returns (None, request')) ->
  Forall (fun writer => exists request0 lw request1,
            writer msg request0 = (lw, Returns (None, request1))) writers.
Proof.
  revert request l. induction writers as [| writer writers IH]; intros request l Hrun.
  - constructor.
  - cbn [runWriters] in Hrun.
    destruct (writer msg request) as [lw [[[err |] request1] | p]] eqn:Hw.
    + rewrite (bind_returns _ _ lw (Some err, request1) eq_refl) in Hrun.
      cbn in Hrun. congruence.
    + rewrite (bind_returns _ _ lw (None, request1) eq_refl) in Hrun.
      destruct (runWriters writers msg request1) as [lp rp] eqn:Hrest.
      cbn [logged result fst snd] in Hrun. injection Hrun as <- ->.
      constructor; [eauto | eapply IH; exact Hrest].
    + rewrite (bind_panics _ _ lw p eq_refl) in Hrun. discriminate Hrun.
Qed.

(** C5: when the message cannot be decoded the call returns the error of
    the decoder and no request goes to the HTTP client.  Otherwise the
    writers run in the order of [paramWriters]; when one returns an error
    after those before it returned nil, the request writer returns that
    error with the request as it then is, whatever writers follow, and the
    call returns that error without a request going to the HTTP client or
    a message to the stream. *)
Theorem handleGRPCRequest_aborts (t : transport) (p : operationAdapter (R := R))
    (stream : ServerStream) :
  (forall err,
     RecvMsg stream = inr err ->
     handleGRPCRequest t p stream = ([LogDeserializeError err], Returns ([], Some err)))
  /\ (forall protoIn pre writer post l request lw err request',
        RecvMsg stream = inl protoIn ->
        paramWriters p = (pre ++ writer :: post)%list ->
        runWriters pre protoIn (newRequest t (httpMethod p) (swaggerPath p))
        = (l, Returns (None, request)) ->
        writer protoIn request = (lw, Returns (Some err, request')) ->
        getRequestWriter p protoIn (newRequest t (httpMethod p) (swaggerPath p))
        = ((l ++ lw)%list, Returns (Some err, request'))
        /\ handleGRPCRequest t p stream
           = ((l ++ lw ++ [LogSubmitError err])%list, Returns ([], Some err))).
Proof.
  split.
  - intros err Hrecv. unfold handleGRPCRequest. rewrite Hrecv. reflexivity.
  - intros protoIn pre writer post l request lw err request' Hrecv Hwriters Hpre Hw.
    assert (Hrun : getRequestWriter p protoIn (newRequest t (httpMethod p) (swaggerPath p))
                   = ((l ++ lw)%list, Returns (Some err, request'))).
    { unfold getRequestWriter. rewrite Hwriters.
      apply (runWriters_first_error _ _ _ _ _ _ _ _ _ _ Hpre Hw). }
    split; [exact Hrun |].
    unfold handleGRPCRequest. rewrite Hrecv. unfold Submit.
    rewrite (bind_returns _ _ _ _ Hrun). cbn. rewrite app_nil_r, <- app_assoc. reflexivity.
Qed.

(** When every writer returns nil the request goes to the HTTP client
    once, as the writers left it. *)
Lemma handleGRPCRequest_submits (t : transport) (p : operationAdapter (R := R))
    (stream : ServerStream) protoIn l request :
  RecvMsg stream = inl protoIn ->
  runWriters (paramWriters p) protoIn (newRequest t (httpMethod p) (swaggerPath p))
  = (l, Returns (None, request)) ->
  exists events err,
    result (handleGRPCRequest t p stream) = Returns (HTTPRequest request :: events, err).
Proof.
  intros Hrecv Hrun. unfold handleGRPCRequest, Submit, getRequestWriter.
  rewrite Hrecv, (bind_returns _ _ _ _ Hrun). cbn.
  destruct (roundTrip t request) as [body | err]; cbn.
  - unfold ReadResponse. destruct (Unmarshal t body (outputProtoType p)) as [protoOut [err |]];
      cbn; eexists _, _; reflexivity.
  - eexists _, _; reflexivity.
Qed.

End call.

(** ** The adapter of the examples *)
Section examples.
Import Fixture Examples.
#[local] Existing Instance libraries.
#[local] Existing Instance recorder_request.
#[local] Open Scope string_scope.

(** The adapter is the one [newPathWrapper] constructs. *)
Example newPathWrapper_adapter :
  exists p,
    newPathWrapper "GET" "/items" parameters method = inl p
    /\ httpMethod p = httpMethod adapter
    /\ swaggerPath p = swaggerPath adapter
    /\ paramWriters p = paramWriters adapter.
Proof. eexists. repeat split. Qed.

(** With no name refused the three parameters reach the HTTP client, and
    the response is sent on the stream. *)
Example handleGRPCRequest_end_to_end :
  handleGRPCRequest (client []) adapter (stream (inl protoIn))
  = mret ([ HTTPRequest {| refused := [];
                           calls := [ QueryParam "stringValue" ["foo"];
                                      HeaderParam "int32Value" ["1234"];
                                      QueryParam "boolValue" ["true"] ] |};
            MessageSent ∅ ], None).
Proof. vm_compute. reflexivity. Qed.

End examples.

Lemma handleGRPCRequest_aborts_witness :
  let t := Examples.client ["int32Value"%string] in
  let request0 := {| Fixture.refused := ["int32Value"%string]; Fixture.calls := [] |} in
  let request1 :=
    {| Fixture.refused := ["int32Value"%string];
       Fixture.calls := [Fixture.QueryParam "stringValue" ["foo"%string]] |} in
  handleGRPCRequest t Examples.adapter (Examples.stream (inr (ErrExternal "EOF")))
  = ([LogDeserializeError (ErrExternal "EOF")], Returns ([], Some (ErrExternal "EOF")))
  /\ getRequestWriter Examples.adapter Examples.protoIn request0
     = ([], Returns (Some (ErrExternal "int32Value"), request1))
  /\ handleGRPCRequest t Examples.adapter (Examples.stream (inl Examples.protoIn))
     = ([LogSubmitError (ErrExternal "int32Value")],
        Returns ([], Some (ErrExternal "int32Value"))).
Proof.
  intros t request0 request1. split.
  - apply (proj1 (handleGRPCRequest_aborts t Examples.adapter
                    (Examples.stream (inr (ErrExternal "EOF"))))).
    reflexivity.
  - apply (proj2 (handleGRPCRequest_aborts t Examples.adapter
                    (Examples.stream (inl Examples.protoIn)))
             Examples.protoIn [Examples.stringWriter] Examples.int32Writer
             [Examples.boolWriter] [] request1 [] (ErrExternal "int32Value") request1).
    + reflexivity.
    + reflexivity.
    + vm_compute. reflexivity.
    + vm_compute. reflexivity.
Defined.

Lemma missing_field_fails_construction_witness :
  FindFieldByName Fixture.TestMessage (replaceHyphens "no-such-field") = None
  /\ @newPathWrapper Fixture.libraries _ Fixture.recorder_request "GET" "/items"
       [ ("stringValue"%string, Fixture.param "stringValue" "query");
         ("no-such-field"%string, Fixture.param "no-such-field" "query");
         ("boolValue"%string, Fixture.param "boolValue" "query") ]
       Examples.method
     = inr (ErrFieldNotFound "no_such_field")
  /\ @newPathWrapper Fixture.libraries _ Fixture.recorder_request "GET" "/items"
       [ ("int32Value"%string, Fixture.param "int32Value" "cookie");
         ("stringValue"%string, Fixture.param "stringValue" "query");
         ("no-such-field"%string, Fixture.param "no-such-field" "query") ]
       Examples.method
     = inr ErrCookie.
Proof.
  split; [reflexivity |]. split.
  - apply (proj1 (proj2 (proj2
             (@missing_field_fails_construction Fixture.libraries _ Fixture.recorder_request
                "GET" "/items" Examples.method
                [("stringValue"%string, Fixture.param "stringValue" "query")]
                [("boolValue"%string, Fixture.param "boolValue" "query")]
                "no-such-field" (Fixture.param "no-such-field" "query") eq_refl)))).
    repeat constructor. eexists. reflexivity.
  - apply (proj2 (proj2 (proj2
             (@missing_field_fails_construction Fixture.libraries _ Fixture.recorder_request
                "GET" "/items" Examples.method
                [ ("int32Value"%string, Fixture.param "int32Value" "cookie");
                  ("stringValue"%string, Fixture.param "stringValue" "query") ]
                []
                "no-such-field" (Fixture.param "no-such-field" "query") eq_refl)))
             [] "int32Value"%string (Fixture.param "int32Value" "cookie")
             [("stringValue"%string, Fixture.param "stringValue" "query")] ErrCookie
             eq_refl ltac:(constructor) eq_refl).
Defined.

(** The claim C6 as it is written, at a map of two parameters visited in
    this order: the second has no field, and the construction fails with
    the error of the first, a cookie parameter, which is no binding
    error. *)
Lemma missing_field_fails_construction_counterexample :
  let parameters :=
    [ ("stringValue"%string, Fixture.param "stringValue" "cookie");
      ("missing"%string, Fixture.param "missing" "query") ] in
  FindFieldByName (GetInputType Examples.method) (replaceHyphens "missing") = None
  /\ @newPathWrapper Fixture.libraries _ Fixture.recorder_request "GET" "/items"
       parameters Examples.method
     = inr ErrCookie
  /\ @newPathWrapper Fixture.libraries _ Fixture.recorder_request "GET" "/items"
       parameters Examples.method
     <> inr (ErrFieldNotFound (replaceHyphens "missing")).
Proof.
  split; [reflexivity |]. split; [reflexivity |]. discriminate.
Qed.

Lemma unsupported_kind_or_location_witness :
  let bytesValue := Fixture.scalar "bytesValue" 9 TYPE_BYTES in
  let method :=
    {| GetInputType := {| GetFields := [bytesValue; Fixture.scalar "stringValue" 2 TYPE_STRING] |};
       GetOutputType := Fixture.TestMessage |} in
  (exists err,
     @newPathWrapper Fixture.libraries _ Fixture.recorder_request "GET" "/items"
       [("bytesValue"%string, Fixture.param "bytesValue" "query")] method = inr err)
  /\ (exists err,
        @newPathWrapper Fixture.libraries _ Fixture.recorder_request "GET" "/items"
          [("stringValue"%string, Fixture.param "stringValue" "matrix")] method = inr err).
Proof.
  intros bytesValue method. split.
  - apply (proj2 (proj2 (@unsupported_kind_or_location Fixture.libraries _
                           Fixture.recorder_request))
             "GET"%string "/items"%string _ method "bytesValue"%string
             (Fixture.param "bytesValue" "query") bytesValue).
    + left.
    + reflexivity.
    + left. reflexivity.
  - apply (proj2 (proj2 (@unsupported_kind_or_location Fixture.libraries _
                           Fixture.recorder_request))
             "GET"%string "/items"%string _ method "stringValue"%string
             (Fixture.param "stringValue" "matrix")
             (Fixture.scalar "stringValue" 2 TYPE_STRING)).
    + left.
    + reflexivity.
    + right. right. unfold supportedLocation. cbn.
      intros Hin. repeat (apply elem_of_cons in Hin as [Hin | Hin]; [discriminate Hin |]).
      inversion Hin.
Defined.

(** ** The printing of numbers *)
Section printing.

#[local] Open Scope string_scope.
#[local] Open Scope Z_scope.

Lemma digitValue_digit x : 0 <= x <= 9 -> digitValue (strconv.digit x) = Some x.
Proof.
  intros Hx.
  assert (Hcases : x = 0 \/ x = 1 \/ x = 2 \/ x = 3 \/ x = 4 \/ x = 5 \/ x = 6 \/ x = 7
                   \/ x = 8 \/ x = 9) by lia.
  repeat (destruct Hcases as [-> | Hcases]; [reflexivity |]). subst x. reflexivity.
Qed.

Lemma digit_not_minus x : 0 <= x <= 9 -> strconv.digit x <> "-"%char.
Proof.
  intros Hx Heq. pose proof (digitValue_digit x Hx) as Hd. rewrite Heq in Hd. discriminate Hd.
Qed.

Lemma append_cons c (s1 s2 : string) : String c s1 +:+ s2 = String c (s1 +:+ s2).
Proof. reflexivity. Qed.

Lemma append_empty_l (s : string) : "" +:+ s = s.
Proof. reflexivity. Qed.

Lemma append_assoc (s1 s2 s3 : string) : (s1 +:+ s2) +:+ s3 = s1 +:+ (s2 +:+ s3).
Proof.
  induction s1 as [| c s1 IH]; [reflexivity |]. rewrite !append_cons, IH. reflexivity.
Qed.

Lemma append_empty_r (s : string) : s +:+ "" = s.
Proof. induction s as [| c s IH]; [reflexivity |]. rewrite append_cons, IH. reflexivity. Qed.

Lemma length_append (s1 s2 : string) :
  String.length (s1 +:+ s2) = (String.length s1 + String.length s2)%nat.
Proof.
  induction s1 as [| c s1 IH]; [reflexivity |].
  rewrite append_cons. cbn [String.length]. rewrite IH. reflexivity.
Qed.

(** The digits [formatDigits] puts in front of [acc] start with a digit and
    read as [u]. *)
Lemma formatDigits_reads (fuel : nat) : forall u acc,
  (0 < fuel)%nat -> 0 <= u < 10 ^ Z.of_nat fuel ->
  exists x ds,
    0 <= x <= 9
    /\ strconv.formatDigits fuel u acc = String (strconv.digit x) ds +:+ acc
    /\ forall a rest,
         readDigits (String (strconv.digit x) ds +:+ rest) a
         = readDigits rest (a * 10 ^ Z.of_nat (S (String.length ds)) + u).
Proof.
  induction fuel as [| fuel IH]; intros u acc Hfuel Hu; [lia |].
  cbn [strconv.formatDigits]. destruct (Z.leb_spec 10 u) as [Hge | Hlt].
  - assert (Hfuel' : (0 < fuel)%nat).
    { destruct fuel; [| lia]. cbn in Hu. lia. }
    assert (Hdiv : 0 <= u / 10 < 10 ^ Z.of_nat fuel).
    { split; [apply Z.div_pos; lia |]. apply Z.div_lt_upper_bound; [lia |].
      replace (Z.of_nat (S fuel)) with (Z.succ (Z.of_nat fuel)) in Hu by lia.
      rewrite Z.pow_succ_r in Hu by lia. lia. }
    set (d := u - u / 10 * 10).
    assert (Hd : 0 <= d <= 9).
    { unfold d. pose proof (Z.mod_pos_bound u 10 ltac:(lia)).
      pose proof (Z.div_mod u 10 ltac:(lia)). lia. }
    destruct (IH (u / 10) (String (strconv.digit d) acc) Hfuel' Hdiv) as (x & ds & Hx & Hfmt & Hread).
    exists x, (ds +:+ String (strconv.digit d) ""). split; [exact Hx |]. split.
    + rewrite Hfmt. rewrite <- (append_cons _ ds (String _ "")), append_assoc. reflexivity.
    + intros a rest.
      rewrite <- (append_cons _ ds), append_assoc, (append_cons _ "" rest), append_empty_l.
      rewrite Hread. cbn [readDigits].
      rewrite (digitValue_digit d Hd). f_equal.
      rewrite length_append. cbn [String.length].
      replace (Z.of_nat (S (String.length ds + 1))) with (Z.succ (Z.of_nat (S (String.length ds))))
        by lia.
      rewrite Z.pow_succ_r by lia. unfold d. lia.
  - exists u, "". split; [lia |]. split; [reflexivity |].
    intros a rest. rewrite append_cons, append_empty_l. cbn [readDigits String.length].
    rewrite (digitValue_digit u) by lia. f_equal. change (Z.of_nat 1) with 1. lia.
Qed.

(** An unsigned 64-bit number is printed as the decimal numeral that reads
    as it. *)
Lemma FormatUint_reads u : 0 <= u < 2 ^ 64 -> readUint (strconv.FormatUint u) = Some u.
Proof.
  intros Hu. unfold strconv.FormatUint.
  destruct (formatDigits_reads 20 u "" ltac:(lia)) as (x & ds & Hx & Hfmt & Hread).
  { split; [lia |]. eapply Z.lt_le_trans; [apply Hu |]. vm_compute. discriminate. }
  rewrite Hfmt. rewrite append_empty_r.
  unfold readUint. rewrite <- (append_empty_r (String _ ds)), Hread. reflexivity.
Qed.

(** A signed 64-bit number is printed as the decimal numeral that reads as
    it. *)
Lemma FormatInt_reads i : - 2 ^ 63 <= i < 2 ^ 63 -> readInt (strconv.FormatInt i) = Some i.
Proof.
  intros Hi. unfold strconv.FormatInt. destruct (Z.ltb_spec i 0) as [Hneg | Hpos].
  - rewrite append_cons, append_empty_l. cbn [readInt].
    rewrite FormatUint_reads by lia. cbn. f_equal. lia.
  - pose proof (FormatUint_reads i ltac:(lia)) as Hread.
    unfold strconv.FormatUint in *.
    destruct (formatDigits_reads 20 i "" ltac:(lia)) as (x & ds & Hx & Hfmt & _).
    { split; [lia |]. eapply Z.lt_le_trans; [apply Hi |]. vm_compute. discriminate. }
    rewrite Hfmt in *. rewrite append_cons in *. unfold readInt.
    destruct (strconv.digit x) as [b0 b1 b2 b3 b4 b5 b6 b7] eqn:Hdx.
    pose proof (digit_not_minus x Hx) as Hne. rewrite Hdx in Hne.
    destruct b0, b1, b2, b3, b4, b5, b6, b7; try exact Hread.
    exfalso. apply Hne. reflexivity.
Qed.

End printing.

(** ** The shortest digits of a floating-point number *)
Section shortest_digits.

#[local] Open Scope string_scope.
#[local] Open Scope Z_scope.

Lemma scale_den_pos a p r : 0 < snd (strconv.scale a p r).
Proof.
  unfold strconv.scale. cbn [snd].
  apply Z.mul_pos_pos; apply Z.pow_pos_nonneg; lia.
Qed.

Lemma inject_Z_nonzero (b : Z) : b <> 0 -> ~ (inject_Z b == 0)%Q.
Proof. intros Hb Heq. unfold Qeq in Heq. cbn in Heq. lia. Qed.

Lemma Qpower_split (b : Z) (p : Z) :
  0 < b ->
  (inject_Z (b ^ Z.max p 0) / inject_Z (b ^ Z.max (- p) 0) == inject_Z b ^ p)%Q.
Proof.
  intros Hb.
  assert (Hnz : ~ (inject_Z b == 0)%Q) by (apply inject_Z_nonzero; lia).
  rewrite !Zpower_Qpower by lia.
  destruct (Z.le_ge_cases 0 p) as [Hp | Hp].
  - rewrite Z.max_l, Z.max_r by lia. cbn [Qpower]. field.
  - rewrite Z.max_r, Z.max_l by lia. cbn [Qpower].
    rewrite <- (Z.opp_involutive p) at 2. rewrite (Qpower_opp _ (- p)). field.
    apply Qpower_not_0. exact Hnz.
Qed.

Lemma toQ_scale a p r :
  (toQ (strconv.scale a p r) == inject_Z a * 2 ^ p * 10 ^ r)%Q.
Proof.
  unfold toQ. rewrite Qmake_Qdiv.
  rewrite Z2Pos.id by apply scale_den_pos.
  unfold strconv.scale. cbn [fst snd].
  rewrite !inject_Z_mult.
  rewrite <- (Qpower_split 2 p), <- (Qpower_split 10 r) by lia.
  assert (H2 : ~ (inject_Z (2 ^ Z.max (- p) 0) == 0)%Q).
  { apply inject_Z_nonzero. pose proof (Z.pow_pos_nonneg 2 (Z.max (- p) 0)). lia. }
  assert (H10 : ~ (inject_Z (10 ^ Z.max (- r) 0) == 0)%Q).
  { apply inject_Z_nonzero. pose proof (Z.pow_pos_nonneg 10 (Z.max (- r) 0)). lia. }
  field. split; assumption.
Qed.

Lemma cmp_toQ x y :
  0 < snd x -> 0 < snd y -> strconv.cmp x y = (toQ x ?= toQ y)%Q.
Proof.
  intros Hx Hy. unfold strconv.cmp, toQ, Qcompare. cbn [Qnum Qden].
  rewrite !Z2Pos.id by assumption. reflexivity.
Qed.

Lemma ltb_toQ x y :
  0 < snd x -> 0 < snd y -> strconv.ltb x y = true <-> (toQ x < toQ y)%Q.
Proof.
  intros Hx Hy. unfold strconv.ltb. rewrite (cmp_toQ _ _ Hx Hy), Qlt_alt.
  destruct (toQ x ?= toQ y)%Q; split; congruence.
Qed.

Lemma leb_toQ x y :
  0 < snd x -> 0 < snd y -> strconv.leb x y = true <-> (toQ x <= toQ y)%Q.
Proof.
  intros Hx Hy. unfold strconv.leb. rewrite (cmp_toQ _ _ Hx Hy), Qle_alt.
  destruct (toQ x ?= toQ y)%Q; split; congruence.
Qed.

Lemma pow10_scale k : (toQ (strconv.scale 1 0 k) == 10 ^ k)%Q.
Proof. rewrite toQ_scale. cbn [Qpower]. ring. Qed.

Lemma pointFrom_up (x : Z * Z) (fuel : nat) : forall k,
  0 < snd x ->
  (10 ^ (k - 1) <= toQ x)%Q -> (toQ x < 10 ^ (k + Z.of_nat fuel))%Q ->
  (10 ^ (strconv.pointFrom fuel x k - 1) <= toQ x
   /\ toQ x < 10 ^ strconv.pointFrom fuel x k)%Q.
Proof.
  induction fuel as [| fuel IH]; intros k Hx Hlo Hhi.
  - cbn [strconv.pointFrom]. rewrite Z.add_0_r in Hhi. split; assumption.
  - cbn [strconv.pointFrom].
    destruct (strconv.leb (strconv.scale 1 0 k) x) eqn:Hle.
    + apply leb_toQ in Hle; [| apply scale_den_pos | exact Hx]. rewrite pow10_scale in Hle.
      apply IH; [exact Hx | |].
      * replace (k + 1 - 1) with k by lia. exact Hle.
      * replace (k + 1 + Z.of_nat fuel) with (k + Z.of_nat (S fuel)) by lia. exact Hhi.
    + assert (Hlt : (toQ x < 10 ^ k)%Q).
      { apply Qnot_le_lt. intros Hge. rewrite <- pow10_scale in Hge.
        apply leb_toQ in Hge; [congruence | apply scale_den_pos | exact Hx]. }
      destruct (strconv.ltb x (strconv.scale 1 0 (k - 1))) eqn:Hlt2.
      * apply ltb_toQ in Hlt2; [| exact Hx | apply scale_den_pos].
        rewrite pow10_scale in Hlt2. exfalso. apply (Qlt_not_le _ _ Hlt2). exact Hlo.
      * split; assumption.
Qed.

Lemma pointFrom_down (x : Z * Z) (fuel : nat) : forall k,
  0 < snd x ->
  (10 ^ (k - 1 - Z.of_nat fuel) <= toQ x)%Q -> (toQ x < 10 ^ k)%Q ->
  (10 ^ (strconv.pointFrom fuel x k - 1) <= toQ x
   /\ toQ x < 10 ^ strconv.pointFrom fuel x k)%Q.
Proof.
  induction fuel as [| fuel IH]; intros k Hx Hlo Hhi.
  - cbn [strconv.pointFrom]. rewrite Z.sub_0_r in Hlo. split; assumption.
  - cbn [strconv.pointFrom].
    destruct (strconv.leb (strconv.scale 1 0 k) x) eqn:Hle.
    + apply leb_toQ in Hle; [| apply scale_den_pos | exact Hx]. rewrite pow10_scale in Hle.
      exfalso. apply (Qlt_not_le _ _ Hhi). exact Hle.
    + destruct (strconv.ltb x (strconv.scale 1 0 (k - 1))) eqn:Hlt2.
      * apply ltb_toQ in Hlt2; [| exact Hx | apply scale_den_pos].
        rewrite pow10_scale in Hlt2.
        apply IH; [exact Hx | | exact Hlt2].
        replace (k - 1 - 1 - Z.of_nat fuel) with (k - 1 - Z.of_nat (S fuel)) by lia. exact Hlo.
      * split; [| exact Hhi].
        apply Qnot_lt_le. intros Hlt. rewrite <- pow10_scale in Hlt.
        apply ltb_toQ in Hlt; [congruence | exact Hx | apply scale_den_pos].
Qed.

(** The position of the decimal point of a number between [10^-401] and
    [10^400]. *)
Lemma pointFrom_spec (x : Z * Z) :
  0 < snd x ->
  (10 ^ (-401) <= toQ x)%Q -> (toQ x < 10 ^ 400)%Q ->
  (10 ^ (strconv.pointFrom 400 x 0 - 1) <= toQ x
   /\ toQ x < 10 ^ strconv.pointFrom 400 x 0)%Q.
Proof.
  intros Hx Hlo Hhi.
  destruct (Qlt_le_dec (toQ x) 1) as [Hlt | Hge].
  - apply pointFrom_down; [exact Hx | exact Hlo | exact Hlt].
  - apply pointFrom_up; [exact Hx | | exact Hhi].
    apply Qle_trans with (2 := Hge). change (0 - 1) with (-1). cbn. discriminate.
Qed.

(** The quotient of [x] by [10^k], rounded down. *)
Lemma floor_spec (x : Z * Z) (k : Z) :
  0 < snd x -> 0 <= fst x ->
  let unit := strconv.scale 1 0 k in
  let t := (fst x * snd unit) / (snd x * fst unit) in
  (inject_Z t * 10 ^ k <= toQ x /\ toQ x < (inject_Z t + 1) * 10 ^ k)%Q /\ 0 <= t.
Proof.
  intros Hx Hx0 unit t.
  assert (Hu : 0 < snd unit) by apply scale_den_pos.
  assert (Hfu : 0 < fst unit).
  { unfold unit, strconv.scale. cbn [fst].
    pose proof (Z.pow_pos_nonneg 2 (Z.max 0 0)). pose proof (Z.pow_pos_nonneg 10 (Z.max k 0)).
    nia. }
  assert (HD : 0 < snd x * fst unit) by (apply Z.mul_pos_pos; assumption).
  pose proof (Z.mul_div_le (fst x * snd unit) _ HD) as Hlo.
  pose proof (Z.mul_succ_div_gt (fst x * snd unit) _ HD) as Hhi.
  fold t in Hlo, Hhi.
  assert (Ht : 0 <= t) by (apply Z.div_pos; [apply Z.mul_nonneg_nonneg; lia | exact HD]).
  rewrite <- (pow10_scale k). fold unit. split; [| exact Ht].
  unfold toQ, Qle, Qlt. cbn [Qnum Qden Qmult Qplus inject_Z].
  rewrite ?Pos.mul_1_l, ?Z.mul_1_r. rewrite !Z2Pos.id by assumption.
  split; nia.
Qed.

Lemma pow10_pos k : (0 < 10 ^ k)%Q.
Proof. apply Qpower_0_lt. reflexivity. Qed.

Lemma pow10_add a b : (10 ^ (a + b) == 10 ^ a * 10 ^ b)%Q.
Proof. apply Qpower_plus. discriminate. Qed.

Lemma pow10_inject a : 0 <= a -> (inject_Z (10 ^ a) == 10 ^ a)%Q.
Proof. intros Ha. rewrite Zpower_Qpower by exact Ha. reflexivity. Qed.

Lemma pow10_le a b : a <= b -> (10 ^ a <= 10 ^ b)%Q.
Proof. intros Hab. apply Qpower_le_compat_l; [exact Hab | discriminate]. Qed.

Lemma inject_Z_le a b : a <= b -> (inject_Z a <= inject_Z b)%Q.
Proof. intros Hab. rewrite <- Zle_Qle. exact Hab. Qed.

Lemma inject_Z_lt a b : a < b -> (inject_Z a < inject_Z b)%Q.
Proof. intros Hab. rewrite <- Zlt_Qlt. exact Hab. Qed.

Lemma inject_Z_lt_inv a b : (inject_Z a < inject_Z b)%Q -> a < b.
Proof. intros Hab. rewrite Zlt_Qlt. exact Hab. Qed.

Lemma inject_Z_sub a b : (inject_Z (a - b) == inject_Z a - inject_Z b)%Q.
Proof. unfold Z.sub, Qminus. rewrite inject_Z_plus, inject_Z_opp. reflexivity. Qed.

Lemma inject_Z_succ t : (inject_Z t + 1 == inject_Z (t + 1))%Q.
Proof. rewrite inject_Z_plus. reflexivity. Qed.

Lemma inRange_eq Lo Up inclusive (c d : Q) :
  (c == d)%Q -> inRange Lo Up inclusive c -> inRange Lo Up inclusive d.
Proof. unfold inRange. intros Heq. destruct inclusive; rewrite Heq; tauto. Qed.

Section candidates.
Variables (X Lo Up : Q) (inclusive : bool) (dp : Z).
Hypothesis HLo : (Lo < X)%Q.
Hypothesis HUp : (X < Up)%Q.
Hypothesis Hdp : (10 ^ (dp - 1) <= X /\ X < 10 ^ dp)%Q.

#[local] Abbreviation inRange := (inRange Lo Up inclusive).

Lemma below_out (c d : Q) : (d <= X)%Q -> ~ inRange d -> (c <= d)%Q -> ~ inRange c.
Proof. unfold inRange. destruct inclusive; intros Hd Hout Hcd Hc; apply Hout; lra. Qed.

Lemma above_out (c d : Q) : (X < d)%Q -> ~ inRange d -> (d <= c)%Q -> ~ inRange c.
Proof. unfold inRange. destruct inclusive; intros Hd Hout Hcd Hc; apply Hout; lra. Qed.

(** When neither the value cut after [n] digits nor the next [n]-digit
    number is in range, no number of [n] digits or fewer is. *)
Lemma no_candidate (n t : Z) :
  1 <= n ->
  (inject_Z t * 10 ^ (dp - n) <= X /\ X < (inject_Z t + 1) * 10 ^ (dp - n))%Q ->
  ~ inRange (inject_Z t * 10 ^ (dp - n)) ->
  ~ inRange ((inject_Z t + 1) * 10 ^ (dp - n)) ->
  forall b j, 0 < b < 10 ^ n -> ~ inRange (inject_Z b * 10 ^ j).
Proof.
  intros Hn [Hdown Hup] Hod Hou b j [Hb0 Hb].
  pose proof (pow10_pos (dp - n)) as HU.
  destruct (Z.le_gt_cases (dp - n) j) as [Hj | Hj].
  - (* a multiple of the unit *)
    assert (Hc : (inject_Z b * 10 ^ j == inject_Z (b * 10 ^ (j - (dp - n))) * 10 ^ (dp - n))%Q).
    { rewrite inject_Z_mult, pow10_inject by lia.
      rewrite <- Qmult_assoc, <- pow10_add.
      replace (j - (dp - n) + (dp - n)) with j by lia. reflexivity. }
    intros Hin. apply (inRange_eq _ _ _ _ _ Hc) in Hin. revert Hin.
    set (B := b * 10 ^ (j - (dp - n))).
    destruct (Z.le_gt_cases B t) as [HB | HB].
    + apply (below_out _ _ Hdown Hod).
      apply Qmult_le_compat_r; [apply inject_Z_le; exact HB | apply Qlt_le_weak; exact HU].
    + apply (above_out _ _ Hup Hou).
      apply Qmult_le_compat_r; [| apply Qlt_le_weak; exact HU].
      rewrite inject_Z_succ. apply inject_Z_le. lia.
  - (* below the first digit *)
    apply (below_out _ _ Hdown Hod).
    destruct Hdp as [Hdp1 _].
    assert (Hc : (inject_Z b * 10 ^ j <= 10 ^ (dp - 1))%Q).
    { apply Qle_trans with (10 ^ n * 10 ^ j)%Q.
      - apply Qmult_le_compat_r; [| apply Qlt_le_weak, pow10_pos].
        rewrite <- pow10_inject by lia. apply inject_Z_le. lia.
      - rewrite <- pow10_add. apply pow10_le. lia. }
    apply Qle_trans with (1 := Hc).
    assert (Ht : 10 ^ (n - 1) <= t).
    { assert (Hlt : (inject_Z (10 ^ (n - 1)) * 10 ^ (dp - n) < (inject_Z t + 1) * 10 ^ (dp - n))%Q).
      { apply Qle_lt_trans with (2 := Hup). apply Qle_trans with (2 := Hdp1).
        rewrite pow10_inject by lia. rewrite <- pow10_add.
        replace (n - 1 + (dp - n)) with (dp - 1) by lia. apply Qle_refl. }
      apply Qmult_lt_r in Hlt; [| exact HU].
      rewrite inject_Z_succ in Hlt. apply inject_Z_lt_inv in Hlt. lia. }
    apply Qle_trans with (inject_Z (10 ^ (n - 1)) * 10 ^ (dp - n))%Q.
    + rewrite pow10_inject by lia. rewrite <- pow10_add.
      replace (n - 1 + (dp - n)) with (dp - 1) by lia. apply Qle_refl.
    + apply Qmult_le_compat_r; [apply inject_Z_le; exact Ht | apply Qlt_le_weak; exact HU].
Qed.

(** With seventeen digits a candidate is in range when the range is wider
    than [X * 10^-16]. *)
Lemma candidate_at_17 (n t : Z) :
  17 <= n ->
  (X < (Up - Lo) * 10 ^ 16)%Q ->
  (inject_Z t * 10 ^ (dp - n) <= X /\ X < (inject_Z t + 1) * 10 ^ (dp - n))%Q ->
  inRange (inject_Z t * 10 ^ (dp - n)) \/ inRange ((inject_Z t + 1) * 10 ^ (dp - n)).
Proof.
  intros Hn Hwide [Hdown Hup].
  assert (HU : (10 ^ (dp - n) * 10 ^ 16 <= X)%Q).
  { destruct Hdp as [Hdp1 _]. apply Qle_trans with (2 := Hdp1).
    rewrite <- pow10_add. apply pow10_le. lia. }
  set (U := (10 ^ (dp - n))%Q) in *. set (T := inject_Z t) in *.
  assert (H16 : (10 ^ 16 == 10000000000000000)%Q) by reflexivity.
  rewrite H16 in *.
  unfold inRange. destruct inclusive.
  - destruct (Qlt_le_dec (T * U) Lo) as [Hlt | Hge]; [| left; lra].
    destruct (Qlt_le_dec Up ((T + 1) * U)) as [Hlt' | Hge']; [| right; lra].
    exfalso. lra.
  - destruct (Qlt_le_dec Lo (T * U)) as [Hlt | Hge]; [left; lra |].
    destruct (Qlt_le_dec ((T + 1) * U) Up) as [Hlt' | Hge']; [right; lra |].
    exfalso. lra.
Qed.

End candidates.

Lemma toQ_candidate t k : (toQ (strconv.scale t 0 k) == inject_Z t * 10 ^ k)%Q.
Proof. rewrite toQ_scale. cbn [Qpower]. ring. Qed.

Lemma inRange_model (lower upper : Z * Z) (inclusive : bool) (t k : Z) :
  0 < snd lower -> 0 < snd upper ->
  let c := strconv.scale t 0 k in
  (if inclusive then strconv.leb lower c && strconv.leb c upper
   else strconv.ltb lower c && strconv.ltb c upper) = true
  <-> inRange (toQ lower) (toQ upper) inclusive (inject_Z t * 10 ^ k).
Proof.
  intros Hl Hu c. pose proof (scale_den_pos t 0 k) as Hc. fold c in Hc.
  unfold inRange. destruct inclusive; rewrite andb_true_iff.
  - rewrite !leb_toQ by assumption. unfold c. rewrite (toQ_candidate t k). reflexivity.
  - rewrite !ltb_toQ by assumption. unfold c. rewrite (toQ_candidate t k). reflexivity.
Qed.

Lemma floor_bounds (X : Q) (dp n t : Z) :
  1 <= n ->
  (10 ^ (dp - 1) <= X /\ X < 10 ^ dp)%Q ->
  (inject_Z t * 10 ^ (dp - n) <= X /\ X < (inject_Z t + 1) * 10 ^ (dp - n))%Q ->
  10 ^ (n - 1) <= t < 10 ^ n.
Proof.
  intros Hn [Hdp1 Hdp2] [Hdown Hup]. pose proof (pow10_pos (dp - n)) as HU. split.
  - assert (Hlt : (inject_Z (10 ^ (n - 1)) * 10 ^ (dp - n) < (inject_Z t + 1) * 10 ^ (dp - n))%Q).
    { apply Qle_lt_trans with (2 := Hup). apply Qle_trans with (2 := Hdp1).
      rewrite pow10_inject by lia. rewrite <- pow10_add.
      replace (n - 1 + (dp - n)) with (dp - 1) by lia. apply Qle_refl. }
    apply Qmult_lt_r in Hlt; [| exact HU].
    rewrite inject_Z_succ in Hlt. apply inject_Z_lt_inv in Hlt. lia.
  - assert (Hlt : (inject_Z t * 10 ^ (dp - n) < inject_Z (10 ^ n) * 10 ^ (dp - n))%Q).
    { apply Qle_lt_trans with (1 := Hdown). apply Qlt_le_trans with (1 := Hdp2).
      rewrite pow10_inject by lia. rewrite <- pow10_add.
      replace (n + (dp - n)) with dp by lia. apply Qle_refl. }
    apply Qmult_lt_r in Hlt; [| exact HU]. apply inject_Z_lt_inv in Hlt. exact Hlt.
Qed.

Section loop.
Variables (x lower upper : Z * Z) (inclusive : bool) (dp : Z).
Hypothesis Hx : 0 < snd x.
Hypothesis Hx0 : 0 <= fst x.
Hypothesis Hl : 0 < snd lower.
Hypothesis Hu : 0 < snd upper.
Hypothesis HLo : (toQ lower < toQ x)%Q.
Hypothesis HUp : (toQ x < toQ upper)%Q.
Hypothesis Hdp : (10 ^ (dp - 1) <= toQ x /\ toQ x < 10 ^ dp)%Q.
Hypothesis Hwide : (toQ x < (toQ upper - toQ lower) * 10 ^ 16)%Q.

Let inR := inRange (toQ lower) (toQ upper) inclusive.

Lemma shortestFrom_spec (fuel : nat) : forall n,
  1 <= n <= 17 -> 18 <= n + Z.of_nat fuel ->
  (forall b j, 0 < b < 10 ^ (n - 1) -> ~ inR (inject_Z b * 10 ^ j)) ->
  exists T n',
    strconv.shortestFrom fuel x lower upper inclusive dp n = strconv.digitsOf T (dp - n')
    /\ inR (inject_Z T * 10 ^ (dp - n'))
    /\ 0 < T <= 10 ^ n' /\ 1 <= n' <= 17
    /\ (forall b j, 0 < b < 10 ^ (n' - 1) -> ~ inR (inject_Z b * 10 ^ j)).
Proof.
  induction fuel as [| fuel IH]; intros n Hn Hfuel Hmin; [lia |].
  cbn [strconv.shortestFrom].
  pose proof (floor_spec x (dp - n) Hx Hx0) as [Hfloor Ht0]. cbv zeta in Hfloor, Ht0.
  set (t := (fst x * snd (strconv.scale 1 0 (dp - n)))
            / (snd x * fst (strconv.scale 1 0 (dp - n)))) in *.
  pose proof (floor_bounds _ _ _ _ (proj1 Hn) Hdp Hfloor) as Ht.
  assert (Hpos : 0 < 10 ^ (n - 1)) by (apply Z.pow_pos_nonneg; lia).
  pose proof (inRange_model lower upper inclusive t (dp - n) Hl Hu) as Hdown.
  pose proof (inRange_model lower upper inclusive (t + 1) (dp - n) Hl Hu) as Hup.
  cbv zeta in Hdown, Hup. fold inR in Hdown, Hup.
  assert (Hup' : inR ((inject_Z t + 1) * 10 ^ (dp - n))
                 <-> inR (inject_Z (t + 1) * 10 ^ (dp - n))).
  { split; apply inRange_eq; rewrite inject_Z_succ; reflexivity. }
  destruct (if inclusive
            then strconv.leb lower (strconv.scale t 0 (dp - n))
                 && strconv.leb (strconv.scale t 0 (dp - n)) upper
            else strconv.ltb lower (strconv.scale t 0 (dp - n))
                 && strconv.ltb (strconv.scale t 0 (dp - n)) upper) eqn:Hd;
  destruct (if inclusive
            then strconv.leb lower (strconv.scale (t + 1) 0 (dp - n))
                 && strconv.leb (strconv.scale (t + 1) 0 (dp - n)) upper
            else strconv.ltb lower (strconv.scale (t + 1) 0 (dp - n))
                 && strconv.ltb (strconv.scale (t + 1) 0 (dp - n)) upper) eqn:Hu'.
  - (* both in range *)
    assert (Hdin : inR (inject_Z t * 10 ^ (dp - n))) by (apply Hdown; reflexivity).
    assert (Huin : inR (inject_Z (t + 1) * 10 ^ (dp - n))) by (apply Hup; reflexivity).
    match goal with |- context [match ?c with Eq => _ | Lt => _ | Gt => _ end] => destruct c end;
      [destruct (Z.even t) | |].
    + exists t, n. repeat split; try assumption; lia.
    + exists (t + 1), n. repeat split; try assumption; lia.
    + exists t, n. repeat split; try assumption; lia.
    + exists (t + 1), n. repeat split; try assumption; lia.
  - assert (Hdin : inR (inject_Z t * 10 ^ (dp - n))) by (apply Hdown; reflexivity).
    exists t, n. repeat split; try assumption; lia.
  - assert (Huin : inR (inject_Z (t + 1) * 10 ^ (dp - n))) by (apply Hup; reflexivity).
    exists (t + 1), n. repeat split; try assumption; lia.
  - assert (Hdout : ~ inR (inject_Z t * 10 ^ (dp - n))).
    { intros Hin. apply Hdown in Hin. congruence. }
    assert (Huout : ~ inR ((inject_Z t + 1) * 10 ^ (dp - n))).
    { intros Hin. apply Hup', Hup in Hin. congruence. }
    assert (Hn17 : n < 17).
    { destruct (Z.lt_ge_cases n 17) as [Hlt | Hge]; [exact Hlt |]. exfalso.
      destruct (candidate_at_17 (toQ x) (toQ lower) (toQ upper) inclusive dp HLo HUp Hdp
                  n t Hge Hwide Hfloor) as [Hin | Hin]; auto. }
    apply IH; [lia | lia |].
    replace (n + 1 - 1) with n by lia.
    apply (no_candidate (toQ x) (toQ lower) (toQ upper) inclusive dp HLo HUp Hdp
             n t (proj1 Hn) Hfloor Hdout Huout).
Qed.

End loop.

Lemma trimZeros_spec (fuel : nat) : forall t k,
  0 < t ->
  let '(t', k') := strconv.trimZeros fuel t k in
  0 < t' <= t
  /\ (inject_Z t' * 10 ^ k' == inject_Z t * 10 ^ k)%Q
  /\ ((0 < fuel)%nat -> t mod 10 = 0 -> t' < t).
Proof.
  induction fuel as [| fuel IH]; intros t k Ht.
  - cbn [strconv.trimZeros]. split; [lia |]. split; [reflexivity | lia].
  - cbn [strconv.trimZeros].
    destruct (Z.ltb_spec 0 t) as [_ | Hle]; [| lia]. cbn [andb].
    destruct (Z.eqb_spec (t mod 10) 0) as [Hmod | Hmod].
    + pose proof (Z.div_mod t 10 ltac:(lia)) as Hdm. rewrite Hmod, Z.add_0_r in Hdm.
      assert (Hdiv : 0 < t / 10) by lia.
      specialize (IH (t / 10) (k + 1) Hdiv).
      destruct (strconv.trimZeros fuel (t / 10) (k + 1)) as [t' k'].
      destruct IH as (Ht' & Hval & _). split; [lia |]. split; [| lia].
      rewrite Hval, pow10_add. rewrite Hdm at 2. rewrite inject_Z_mult.
      change (10 ^ 1)%Q with (inject_Z 10). ring.
    + split; [lia |]. split; [reflexivity |]. intros _ Hzero. contradiction.
Qed.

(** The digits [formatDigits] writes for [u > 0] are no more than [u]
    needs. *)
Lemma formatDigits_size (fuel : nat) : forall u acc,
  (0 < fuel)%nat -> 0 < u < 10 ^ Z.of_nat fuel ->
  exists ds,
    strconv.formatDigits fuel u acc = ds +:+ acc
    /\ 10 ^ (Z.of_nat (String.length ds) - 1) <= u.
Proof.
  induction fuel as [| fuel IH]; intros u acc Hfuel Hu; [lia |].
  cbn [strconv.formatDigits]. destruct (Z.leb_spec 10 u) as [Hge | Hlt].
  - assert (Hfuel' : (0 < fuel)%nat).
    { destruct fuel; [| lia]. cbn in Hu. lia. }
    assert (Hdiv : 0 < u / 10 < 10 ^ Z.of_nat fuel).
    { split; [apply Z.div_str_pos; lia |]. apply Z.div_lt_upper_bound; [lia |].
      replace (Z.of_nat (S fuel)) with (Z.succ (Z.of_nat fuel)) in Hu by lia.
      rewrite Z.pow_succ_r in Hu by lia. lia. }
    destruct (IH (u / 10) (String (strconv.digit (u - u / 10 * 10)) acc) Hfuel' Hdiv)
      as (ds & Hfmt & Hsize).
    exists (ds +:+ String (strconv.digit (u - u / 10 * 10)) "").
    split; [rewrite Hfmt, append_assoc; reflexivity |].
    rewrite length_append. cbn [String.length].
    replace (Z.of_nat (String.length ds + 1) - 1)
      with (Z.succ (Z.of_nat (String.length ds) - 1)) by lia.
    destruct ds as [| c ds].
    + cbn. lia.
    + rewrite Z.pow_succ_r by (cbn [String.length]; lia).
      pose proof (Z.mul_div_le u 10 ltac:(lia)). lia.
  - exists (String (strconv.digit u) ""). split; [reflexivity |]. cbn. lia.
Qed.

Lemma FormatUint_size u :
  0 < u < 2 ^ 64 -> 10 ^ (Z.of_nat (String.length (strconv.FormatUint u)) - 1) <= u.
Proof.
  intros Hu. unfold strconv.FormatUint.
  destruct (formatDigits_size 20 u "" ltac:(lia)) as (ds & Hfmt & Hsize).
  { split; [lia |]. eapply Z.lt_le_trans; [apply Hu |]. vm_compute. discriminate. }
  rewrite Hfmt, append_empty_r. exact Hsize.
Qed.

(** The digits of [T * 10^k]: they read as a number [a] with
    [a * 10^(dp - length)] the same number, and they are at most [n] when
    [T <= 10^n]. *)
Lemma digitsOf_spec (T k n : Z) :
  0 < T <= 10 ^ n -> 1 <= n <= 17 ->
  exists d dp a,
    strconv.digitsOf T k = (d, dp)
    /\ readUint d = Some a
    /\ (inject_Z a * 10 ^ (dp - Z.of_nat (String.length d)) == inject_Z T * 10 ^ k)%Q
    /\ Z.of_nat (String.length d) <= n.
Proof.
  intros HT Hn. unfold strconv.digitsOf.
  pose proof (trimZeros_spec 20 T k (proj1 HT)) as Htrim.
  destruct (strconv.trimZeros 20 T k) as [t' k']. destruct Htrim as (Ht' & Hval & Hless).
  assert (H17 : 10 ^ n <= 10 ^ 17) by (apply Z.pow_le_mono_r; lia).
  assert (Hbig : 10 ^ 17 < 2 ^ 64) by (vm_compute; reflexivity).
  exists (strconv.FormatUint t'), (k' + Z.of_nat (String.length (strconv.FormatUint t'))), t'.
  split; [reflexivity |]. split; [apply FormatUint_reads; lia |]. split.
  - replace (k' + Z.of_nat (String.length (strconv.FormatUint t'))
             - Z.of_nat (String.length (strconv.FormatUint t'))) with k' by lia.
    exact Hval.
  - pose proof (FormatUint_size t' ltac:(lia)) as Hsize.
    assert (Hlt : t' < 10 ^ n).
    { destruct (Z.eq_dec T (10 ^ n)) as [Heq | Hne]; [| lia].
      assert (T mod 10 = 0).
      { rewrite Heq. replace n with (Z.succ (n - 1)) by lia.
        rewrite Z.pow_succ_r by lia. rewrite Z.mul_comm. apply Z.mod_mul. lia. }
      specialize (Hless ltac:(lia) H). lia. }
    assert (Hpow : 10 ^ (Z.of_nat (String.length (strconv.FormatUint t')) - 1) < 10 ^ n) by lia.
    apply Z.pow_lt_mono_r_iff in Hpow; lia.
Qed.

Lemma inRange_bounds Lo Up Lo' Up' inclusive c :
  (Lo == Lo')%Q -> (Up == Up')%Q -> inRange Lo Up inclusive c -> inRange Lo' Up' inclusive c.
Proof. unfold inRange. intros HL HU. destruct inclusive; rewrite HL, HU; tauto. Qed.

Lemma pow2_pos k : (0 < 2 ^ k)%Q.
Proof. apply Qpower_0_lt. reflexivity. Qed.

Lemma pow2_quarter k : (2 ^ k == 4 * 2 ^ (k - 2))%Q.
Proof.
  replace k with (2 + (k - 2)) at 1 by lia. rewrite Qpower_plus by discriminate.
  reflexivity.
Qed.

Lemma pow2_le a b : a <= b -> (2 ^ a <= 2 ^ b)%Q.
Proof. intros Hab. apply Qpower_le_compat_l; [exact Hab | discriminate]. Qed.

Lemma pow2_inject a : 0 <= a -> (inject_Z (2 ^ a) == 2 ^ a)%Q.
Proof. intros Ha. rewrite Zpower_Qpower by exact Ha. reflexivity. Qed.

Lemma pow2_add a b : (2 ^ (a + b) == 2 ^ a * 2 ^ b)%Q.
Proof. apply Qpower_plus. discriminate. Qed.

(** The digits [shortest] gives a finite float other than zero read back
    as the float, and no decimal with fewer digits does. *)
Lemma shortest_round_trip (flt : strconv.floatInfo) (mant exp : Z) :
  0 <= strconv.mantbits flt <= 52 ->
  0 < mant < 2 ^ (strconv.mantbits flt + 1) ->
  -1022 <= exp <= 1023 ->
  exists d dp,
    strconv.shortest flt mant exp = (d, dp) /\ shortestDecimal flt mant exp d dp.
Proof.
  intros Hbits Hmant Hexp. unfold strconv.shortest.
  set (q := exp - strconv.mantbits flt - 2).
  set (x := strconv.scale (4 * mant) q 0).
  set (upper := strconv.scale (4 * mant + 2) q 0).
  set (boundary := (2 ^ strconv.mantbits flt <? mant) || (exp =? strconv.bias flt + 1)).
  set (lower := if boundary then strconv.scale (4 * mant - 2) q 0
                else strconv.scale (4 * mant - 1) q 0).
  pose proof (pow2_pos q) as Hq.
  assert (Hx : 0 < snd x) by apply scale_den_pos.
  assert (Hx0 : 0 <= fst x).
  { unfold x, strconv.scale. cbn [fst].
    pose proof (Z.pow_pos_nonneg 2 (Z.max q 0)). pose proof (Z.pow_pos_nonneg 10 (Z.max 0 0)).
    nia. }
  assert (Hl : 0 < snd lower) by (unfold lower; destruct boundary; apply scale_den_pos).
  assert (Hu : 0 < snd upper) by apply scale_den_pos.
  assert (HX : (toQ x == inject_Z (4 * mant) * 2 ^ q)%Q).
  { unfold x. rewrite toQ_scale. cbn [Qpower]. ring. }
  assert (HU : (toQ upper == inject_Z (4 * mant + 2) * 2 ^ q)%Q).
  { unfold upper. rewrite toQ_scale. cbn [Qpower]. ring. }
  assert (HL : (toQ lower == inject_Z (if boundary then 4 * mant - 2 else 4 * mant - 1) * 2 ^ q)%Q).
  { unfold lower. destruct boundary; rewrite toQ_scale; cbn [Qpower]; ring. }
  assert (HLo : (toQ lower < toQ x)%Q).
  { rewrite HL, HX. apply Qmult_lt_compat_r; [exact Hq |]. apply inject_Z_lt.
    destruct boundary; lia. }
  assert (HUp : (toQ x < toQ upper)%Q).
  { rewrite HX, HU. apply Qmult_lt_compat_r; [exact Hq |]. apply inject_Z_lt. lia. }
  assert (Hm53 : 2 ^ (strconv.mantbits flt + 1) <= 2 ^ 53) by (apply Z.pow_le_mono_r; lia).
  assert (H53 : 2 ^ 53 = 9007199254740992) by reflexivity.
  assert (Hwide : (toQ x < (toQ upper - toQ lower) * 10 ^ 16)%Q).
  { rewrite HX, HU, HL.
    assert (H16 : (10 ^ 16 == inject_Z (10 ^ 16))%Q) by reflexivity. rewrite H16.
    assert (Hdiff : (inject_Z (4 * mant) * 2 ^ q
                     < inject_Z ((4 * mant + 2 - (if boundary then 4 * mant - 2 else 4 * mant - 1))
                                 * 10 ^ 16) * 2 ^ q)%Q).
    { apply Qmult_lt_compat_r; [exact Hq |]. apply inject_Z_lt.
      assert (Hb : boundary = false -> mant <= 2 ^ strconv.mantbits flt).
      { unfold boundary. intros Hb. apply orb_false_elim in Hb as [Hb _].
        apply Z.ltb_ge in Hb. exact Hb. }
      assert (Hm52 : 2 ^ strconv.mantbits flt <= 2 ^ 52) by (apply Z.pow_le_mono_r; lia).
      assert (H52 : 2 ^ 52 = 4503599627370496) by reflexivity.
      assert (H1016 : 10 ^ 16 = 10000000000000000) by reflexivity.
      rewrite H1016. destruct boundary; [lia |]. specialize (Hb eq_refl). lia. }
    eapply Qlt_le_trans; [exact Hdiff |].
    rewrite inject_Z_mult, inject_Z_sub. apply Qle_lteq. right. ring. }
  assert (Hlow : (10 ^ (-401) <= toQ x)%Q).
  { rewrite HX. apply Qle_trans with (inject_Z 4 * 2 ^ (-1076))%Q.
    - vm_compute. discriminate.
    - apply Qle_trans with (inject_Z 4 * 2 ^ q)%Q.
      + apply Qmult_le_l; [reflexivity |]. apply pow2_le. unfold q. lia.
      + apply Qmult_le_compat_r; [apply inject_Z_le; lia | apply Qlt_le_weak; exact Hq]. }
  assert (Hhigh : (toQ x < 10 ^ 400)%Q).
  { rewrite HX. apply Qlt_le_trans with (inject_Z (2 ^ 55) * 2 ^ q)%Q.
    - apply Qmult_lt_compat_r; [exact Hq |]. apply inject_Z_lt.
      change (2 ^ 55) with (4 * 2 ^ 53). lia.
    - apply Qle_trans with (inject_Z (2 ^ 55) * 2 ^ 1021)%Q.
      + apply Qmult_le_l; [reflexivity |]. apply pow2_le. unfold q. lia.
      + vm_compute. discriminate. }
  pose proof (pointFrom_spec x Hx Hlow Hhigh) as Hdp.
  set (dp := strconv.pointFrom 400 x 0) in *.
  destruct (shortestFrom_spec x lower upper (Z.even mant) dp Hx Hx0 Hl Hu HLo HUp Hdp Hwide
              20 1 ltac:(lia) ltac:(lia)) as (T & n' & Hres & Hin & HT & Hn' & Hmin).
  { intros b j Hb. change (10 ^ (1 - 1)) with 1 in Hb. lia. }
  destruct (digitsOf_spec T (dp - n') n' HT Hn') as (d & dp' & a & Hdig & Hread & Hval & Hlen).
  exists d, dp'. rewrite Hres. split; [exact Hdig |]. exists a. split; [exact Hread |].
  assert (HLm : (toQ lower == lowerMidpoint flt mant exp)%Q).
  { rewrite HL. unfold lowerMidpoint. fold boundary.
    destruct boundary; rewrite (pow2_quarter (exp - strconv.mantbits flt)); fold q;
      rewrite inject_Z_sub, inject_Z_mult; field. }
  assert (HUm : (toQ upper == upperMidpoint flt mant exp)%Q).
  { rewrite HU. unfold upperMidpoint.
    rewrite (pow2_quarter (exp - strconv.mantbits flt)). fold q.
    rewrite inject_Z_plus, inject_Z_mult. field. }
  split.
  - unfold roundsTo. apply (inRange_bounds _ _ _ _ _ _ HLm HUm).
    apply (inRange_eq _ _ _ _ _ (Qeq_sym _ _ Hval)). exact Hin.
  - intros b j Hb Hr. apply (Hmin b j).
    + split; [lia |]. eapply Z.lt_le_trans; [apply Hb |]. apply Z.pow_le_mono_r; lia.
    + unfold roundsTo in Hr.
      apply (inRange_bounds _ _ _ _ _ _ (Qeq_sym _ _ HLm) (Qeq_sym _ _ HUm)). exact Hr.
Qed.

(** The mantissa and exponent of a finite float of either size. *)
Lemma decode_finite (flt : strconv.floatInfo) (bits : Z) neg mant exp :
  flt = strconv.float32info \/ flt = strconv.float64info ->
  0 <= bits ->
  strconv.decode flt bits = strconv.Finite neg mant exp ->
  0 <= strconv.mantbits flt <= 52
  /\ 0 <= mant < 2 ^ (strconv.mantbits flt + 1)
  /\ -1022 <= exp <= 1023.
Proof.
  intros [-> | ->] Hbits;
    unfold strconv.decode, strconv.float32info, strconv.float64info;
    cbn [strconv.mantbits strconv.expbits strconv.bias].
  - change (2 ^ 8 - 1) with (Z.ones 8). change (2 ^ 23 - 1) with (Z.ones 23).
    rewrite !Z.land_ones by lia.
    pose proof (Z.mod_pos_bound (Z.shiftr bits 23) (2 ^ 8) ltac:(lia)) as He.
    pose proof (Z.mod_pos_bound bits (2 ^ 23) ltac:(lia)) as Hm.
    change (2 ^ 8) with 256 in *. change (2 ^ 23) with 8388608 in *.
    change (Z.ones 8) with 255. change (2 ^ (23 + 1)) with 16777216.
    destruct (Z.eqb_spec (Z.shiftr bits 23 mod 256) 255) as [_ | Hne].
    { destruct (bits mod 8388608 =? 0); discriminate. }
    destruct (Z.eqb_spec (Z.shiftr bits 23 mod 256) 0) as [_ | Hnz];
      intros Hdec; injection Hdec as _ <- <-; lia.
  - change (2 ^ 11 - 1) with (Z.ones 11). change (2 ^ 52 - 1) with (Z.ones 52).
    rewrite !Z.land_ones by lia.
    pose proof (Z.mod_pos_bound (Z.shiftr bits 52) (2 ^ 11) ltac:(lia)) as He.
    pose proof (Z.mod_pos_bound bits (2 ^ 52) ltac:(lia)) as Hm.
    change (2 ^ 11) with 2048 in *. change (2 ^ 52) with 4503599627370496 in *.
    change (Z.ones 11) with 2047. change (2 ^ (52 + 1)) with 9007199254740992.
    destruct (Z.eqb_spec (Z.shiftr bits 52 mod 2048) 2047) as [_ | Hne].
    { destruct (bits mod 4503599627370496 =? 0); discriminate. }
    destruct (Z.eqb_spec (Z.shiftr bits 52 mod 2048) 0) as [_ | Hnz];
      intros Hdec; injection Hdec as _ <- <-; lia.
Qed.

(** [%g] of a floating-point number: the names of the numbers that are
    not finite, [0] for the zeros, under their sign, and for every other
    number the layout of its shortest decimal. *)
Lemma FormatFloat_g (flt : strconv.floatInfo) (bits : Z) :
  flt = strconv.float32info \/ flt = strconv.float64info ->
  0 <= bits ->
  match strconv.decode flt bits with
  | strconv.NaN => strconv.FormatFloat flt bits strconv.verb_g = "NaN"
  | strconv.Inf neg =>
      strconv.FormatFloat flt bits strconv.verb_g = if neg then "-Inf" else "+Inf"
  | strconv.Finite neg mant exp =>
      if mant =? 0
      then strconv.FormatFloat flt bits strconv.verb_g = if neg then "-0" else "0"
      else exists d dp,
             strconv.FormatFloat flt bits strconv.verb_g = strconv.fmtG neg d dp
             /\ shortestDecimal flt mant exp d dp
  end.
Proof.
  intros Hflt Hbits. unfold strconv.FormatFloat.
  destruct (strconv.decode flt bits) as [| neg | neg mant exp] eqn:Hdec; try reflexivity.
  destruct (Z.eqb_spec mant 0) as [-> | Hnz].
  - destruct neg; reflexivity.
  - destruct (decode_finite _ _ _ _ _ Hflt Hbits Hdec) as (Hmb & Hmant & Hexp).
    destruct (shortest_round_trip flt mant exp Hmb ltac:(lia) Hexp) as (d & dp & Hs & Hd).
    exists d, dp. rewrite Hs. split; [reflexivity | exact Hd].
Qed.

End shortest_digits.

(** ** The layout of the digits and its reading *)
Section decimal_layout.

#[local] Open Scope string_scope.
#[local] Open Scope Z_scope.

Lemma zeros_zeroes n : strconv.zeros n = zeroes (Z.to_nat n).
Proof.
  unfold strconv.zeros. induction (Z.to_nat n) as [| k IH]; [reflexivity |].
  cbn. rewrite IH. reflexivity.
Qed.

Lemma length_zeroes n : String.length (zeroes n) = n.
Proof. induction n as [| n IH]; [reflexivity |]. cbn. rewrite IH. reflexivity. Qed.

Lemma substring_all s : String.substring 0 (String.length s) s = s.
Proof. induction s as [| c s IH]; [reflexivity |]. cbn. rewrite IH. reflexivity. Qed.

Lemma substring_none n s : String.substring n 0 s = "".
Proof.
  revert n. induction s as [| c s IH]; intros [| n]; try reflexivity. cbn. apply IH.
Qed.

Lemma substring_split n s :
  (n <= String.length s)%nat ->
  String.substring 0 n s +:+ String.substring n (String.length s - n) s = s.
Proof.
  revert n. induction s as [| c s IH]; intros n Hn.
  - destruct n; [reflexivity | cbn in Hn; lia].
  - destruct n as [| n].
    + cbn [String.substring]. rewrite append_empty_l.
      change (String.length (String c s) - 0)%nat with (S (String.length s)).
      cbn [String.substring]. rewrite substring_all. reflexivity.
    + cbn [String.substring String.length Nat.sub]. rewrite append_cons.
      rewrite IH by (cbn in Hn; lia). reflexivity.
Qed.

Lemma length_substring_prefix n s :
  (n <= String.length s)%nat -> String.length (String.substring 0 n s) = n.
Proof.
  revert n. induction s as [| c s IH]; intros n Hn.
  - destruct n; [reflexivity | cbn in Hn; lia].
  - destruct n as [| n]; [reflexivity |]. cbn. rewrite IH by (cbn in Hn; lia). reflexivity.
Qed.

Lemma readDigits_app s1 s2 : forall acc v,
  readDigits s1 acc = Some v -> readDigits (s1 +:+ s2) acc = readDigits s2 v.
Proof.
  induction s1 as [| c s1 IH]; intros acc v Hv.
  - cbn in Hv. injection Hv as ->. rewrite append_empty_l. reflexivity.
  - rewrite append_cons. cbn [readDigits] in *.
    destruct (digitValue c); [| discriminate Hv]. apply IH. exact Hv.
Qed.

Lemma readDigits_prefix s1 s2 : forall acc v,
  readDigits (s1 +:+ s2) acc = Some v ->
  exists v1, readDigits s1 acc = Some v1 /\ readDigits s2 v1 = Some v.
Proof.
  induction s1 as [| c s1 IH]; intros acc v Hv.
  - rewrite append_empty_l in Hv. exists acc. split; [reflexivity | exact Hv].
  - rewrite append_cons in Hv. cbn [readDigits] in *.
    destruct (digitValue c); [| discriminate Hv]. apply IH. exact Hv.
Qed.

Lemma readDigits_shift s : forall acc0 v0 acc,
  readDigits s acc0 = Some v0 ->
  readDigits s acc = Some (v0 + (acc - acc0) * 10 ^ Z.of_nat (String.length s)).
Proof.
  induction s as [| c s IH]; intros acc0 v0 acc Hv.
  - cbn in *. injection Hv as <-. f_equal. lia.
  - cbn [readDigits] in *. destruct (digitValue c) as [x |]; [| discriminate Hv].
    rewrite (IH _ _ (10 * acc + x) Hv). f_equal.
    cbn [String.length]. rewrite Nat2Z.inj_succ, Z.pow_succ_r by lia. lia.
Qed.

Lemma readDigits_bound s : forall acc v,
  0 <= acc -> readDigits s acc = Some v ->
  acc * 10 ^ Z.of_nat (String.length s) <= v < (acc + 1) * 10 ^ Z.of_nat (String.length s).
Proof.
  induction s as [| c s IH]; intros acc v Hacc Hv.
  - cbn in *. injection Hv as <-. lia.
  - cbn [readDigits] in Hv. destruct (digitValue c) as [x |] eqn:Hx; [| discriminate Hv].
    assert (Hx9 : 0 <= x <= 9).
    { unfold digitValue in Hx. cbv zeta in Hx.
      destruct ((48 <=? Z.of_N (N_of_ascii c)) && (Z.of_N (N_of_ascii c) <=? 57)) eqn:Hb;
        [| discriminate Hx].
      injection Hx as <-. apply andb_prop in Hb as [H1 H2].
      apply Z.leb_le in H1, H2.
      revert H1 H2. generalize (Z.of_N (N_of_ascii c)). intros n H1 H2. lia. }
    assert (Hacc' : 0 <= 10 * acc + x) by lia.
    pose proof (IH _ _ Hacc' Hv) as Hb.
    cbn [String.length]. rewrite Nat2Z.inj_succ, Z.pow_succ_r by lia.
    pose proof (Z.pow_pos_nonneg 10 (Z.of_nat (String.length s)) ltac:(lia) ltac:(lia)).
    nia.
Qed.

Lemma readDigits_zeroes n acc : readDigits (zeroes n) acc = Some (acc * 10 ^ Z.of_nat n).
Proof.
  revert acc. induction n as [| n IH]; intros acc.
  - cbn. f_equal. lia.
  - cbn [zeroes readDigits]. change (digitValue "0"%char) with (Some 0). cbv iota beta.
    rewrite IH. f_equal.
    rewrite Nat2Z.inj_succ, Z.pow_succ_r by lia. lia.
Qed.

Lemma splitAt_digits c s rest : forall acc v,
  digitValue c = None ->
  readDigits s acc = Some v ->
  splitAt c (s +:+ rest) = (s +:+ (splitAt c rest).1, (splitAt c rest).2).
Proof.
  induction s as [| x s IH]; intros acc v Hc Hv.
  - rewrite !append_empty_l. destruct (splitAt c rest). reflexivity.
  - rewrite !append_cons. cbn [readDigits splitAt] in *.
    destruct (digitValue x) as [d |] eqn:Hx; [| discriminate Hv].
    rewrite bool_decide_eq_false_2 by (intros ->; congruence).
    rewrite (IH _ _ Hc Hv). reflexivity.
Qed.

Lemma splitAt_digits_only c s acc v :
  digitValue c = None -> readDigits s acc = Some v -> splitAt c s = (s, None).
Proof.
  intros Hc Hv. pose proof (splitAt_digits c s "" acc v Hc Hv) as Hs.
  rewrite !append_empty_r in Hs. exact Hs.
Qed.

Lemma stripSign_digit c r x :
  digitValue c = Some x -> stripSign (String c r) = (false, String c r).
Proof.
  intros Hx. destruct c as [[] [] [] [] [] [] [] []]; try reflexivity.
  vm_compute in Hx. discriminate Hx.
Qed.

Lemma stripSign_minus s : stripSign ("-" +:+ s) = (true, s).
Proof. rewrite append_cons, append_empty_l. reflexivity. Qed.

Lemma exponent_digits a :
  0 <= a < 1000 ->
  (if a <? 10 then "0" +:+ strconv.FormatUint a else strconv.FormatUint a)
  = (if 100 <=? a then String (strconv.digit (a / 100)) "" else "")
    +:+ String (strconv.digit (a / 10 mod 10)) (String (strconv.digit (a mod 10)) "").
Proof.
  intros Ha. unfold strconv.FormatUint.
  change 20%nat with (S (S (S 17))). cbn [strconv.formatDigits].
  rewrite (Z.mod_eq a 10) by lia. rewrite (Z.mul_comm 10 (a / 10)).
  destruct (Z.ltb_spec a 10) as [H10 | H10].
  - destruct (Z.leb_spec 10 a); [lia |]. destruct (Z.leb_spec 100 a); [lia |].
    rewrite append_empty_l, append_cons, append_empty_l.
    rewrite Z.div_small by lia. cbn [Z.mul Z.modulo Z.div_eucl Z.sub Z.opp Z.add].
    change (0 mod 10) with 0. rewrite Z.sub_0_r. reflexivity.
  - destruct (Z.leb_spec 10 a); [| lia].
    assert (Hdiv : 0 <= a / 10 < 100).
    { split; [apply Z.div_pos; lia | apply Z.div_lt_upper_bound; lia]. }
    destruct (Z.leb_spec 100 a) as [H100 | H100].
    + assert (10 <= a / 10) by (apply Z.div_le_lower_bound; lia).
      destruct (Z.leb_spec 10 (a / 10)); [| lia].
      assert (Hdd : a / 10 / 10 = a / 100) by (rewrite Z.div_div by lia; reflexivity).
      rewrite Hdd.
      assert (a / 100 < 10) by (apply Z.div_lt_upper_bound; lia).
      destruct (Z.leb_spec 10 (a / 100)); [lia |].
      rewrite append_cons, append_empty_l.
      rewrite (Z.mod_eq (a / 10) 10) by lia. rewrite Hdd, (Z.mul_comm 10). reflexivity.
    + assert (a / 10 < 10) by (apply Z.div_lt_upper_bound; lia).
      destruct (Z.leb_spec 10 (a / 10)); [lia |].
      rewrite append_empty_l. rewrite (Z.mod_small (a / 10)) by lia. reflexivity.
Qed.

Lemma exponentText_fmtE e :
  - 1000 < e < 1000 ->
  (if e <? 0 then "-" else "+")
  +:+ (if Z.abs e <? 10 then "0" +:+ strconv.FormatUint (Z.abs e)
       else strconv.FormatUint (Z.abs e))
  = exponentText e.
Proof.
  intros He. rewrite exponent_digits by lia. reflexivity.
Qed.

Lemma readExponent_exponentText e :
  - 1000 < e < 1000 -> readExponent (exponentText e) = Some e.
Proof.
  intros He. unfold exponentText. cbv zeta.
  fold (strconv.digit (Z.abs e / 100)) (strconv.digit (Z.abs e / 10 mod 10))
    (strconv.digit (Z.abs e mod 10)).
  assert (Ha : 0 <= Z.abs e < 1000) by lia.
  assert (H0 : 0 <= Z.abs e mod 10 <= 9) by (pose proof (Z.mod_pos_bound (Z.abs e) 10); lia).
  assert (H1 : 0 <= Z.abs e / 10 mod 10 <= 9)
    by (pose proof (Z.mod_pos_bound (Z.abs e / 10) 10); lia).
  assert (Hvalue : Z.abs e = 100 * (Z.abs e / 100) + 10 * (Z.abs e / 10 mod 10) + Z.abs e mod 10).
  { pose proof (Z.div_mod (Z.abs e) 10 ltac:(lia)).
    pose proof (Z.div_mod (Z.abs e / 10) 10 ltac:(lia)).
    rewrite Z.div_div in * by lia. change (10 * 10) with 100 in *. lia. }
  assert (Hread : readUint
                    ((if 100 <=? Z.abs e then String (strconv.digit (Z.abs e / 100)) "" else "")
                     +:+ String (strconv.digit (Z.abs e / 10 mod 10))
                           (String (strconv.digit (Z.abs e mod 10)) ""))
                  = Some (Z.abs e)).
  { destruct (Z.leb_spec 100 (Z.abs e)) as [H100 | H100].
    - assert (H2 : 0 <= Z.abs e / 100 <= 9).
      { split; [apply Z.div_pos; lia |].
        assert (Z.abs e / 100 < 10) by (apply Z.div_lt_upper_bound; lia). lia. }
      rewrite append_cons, append_empty_l. cbn [readUint readDigits].
      rewrite !digitValue_digit by assumption. f_equal. lia.
    - rewrite append_empty_l. cbn [readUint readDigits].
      rewrite !digitValue_digit by assumption. f_equal.
      rewrite (Z.div_small (Z.abs e) 100) in Hvalue by lia. lia. }
  destruct (Z.ltb_spec e 0) as [Hneg | Hpos].
  - rewrite append_cons, append_empty_l. cbn [readExponent].
    rewrite Hread. cbn. f_equal. lia.
  - rewrite append_cons, append_empty_l. cbn [readExponent].
    rewrite Hread. f_equal. lia.
Qed.

Lemma fmtE_scientific neg c rest dp :
  - 1000 < dp - 1 < 1000 ->
  strconv.fmtE neg (String c rest) dp (Z.of_nat (String.length (String c rest)) - 1)
  = (if neg then "-" else "") +:+ scientific (String c rest) dp.
Proof.
  intros Hdp. unfold strconv.fmtE, scientific. cbv zeta.
  set (nd := Z.of_nat (String.length (String c rest))).
  assert (Hnd : nd = Z.of_nat (String.length rest) + 1) by (unfold nd; cbn [String.length]; lia).
  destruct (Z.eqb_spec nd 0) as [H0 | _]; [lia |].
  rewrite (exponentText_fmtE (dp - 1) Hdp).
  f_equal. rewrite !append_cons, append_empty_l. f_equal.
  destruct rest as [| c' rest'].
  - cbn [String.length] in Hnd. replace (nd - 1) with 0 by lia. reflexivity.
  - destruct (Z.ltb_spec 0 (nd - 1)) as [_ | Hle]; [| cbn [String.length] in Hnd; lia].
    replace (nd - 1 + 1) with nd by lia. rewrite Z.min_id.
    replace (nd - Z.max 1 nd) with 0 by lia.
    replace (Z.to_nat (nd - 1)) with (String.length (String c' rest')) by lia.
    change (String.substring 1 (String.length (String c' rest')) (String c (String c' rest')))
      with (String.substring 0 (String.length (String c' rest')) (String c' rest')).
    rewrite substring_all, zeros_zeroes. change (zeroes (Z.to_nat 0)) with "".
    rewrite ?append_cons, ?append_empty_l, ?append_empty_r. reflexivity.
Qed.

Lemma fmtF_positional neg d dp :
  d <> "" ->
  strconv.fmtF neg d dp (Z.max (Z.of_nat (String.length d) - dp) 0)
  = (if neg then "-" else "") +:+ positional d dp.
Proof.
  intros Hd. unfold strconv.fmtF, positional. cbv zeta.
  set (nd := Z.of_nat (String.length d)).
  assert (Hnd : 0 < nd) by (unfold nd; destruct d; [contradiction | cbn [String.length]; lia]).
  f_equal. rewrite !zeros_zeroes.
  destruct (Z.leb_spec dp 0) as [Hneg | Hpos].
  - destruct (Z.ltb_spec 0 dp); [lia |].
    destruct (Z.ltb_spec 0 (Z.max (nd - dp) 0)); [| lia].
    replace (Z.min (Z.max (nd - dp) 0) (- dp)) with (- dp) by lia.
    replace (Z.max (nd - dp) 0 - Z.max (nd - dp) (- dp)) with 0 by lia.
    replace (Z.min (Z.max (nd - dp) 0) (nd - Z.max dp 0)) with nd by lia.
    replace (Z.to_nat dp) with 0%nat by lia.
    replace (Z.to_nat nd) with (String.length d) by lia.
    rewrite substring_all. change (zeroes (Z.to_nat 0)) with "".
    rewrite ?append_cons, ?append_empty_l, ?append_empty_r. reflexivity.
  - destruct (Z.ltb_spec 0 dp); [| lia].
    destruct (Z.ltb_spec dp nd) as [Hin | Hout].
    + destruct (Z.ltb_spec 0 (Z.max (nd - dp) 0)); [| lia].
      replace (Z.min nd dp) with dp by lia.
      replace (dp - dp) with 0 by lia.
      replace (Z.min (Z.max (nd - dp) 0) (- dp)) with (- dp) by lia.
      replace (Z.to_nat (- dp)) with 0%nat by lia.
      replace (Z.min (Z.max (nd - dp) 0) (nd - Z.max dp 0)) with (nd - dp) by lia.
      replace (Z.max (nd - dp) 0 - Z.max (nd - dp) (- dp)) with 0 by lia.
      change (zeroes (Z.to_nat 0)) with "". change (zeroes 0) with "".
      rewrite ?append_cons, ?append_empty_l, ?append_empty_r. reflexivity.
    + destruct (Z.ltb_spec 0 (Z.max (nd - dp) 0)); [lia |].
      replace (Z.min nd dp) with nd by lia.
      replace (Z.to_nat nd) with (String.length d) by lia.
      rewrite substring_all, append_empty_r. reflexivity.
Qed.

Lemma fmtG_decimalText neg d dp :
  d <> "" -> - 1000 < dp - 1 < 1000 ->
  strconv.fmtG neg d dp = (if neg then "-" else "") +:+ decimalText d dp.
Proof.
  intros Hd Hdp. unfold strconv.fmtG, decimalText. cbv zeta.
  destruct ((dp - 1 <? -4) || (6 <=? dp - 1)).
  - destruct d as [| c rest]; [contradiction |]. apply fmtE_scientific. exact Hdp.
  - apply fmtF_positional. exact Hd.
Qed.

Lemma readDecimal_parts s neg body significand exponent integer fraction :
  stripSign s = (neg, body) ->
  splitAt "e" body = (significand, exponent) ->
  splitAt "." significand = (integer, fraction) ->
  readDecimal s = decimalValue neg integer fraction exponent.
Proof. intros Hs He Hp. unfold readDecimal. rewrite Hs, He, Hp. reflexivity. Qed.

Lemma readUint_cons c s : readUint (String c s) = readDigits (String c s) 0.
Proof. reflexivity. Qed.

Lemma readUint_digits d a :
  readUint d = Some a -> d <> "" /\ readDigits d 0 = Some a.
Proof. destruct d; [discriminate |]. intros Ha. split; [discriminate | exact Ha]. Qed.

Lemma digit_not_e c x : digitValue c = Some x -> c <> "e"%char /\ c <> "."%char.
Proof. intros Hx. split; intros ->; vm_compute in Hx; discriminate Hx. Qed.

(** The text with the point inside or outside the digits. *)
Lemma positional_value neg d a dp :
  readUint d = Some a ->
  exists c rest x integer fraction q,
    positional d dp = String c rest
    /\ digitValue c = Some x
    /\ splitAt "e" (positional d dp) = (positional d dp, None)
    /\ splitAt "." (positional d dp) = (integer, fraction)
    /\ decimalValue neg integer fraction None = Some q
    /\ (q == (if neg then -1 else 1)
              * (inject_Z a * 10 ^ (dp - Z.of_nat (String.length d))))%Q.
Proof.
  intros Ha. destruct (readUint_digits _ _ Ha) as [Hne Hd].
  unfold positional. cbv zeta. set (nd := Z.of_nat (String.length d)).
  assert (Hnd : 0 < nd) by (unfold nd; destruct d; [contradiction | cbn [String.length]; lia]).
  destruct (Z.leb_spec dp 0) as [Hneg | Hpos]; [| destruct (Z.ltb_spec dp nd) as [Hin | Hout]].
  - (* 0.000ddd *)
    set (n := Z.to_nat (- dp)).
    assert (Hf : readDigits (zeroes n +:+ d) 0 = Some a).
    { rewrite (readDigits_app _ _ _ _ (readDigits_zeroes n 0)). exact Hd. }
    exists "0"%char, ("." +:+ zeroes n +:+ d), 0, "0", (Some (zeroes n +:+ d)).
    exists ((if neg then -1 else 1)
            * (inject_Z a * 10 ^ (0 - Z.of_nat (String.length (zeroes n +:+ d)))))%Q.
    split; [reflexivity |]. split; [reflexivity |]. split; [| split; [| split]].
    + change ("0." +:+ zeroes n +:+ d) with (String "0" (String "." (zeroes n +:+ d))).
      cbn [splitAt]. rewrite !bool_decide_eq_false_2 by discriminate.
      rewrite (splitAt_digits_only "e" _ 0 a eq_refl Hf). reflexivity.
    + change ("0." +:+ zeroes n +:+ d) with (String "0" (String "." (zeroes n +:+ d))).
      cbn [splitAt]. rewrite bool_decide_eq_false_2 by discriminate.
      rewrite bool_decide_eq_true_2 by reflexivity. reflexivity.
    + unfold decimalValue. change (readUint "0") with (Some 0).
      destruct (zeroes n +:+ d) as [| c0 f0] eqn:Hz.
      { exfalso. apply (f_equal String.length) in Hz. rewrite length_append in Hz.
        cbn [String.length] in Hz. lia. }
      rewrite Hf. reflexivity.
    + cbv beta. rewrite length_append, length_zeroes.
      replace (0 - Z.of_nat (n + String.length d)) with (dp - nd) by (unfold n, nd; lia).
      reflexivity.
  - (* dd.ddd *)
    set (k := Z.to_nat dp).
    assert (Hk : (k <= String.length d)%nat) by (unfold k, nd in *; lia).
    pose proof (substring_split k d Hk) as Hsplit.
    replace (Z.to_nat (nd - dp)) with (String.length d - k)%nat by (unfold k, nd; lia).
    set (P := String.substring 0 k d) in *.
    set (S := String.substring k (String.length d - k) d) in *.
    assert (HlenP : String.length P = k) by (apply length_substring_prefix; exact Hk).
    assert (HlenS : (String.length S = String.length d - k)%nat).
    { apply (f_equal String.length) in Hsplit. rewrite length_append in Hsplit. lia. }
    rewrite <- Hsplit in Hd. destruct (readDigits_prefix _ _ _ _ Hd) as (v1 & HP & HS).
    destruct P as [| c P'] eqn:HPeq; [cbn [String.length] in HlenP; unfold k in HlenP; lia |].
    assert (Hc : exists x, digitValue c = Some x).
    { cbn [readDigits] in HP. destruct (digitValue c) as [x |]; [eauto | discriminate HP]. }
    destruct Hc as [x Hc].
    exists c, (P' +:+ "." +:+ S), x, (String c P'), (Some S).
    exists ((if neg then -1 else 1) * (inject_Z a * 10 ^ (0 - Z.of_nat (String.length S))))%Q.
    split; [rewrite append_cons; reflexivity |]. split; [exact Hc |].
    split; [| split; [| split]].
    + rewrite (splitAt_digits "e" _ _ 0 v1 eq_refl HP).
      change ("." +:+ S) with (String "." S). cbn [splitAt].
      rewrite bool_decide_eq_false_2 by discriminate.
      rewrite (splitAt_digits_only "e" _ v1 a eq_refl HS). reflexivity.
    + rewrite (splitAt_digits "." _ _ 0 v1 eq_refl HP).
      change ("." +:+ S) with (String "." S). cbn [splitAt].
      rewrite bool_decide_eq_true_2 by reflexivity. cbn [fst snd].
      rewrite append_empty_r. reflexivity.
    + unfold decimalValue. rewrite readUint_cons, HP.
      destruct S as [| c0 S0] eqn:HSeq; [cbn [String.length] in HlenS; unfold k, nd in *; lia |].
      rewrite HS. reflexivity.
    + cbv beta. rewrite HlenS.
      replace (0 - Z.of_nat (String.length d - k)) with (dp - nd) by (unfold k, nd in *; lia).
      reflexivity.
  - (* ddd000 *)
    set (n := Z.to_nat (dp - nd)).
    assert (Hf : readDigits (d +:+ zeroes n) 0 = Some (a * 10 ^ Z.of_nat n)).
    { rewrite (readDigits_app _ _ _ _ Hd). apply readDigits_zeroes. }
    destruct d as [| c d'] eqn:Hdeq; [contradiction |].
    assert (Hc : exists x, digitValue c = Some x).
    { cbn [readDigits] in Hd. destruct (digitValue c) as [x |]; [eauto | discriminate Hd]. }
    destruct Hc as [x Hc].
    exists c, (d' +:+ zeroes n), x, (String c d' +:+ zeroes n), None.
    exists ((if neg then -1 else 1) * (inject_Z (a * 10 ^ Z.of_nat n) * 10 ^ (0 - 0)))%Q.
    split; [rewrite append_cons; reflexivity |]. split; [exact Hc |].
    split; [| split; [| split]].
    + apply (splitAt_digits_only "e" _ 0 _ eq_refl Hf).
    + apply (splitAt_digits_only "." _ 0 _ eq_refl Hf).
    + unfold decimalValue. rewrite append_cons, readUint_cons, <- append_cons, Hf. reflexivity.
    + rewrite inject_Z_mult, pow10_inject by lia.
      replace (Z.of_nat n) with (dp - nd) by (unfold n; lia).
      change (10 ^ (0 - 0))%Q with 1%Q. ring.
Qed.

Lemma scientific_value neg d a dp :
  readUint d = Some a ->
  - 1000 < dp - 1 < 1000 ->
  exists c rest x significand integer fraction q,
    scientific d dp = String c rest
    /\ digitValue c = Some x
    /\ splitAt "e" (scientific d dp) = (significand, Some (exponentText (dp - 1)))
    /\ splitAt "." significand = (integer, fraction)
    /\ decimalValue neg integer fraction (Some (exponentText (dp - 1))) = Some q
    /\ (q == (if neg then -1 else 1)
              * (inject_Z a * 10 ^ (dp - Z.of_nat (String.length d))))%Q.
Proof.
  intros Ha Hdp. destruct (readUint_digits _ _ Ha) as [Hne Hd].
  destruct d as [| c rest]; [contradiction |].
  assert (Hc : exists x, digitValue c = Some x /\ readDigits rest x = Some a).
  { cbn [readDigits] in Hd. destruct (digitValue c) as [x |]; [| discriminate Hd].
    exists x. split; [reflexivity |]. rewrite Z.mul_0_r, Z.add_0_l in Hd. exact Hd. }
  destruct Hc as (x & Hc & Hrest).
  destruct (digit_not_e _ _ Hc) as [Hce Hcp].
  unfold scientific. rewrite append_cons.
  pose proof (readExponent_exponentText (dp - 1) Hdp) as Hexp.
  destruct rest as [| c' rest'].
  - exists c, ("" +:+ "e" +:+ exponentText (dp - 1)), x, (String c ""), (String c ""), None.
    eexists. split; [reflexivity |]. split; [exact Hc |]. split; [| split; [| split]].
    + rewrite append_empty_l. change ("e" +:+ exponentText (dp - 1))
        with (String "e" (exponentText (dp - 1))).
      cbn [splitAt]. rewrite bool_decide_eq_false_2 by exact Hce.
      rewrite bool_decide_eq_true_2 by reflexivity. reflexivity.
    + cbn [splitAt]. rewrite bool_decide_eq_false_2 by exact Hcp. reflexivity.
    + unfold decimalValue. rewrite readUint_cons, Hd, Hexp. reflexivity.
    + cbv beta. cbn [String.length]. change (Z.of_nat 1) with 1.
      replace (dp - 1 - 0) with (dp - 1) by lia. reflexivity.
  - exists c, (("." +:+ String c' rest') +:+ "e" +:+ exponentText (dp - 1)), x,
      (String c (String "." (String c' rest'))), (String c ""), (Some (String c' rest')).
    eexists. split; [reflexivity |]. split; [exact Hc |]. split; [| split; [| split]].
    + change (("." +:+ String c' rest') +:+ "e" +:+ exponentText (dp - 1))
        with (String "." (String c' rest' +:+ String "e" (exponentText (dp - 1)))).
      cbn [splitAt]. rewrite bool_decide_eq_false_2 by exact Hce.
      rewrite bool_decide_eq_false_2 by discriminate.
      rewrite (splitAt_digits "e" _ _ x a eq_refl Hrest).
      cbn [splitAt]. rewrite bool_decide_eq_true_2 by reflexivity. cbn [fst snd].
      rewrite append_empty_r. reflexivity.
    + cbn [splitAt]. rewrite bool_decide_eq_false_2 by exact Hcp.
      rewrite bool_decide_eq_true_2 by reflexivity. reflexivity.
    + assert (Hi : readUint (String c "") = Some x).
      { cbn [readUint readDigits]. rewrite Hc. f_equal; lia. }
      unfold decimalValue. rewrite Hi. cbv beta iota. rewrite Hrest, Hexp. reflexivity.
    + cbv beta.
      replace (dp - 1 - Z.of_nat (String.length (String c' rest')))
        with (dp - Z.of_nat (String.length (String c (String c' rest'))))
        by (cbn [String.length]; lia).
      reflexivity.
Qed.

(** Reading the text gives the number of the digits back. *)
Lemma readDecimal_decimalText (neg : bool) d a dp :
  readUint d = Some a ->
  - 1000 < dp - 1 < 1000 ->
  exists q,
    readDecimal ((if neg then "-" else "") +:+ decimalText d dp) = Some q
    /\ (q == (if neg then -1 else 1)
              * (inject_Z a * 10 ^ (dp - Z.of_nat (String.length d))))%Q.
Proof.
  intros Ha Hdp.
  assert (Hparts : exists c rest x significand exponent integer fraction q,
            decimalText d dp = String c rest
            /\ digitValue c = Some x
            /\ splitAt "e" (decimalText d dp) = (significand, exponent)
            /\ splitAt "." significand = (integer, fraction)
            /\ decimalValue neg integer fraction exponent = Some q
            /\ (q == (if neg then -1 else 1)
                      * (inject_Z a * 10 ^ (dp - Z.of_nat (String.length d))))%Q).
  { unfold decimalText. destruct ((dp - 1 <? -4) || (6 <=? dp - 1)).
    - destruct (scientific_value neg d a dp Ha Hdp)
        as (c & rest & x & significand & integer & fraction & q & H1 & H2 & H3 & H4 & H5 & H6).
      exists c, rest, x, significand, (Some (exponentText (dp - 1))), integer, fraction, q.
      repeat split; assumption.
    - destruct (positional_value neg d a dp Ha)
        as (c & rest & x & integer & fraction & q & H1 & H2 & H3 & H4 & H5 & H6).
      exists c, rest, x, (positional d dp), None, integer, fraction, q.
      repeat split; assumption. }
  destruct Hparts
    as (c & rest & x & significand & exponent & integer & fraction & q
        & Htext & Hc & He & Hp & Hvalue & Hq).
  exists q. split; [| exact Hq].
  rewrite <- Hvalue. destruct neg.
  - apply (readDecimal_parts _ true (decimalText d dp) significand exponent integer fraction);
      [apply stripSign_minus | exact He | exact Hp].
  - rewrite append_empty_l.
    apply (readDecimal_parts _ false (decimalText d dp) significand exponent integer fraction);
      [rewrite Htext; apply (stripSign_digit _ _ _ Hc) | exact He | exact Hp].
Qed.

Lemma pow10_lt_inv a b : (10 ^ a < 10 ^ b)%Q -> a < b.
Proof.
  intros Hlt. destruct (Z.lt_ge_cases a b) as [Hab | Hba]; [exact Hab |].
  exfalso. apply (Qlt_not_le _ _ Hlt). apply pow10_le. lia.
Qed.

Lemma float_above : (10 ^ (-998) <= (1 # 2) * 2 ^ (-1074))%Q.
Proof. vm_compute. discriminate. Qed.

Lemma float_below : (inject_Z (2 ^ 53) * 2 ^ 1023 < 10 ^ 999)%Q.
Proof. vm_compute. reflexivity. Qed.

(** The shortest digits of a floating-point number are not empty, have a
    first digit other than zero, and their decimal point is within a few
    hundred places. *)
Lemma shortestDecimal_point (flt : strconv.floatInfo) (mant exp : Z) d dp :
  0 <= strconv.mantbits flt <= 52 ->
  0 < mant < 2 ^ (strconv.mantbits flt + 1) ->
  -1022 <= exp <= 1023 ->
  shortestDecimal flt mant exp d dp ->
  exists a,
    readUint d = Some a
    /\ roundsTo flt mant exp (inject_Z a * 10 ^ (dp - Z.of_nat (String.length d)))
    /\ 10 ^ (Z.of_nat (String.length d) - 1) <= a < 10 ^ Z.of_nat (String.length d)
    /\ - 1000 < dp - 1 < 1000.
Proof.
  intros Hmb Hmant Hexp (a & Ha & Hround & Hmin).
  exists a. split; [exact Ha |]. split; [exact Hround |].
  destruct (readUint_digits _ _ Ha) as [Hne Hd].
  set (nd := Z.of_nat (String.length d)) in *.
  assert (Hnd : 1 <= nd) by (unfold nd; destruct d; [contradiction | cbn [String.length]; lia]).
  pose proof (readDigits_bound d 0 a ltac:(lia) Hd) as Hbound. fold nd in Hbound.
  set (P := (2 ^ (exp - strconv.mantbits flt))%Q) in *.
  set (T := (10 ^ (dp - nd))%Q) in *.
  assert (HP : (0 < P)%Q) by apply pow2_pos.
  assert (HT : (0 < T)%Q) by apply pow10_pos.
  assert (Hm : (1 <= inject_Z mant)%Q) by (change 1%Q with (inject_Z 1); apply inject_Z_le; lia).
  assert (Hm53 : (inject_Z mant + (1 # 2) <= inject_Z (2 ^ 53))%Q).
  { assert (Hle : mant + 1 <= 2 ^ 53).
    { assert (2 ^ (strconv.mantbits flt + 1) <= 2 ^ 53) by (apply Z.pow_le_mono_r; lia). lia. }
    apply inject_Z_le in Hle. rewrite inject_Z_plus in Hle. change (inject_Z 1) with 1%Q in Hle.
    lra. }
  assert (Hrange : ((1 # 2) * P <= inject_Z a * T /\ inject_Z a * T <= inject_Z (2 ^ 53) * P)%Q).
  { unfold roundsTo, inRange, lowerMidpoint, upperMidpoint in Hround.
    fold P in Hround. fold T in Hround.
    destruct ((2 ^ strconv.mantbits flt <? mant) || (exp =? strconv.bias flt + 1));
      destruct (Z.even mant); destruct Hround as [Hlo Hup]; split; nra. }
  destruct Hrange as [Hlo Hup].
  assert (Ha0 : 0 < a).
  { destruct (Z.lt_ge_cases 0 a) as [Hpos | Hle]; [exact Hpos |].
    assert (a = 0) by lia. subst a. exfalso.
    assert (Hz : (inject_Z 0 * T == 0)%Q) by ring. rewrite Hz in Hlo. nra. }
  assert (Hfirst : 10 ^ (nd - 1) <= a).
  { destruct (Z.le_gt_cases (10 ^ (nd - 1)) a) as [Hge | Hlt]; [exact Hge |].
    exfalso. apply (Hmin a (dp - nd)); [lia | exact Hround]. }
  split; [lia |].
  assert (Hlow : (10 ^ (-998) < 10 ^ dp)%Q).
  { apply Qle_lt_trans with (inject_Z a * T)%Q.
    - apply Qle_trans with ((1 # 2) * P)%Q; [| exact Hlo].
      apply Qle_trans with ((1 # 2) * 2 ^ (-1074))%Q; [apply float_above |].
      apply Qmult_le_l; [reflexivity |]. apply pow2_le. lia.
    - apply Qlt_le_trans with (inject_Z (10 ^ nd) * T)%Q.
      + apply Qmult_lt_compat_r; [exact HT | apply inject_Z_lt; lia].
      + rewrite pow10_inject by lia. unfold T. rewrite <- pow10_add.
        replace (nd + (dp - nd)) with dp by lia. apply Qle_refl. }
  assert (Hhigh : (10 ^ (dp - 1) < 10 ^ 999)%Q).
  { apply Qle_lt_trans with (inject_Z a * T)%Q.
    - replace (dp - 1) with (nd - 1 + (dp - nd)) by lia.
      rewrite pow10_add. fold T. rewrite <- pow10_inject by lia.
      apply Qmult_le_compat_r; [apply inject_Z_le; exact Hfirst | apply Qlt_le_weak; exact HT].
    - apply Qle_lt_trans with (1 := Hup).
      apply Qle_lt_trans with (inject_Z (2 ^ 53) * 2 ^ 1023)%Q; [| apply float_below].
      apply Qmult_le_l; [reflexivity |]. apply pow2_le. lia. }
  apply pow10_lt_inv in Hlow, Hhigh. lia.
Qed.

End decimal_layout.

(** ** The primitive converter *)
Section primitive.
Context `{Libraries}.

#[local] Open Scope string_scope.
#[local] Open Scope Z_scope.

Lemma getStringConverter_primitive fd param :
  primitiveKind (GetType fd) = true -> getStringConverter fd param = inl primitiveConverter.
Proof.
  intros Hk. unfold getStringConverter.
  rewrite IsMap_not_message by (intros Ht; rewrite Ht in Hk; discriminate Hk).
  destruct (GetType fd); try discriminate Hk; reflexivity.
Qed.

Lemma printed_float (flt : strconv.floatInfo) (bits : Z) :
  flt = strconv.float32info \/ flt = strconv.float64info ->
  0 <= bits ->
  canonicalFloat flt bits (strconv.FormatFloat flt bits strconv.verb_g).
Proof.
  intros Hflt Hbits. pose proof (FormatFloat_g flt bits Hflt Hbits) as Hg.
  unfold canonicalFloat.
  destruct (strconv.decode flt bits) as [| neg | neg mant exp] eqn:Hdec; try exact Hg.
  destruct (Z.eqb_spec mant 0) as [Hz | Hnz]; [exact Hg |].
  destruct Hg as (d & dp & Hfmt & Hd).
  destruct (decode_finite _ _ _ _ _ Hflt Hbits Hdec) as (Hmb & Hmant & Hexp).
  destruct (shortestDecimal_point flt mant exp d dp Hmb ltac:(lia) Hexp Hd)
    as (a & Ha & Hround & _ & Hdp).
  destruct (readUint_digits _ _ Ha) as [Hne _].
  destruct (readDecimal_decimalText neg d a dp Ha Hdp) as (q & Hq & Hvalue).
  exists d, dp, q. split; [exact Hd |].
  rewrite Hfmt, (fmtG_decimalText neg d dp Hne Hdp).
  split; [reflexivity |]. split; [exact Hq |].
  unfold roundsTo in *. eapply inRange_eq; [| exact Hround].
  destruct neg; rewrite Hvalue; ring.
Qed.

(** C7: the converter of a field of a boolean, integer or floating-point
    kind prints the value with [%v].  A boolean is printed as [true] or
    [false]; a signed or unsigned integer as its decimal numeral, which
    has digits only, after a [-] for a negative number, reads back as the
    integer and does not start with a zero; a floating-point number as
    [NaN], [+Inf] or [-Inf] when it is not finite, as [0] or [-0] when it
    is a zero, and otherwise as the shortest digits that read back as the
    number, after a [-] for a negative number, with the point among the
    digits or zeros around them for exponents from -4 to 5 and in
    scientific notation for the others; read as a decimal, every such text
    is a number that rounds to the floating-point number.  So [true] is
    printed as [true], 1234 as [1234] and the double nearest to 3.34 as
    [3.34]. *)
Theorem primitiveConverter_canonical :
  (forall fd param,
     primitiveKind (GetType fd) = true -> getStringConverter fd param = inl primitiveConverter)
  /\ (forall b : bool, primitiveConverter (VBool b) = mret (if b then "true" else "false"))
  /\ (forall n, - 2 ^ 63 <= n < 2 ^ 63 ->
        exists s,
          primitiveConverter (VInt32 n) = mret s /\ primitiveConverter (VInt64 n) = mret s
          /\ readInt s = Some n
          /\ (0 < n -> 10 ^ (Z.of_nat (String.length s) - 1) <= n)
          /\ (n < 0 -> 10 ^ (Z.of_nat (String.length s) - 2) <= - n))
  /\ (forall n, 0 <= n < 2 ^ 64 ->
        exists s,
          primitiveConverter (VUint32 n) = mret s /\ primitiveConverter (VUint64 n) = mret s
          /\ readUint s = Some n
          /\ (0 < n -> 10 ^ (Z.of_nat (String.length s) - 1) <= n))
  /\ (forall bits, 0 <= bits ->
        exists s,
          primitiveConverter (VFloat64 bits) = mret s
          /\ canonicalFloat strconv.float64info bits s)
  /\ (forall bits, 0 <= bits ->
        exists s,
          primitiveConverter (VFloat32 bits) = mret s
          /\ canonicalFloat strconv.float32info bits s)
  /\ primitiveConverter (VBool true) = mret "true"
  /\ primitiveConverter (VInt32 1234) = mret "1234"
  /\ primitiveConverter (VInt64 4567) = mret "4567"
  /\ primitiveConverter (VInt32 0) = mret "0"
  /\ primitiveConverter (VFloat64 Fixture.double_3_34) = mret "3.34"
  /\ primitiveConverter (VFloat64 0xC00AB851EB851EB8) = mret "-3.34"
  /\ primitiveConverter (VFloat64 0x40F86A0000000000) = mret "100000"
  /\ primitiveConverter (VFloat64 0x412E848000000000) = mret "1e+06"
  /\ primitiveConverter (VFloat64 0x444B1AE4D6E2EF50) = mret "1e+21"
  /\ primitiveConverter (VFloat64 0x3F1A36E2EB1C432D) = mret "0.0001"
  /\ primitiveConverter (VFloat64 0x3EB0C6F7A0B5ED8D) = mret "1e-06"
  /\ primitiveConverter (VFloat64 0x7FEFFFFFFFFFFFFF) = mret "1.7976931348623157e+308"
  /\ primitiveConverter (VFloat64 1) = mret "5e-324"
  /\ primitiveConverter (VFloat32 0x3DCCCCCD) = mret "0.1".
Proof.
  split; [exact getStringConverter_primitive |].
  split; [intros []; reflexivity |].
  split; [| split; [| split; [| split]]].
  - intros n Hn. exists (strconv.FormatInt n).
    split; [reflexivity |]. split; [reflexivity |].
    split; [apply FormatInt_reads; exact Hn |].
    unfold strconv.FormatInt. destruct (Z.ltb_spec n 0) as [Hneg | Hpos].
    + split; [lia |]. intros _. rewrite append_cons, append_empty_l. cbn [String.length].
      replace (Z.of_nat (S (String.length (strconv.FormatUint (- n)))) - 2)
        with (Z.of_nat (String.length (strconv.FormatUint (- n))) - 1) by lia.
      apply FormatUint_size. lia.
    + split; [| lia]. intros H0. apply FormatUint_size. lia.
  - intros n Hn. exists (strconv.FormatUint n).
    split; [reflexivity |]. split; [reflexivity |].
    split; [apply FormatUint_reads; exact Hn |].
    intros H0. apply FormatUint_size. lia.
  - intros bits Hbits. eexists. split; [reflexivity |].
    apply (printed_float strconv.float64info bits (or_intror eq_refl) Hbits).
  - intros bits Hbits. eexists. split; [reflexivity |].
    apply (printed_float strconv.float32info bits (or_introl eq_refl) Hbits).
  - repeat split; vm_compute; reflexivity.
Qed.

End primitive.

Lemma primitiveConverter_canonical_witness :
  @getStringConverter Fixture.libraries (Fixture.scalar "doubleValue" 5 TYPE_DOUBLE) None
  = inl (@primitiveConverter Fixture.libraries)
  /\ (exists s,
        @primitiveConverter Fixture.libraries (VInt32 (-1234)) = mret s
        /\ @primitiveConverter Fixture.libraries (VInt64 (-1234)) = mret s
        /\ readInt s = Some (-1234)
        /\ (0 < -1234 -> 10 ^ (Z.of_nat (String.length s) - 1) <= -1234)
        /\ (-1234 < 0 -> 10 ^ (Z.of_nat (String.length s) - 2) <= - -1234))
  /\ (exists s,
        @primitiveConverter Fixture.libraries (VUint32 4294967295) = mret s
        /\ @primitiveConverter Fixture.libraries (VUint64 4294967295) = mret s
        /\ readUint s = Some 4294967295
        /\ (0 < 4294967295 -> 10 ^ (Z.of_nat (String.length s) - 1) <= 4294967295))
  /\ (exists s,
        @primitiveConverter Fixture.libraries (VFloat64 Fixture.double_3_34) = mret s
        /\ canonicalFloat strconv.float64info Fixture.double_3_34 s)
  /\ (exists s,
        @primitiveConverter Fixture.libraries (VFloat32 0x3DCCCCCD) = mret s
        /\ canonicalFloat strconv.float32info 0x3DCCCCCD s).
Proof.
  pose proof (@primitiveConverter_canonical Fixture.libraries)
    as (Hkind & _ & Hint & Huint & Hdouble & Hfloat & _).
  split; [| split; [| split; [| split]]].
  - apply Hkind. reflexivity.
  - apply Hint. lia.
  - apply Huint. lia.
  - apply Hdouble. unfold Fixture.double_3_34. lia.
  - apply Hfloat. lia.
Defined.

(** The bit pattern [double_3_34] is the double nearest to 3.34: it decodes
    to [mant * 2^(exp - 52)], and 3.34 lies between the midpoints to the two
    doubles next to it, [(2 * mant - 1) * 2^(exp - 53)] and
    [(2 * mant + 1) * 2^(exp - 53)].  No decimal of one or two digits
    does: the two nearest on either side are 3.3 and 3.4. *)
Example double_3_34_nearest :
  strconv.decode strconv.float64info Fixture.double_3_34
  = strconv.Finite false 7521011377708728 1
  /\ ((2 * 7521011377708728 - 1) * 100 < 334 * 2 ^ 52 < (2 * 7521011377708728 + 1) * 100)
  /\ (33 * 2 ^ 52 < (2 * 7521011377708728 - 1) * 10)
  /\ ((2 * 7521011377708728 + 1) * 10 < 34 * 2 ^ 52).
Proof. vm_compute. repeat split. Qed.

(** * Further properties of the adapter *)

Lemma bind_assoc {A B C} (m : Go A) (f : A -> Go B) (g : B -> Go C) :
  ((m ≫= f) ≫= g) = (m ≫= fun a => f a ≫= g).
Proof.
  unfold mbind, Go_bind, bind. destruct m as [l [a | p]]; [| reflexivity].
  destruct (f a) as [l1 [b | p]]; [| reflexivity].
  destruct (g b) as [l2 r]. rewrite app_assoc. reflexivity.
Qed.

(** ** What the converters do with every value *)
Section converters.
Context `{Libraries}.

#[local] Open Scope string_scope.
#[local] Open Scope Z_scope.

Lemma mapConverterLoop_returns mapValue convertedValue :
  exists l s, mapConverterLoop mapValue convertedValue = (l, Returns s).
Proof.
  revert convertedValue.
  induction mapValue as [| [key value] rest IH]; intros convertedValue.
  - cbn [mapConverterLoop]. destruct (json.Marshal _); eexists _, _; reflexivity.
  - cbn [mapConverterLoop]. destruct key; try (eexists _, _; reflexivity). apply IH.
Qed.

(** The enum converter on an ordinal that is not negative: the element
    of [param.Enum] at the ordinal when it is a string, the empty string
    when it is not, and the empty string with a logged error when the list
    ends before the ordinal.  It does not panic. *)
Theorem enumConverter_from_zero (param : spec_Parameter) (i : Z) :
  Z.of_nat (length (Enum param)) < 2 ^ 31 ->
  0 <= i ->
  enumConverter (Some param) (VInt32 i)
  = match Enum param !! Z.to_nat i with
    | Some (VString s) => mret s
    | Some _ => mret ""
    | None => ([LogEnumOutOfBounds i (Name param)], Returns "")
    end.
Proof.
  intros Hlen Hi. destruct (Enum param !! Z.to_nat i) as [v |] eqn:Hv.
  - destruct v;
      try (apply (enumConverter_not_string _ _ _ Hlen Hi Hv); intros s; discriminate).
    apply (enumConverter_in_range _ _ _ Hlen Hi Hv).
  - apply lookup_ge_None_1 in Hv. apply enumConverter_past_end; [exact Hlen | lia].
Qed.

(** The converters of map fields, of message fields and of the boolean
    and numeric kinds return a string for every value, whatever its dynamic
    type: a value they cannot convert is logged or printed, never a
    panic. *)
Theorem json_and_primitive_converters_return (value : Value) :
  ~ fails (mapConverter value)
  /\ ~ fails (messageConverter value)
  /\ ~ fails (primitiveConverter value).
Proof.
  unfold fails. repeat split.
  - intros [p Hp]. destruct value; try discriminate Hp.
    cbn [mapConverter] in Hp.
    match type of Hp with
    | context [mapConverterLoop ?m ∅] =>
        destruct (mapConverterLoop_returns m ∅) as (l & s & Hs)
    end.
    rewrite Hs in Hp. discriminate Hp.
  - intros [p Hp]. unfold messageConverter in Hp.
    destruct (json.Marshal value); discriminate Hp.
  - intros [p Hp]. discriminate Hp.
Qed.

(** The string converter panics on exactly the values that are not
    strings, and the enum converter on exactly the values that are not an
    ordinal from zero up; made with a nil parameter, the enum converter
    panics on every value. *)
Theorem string_and_enum_converters_panic (param : spec_Parameter) (value : Value) :
  Z.of_nat (length (Enum param)) < 2 ^ 31 ->
  (fails (stringConverter value) <-> isString value = false)
  /\ (fails (enumConverter (Some param) value) <-> ~ exists i, 0 <= i /\ value = VInt32 i)
  /\ fails (enumConverter None value).
Proof.
  intros Hlen. unfold fails. repeat split.
  - intros [p Hp]. destruct value; try reflexivity. discriminate Hp.
  - intros Hs. destruct value; try discriminate Hs; eexists; reflexivity.
  - intros [p Hp] (i & Hi & ->).
    rewrite (enumConverter_from_zero _ _ Hlen Hi) in Hp.
    destruct (Enum param !! Z.to_nat i) as [[] |]; discriminate Hp.
  - intros Hno. destruct value; try (eexists; reflexivity).
    destruct (Z.lt_ge_cases n 0) as [Hneg | Hpos].
    + unfold enumConverter. rewrite bind_ret, int32_small by lia.
      destruct (Z.leb_spec (Z.of_nat (length (Enum param))) n); [lia |].
      rewrite index_negative by lia. eexists. reflexivity.
    + exfalso. apply Hno. exists n. split; [exact Hpos | reflexivity].
  - destruct value; eexists; reflexivity.
Qed.

End converters.

Lemma enumConverter_from_zero_witness :
  enumConverter (Some Fixture.enumParam) (VInt32 1) = ([], Returns "second"%string)
  /\ enumConverter (Some Fixture.enumParam) (VInt32 2)
     = ([LogEnumOutOfBounds 2 "enumValue"], Returns ""%string).
Proof.
  split.
  - apply (enumConverter_from_zero Fixture.enumParam 1); [simpl; lia | lia].
  - apply (enumConverter_from_zero Fixture.enumParam 2); [simpl; lia | lia].
Defined.

Lemma string_and_enum_converters_panic_witness :
  fails (stringConverter (VInt32 7))
  /\ ~ fails (enumConverter (Some Fixture.enumParam) (VInt32 5)).
Proof.
  split.
  - apply (proj1 (string_and_enum_converters_panic Fixture.enumParam (VInt32 7) ltac:(simpl; lia))).
    reflexivity.
  - intros Hf.
    apply (proj1 (proj1 (proj2 (string_and_enum_converters_panic
                                  Fixture.enumParam (VInt32 5) ltac:(simpl; lia)))) Hf).
    exists 5. split; [lia | reflexivity].
Defined.

(** ** The writer of one parameter, from the message to the request *)
Section writers.
Context `{Libraries} {R : Type} `{ClientRequest R}.

#[local] Open Scope string_scope.

Lemma makeParamWriter_returns fd (toString : Value -> Go string)
    (placer : list string -> R -> Go (option error * R)) message request values strings :
  fieldValues message fd values ->
  Forall2 (fun v s => result (toString v) = Returns s) values strings ->
  makeParamWriter fd toString placer message request
  = ((concat (map (fun v => logged (toString v)) values) ++ logged (placer strings request))%list,
     result (placer strings request)).
Proof.
  intros Hvalues Hall. unfold makeParamWriter.
  rewrite (convertValues_fieldValues _ _ _ _ Hvalues), (convertEach_returns _ _ _ Hall).
  exact (bind_returns _ (fun stringValues => placer stringValues request) _ strings eq_refl).
Qed.

Lemma bindParameter_found input (param : spec_Parameter) fd converter
    (placer : list string -> R -> Go (option error * R)) :
  FindFieldByName input (replaceHyphens (Name param)) = Some fd ->
  getStringConverter fd (Some param) = inl converter ->
  getParamWriter param = inl placer ->
  bindParameter input param = inl (makeParamWriter fd converter placer).
Proof. intros Hfd Hc Hp. unfold bindParameter. rewrite Hfd, Hc, Hp. reflexivity. Qed.

Lemma convertEach_panics (toString : Value -> Go string) pre value post strings p :
  Forall2 (fun v s => result (toString v) = Returns s) pre strings ->
  result (toString value) = Panics p ->
  convertEach toString (pre ++ value :: post)
  = ((concat (map (fun v => logged (toString v)) pre) ++ logged (toString value))%list, Panics p).
Proof.
  intros Hpre Hvalue. induction Hpre as [| v s pre strings Hv _ IH].
  - cbn [app convertEach map concat].
    destruct (toString value) as [l r]. cbn in Hvalue. subst r. reflexivity.
  - cbn [app convertEach map concat].
    destruct (toString v) as [l r]. cbn in Hv. subst r.
    rewrite (bind_returns _ _ l s eq_refl), IH. cbn. rewrite app_assoc. reflexivity.
Qed.

(** The writer of a [query] or [header] parameter hands every converted
    value of the field to the request in one call of the setter, in the
    order of the field and under the name of the parameter as the swagger
    document spells it; a repeated field without elements gives a call with
    no values.  The writer logs what the conversions log and returns what
    the setter returns. *)
Theorem query_and_header_writers (input : MessageDescriptor) (param : spec_Parameter)
    (fd : FieldDescriptor) (converter : Value -> Go string) (message : Message) (request : R)
    (values : list Value) (strings : list string) :
  FindFieldByName input (replaceHyphens (Name param)) = Some fd ->
  getStringConverter fd (Some param) = inl converter ->
  fieldValues message fd values ->
  Forall2 (fun v s => result (converter v) = Returns s) values strings ->
  (In param = "query" ->
   exists writer,
     bindParameter input param = inl writer
     /\ writer message request
        = (concat (map (fun v => logged (converter v)) values),
           Returns (SetQueryParam (Name param) strings request)))
  /\ (In param = "header" ->
      exists writer,
        bindParameter input param = inl writer
        /\ writer message request
           = (concat (map (fun v => logged (converter v)) values),
              Returns (SetHeaderParam (Name param) strings request))).
Proof.
  intros Hfd Hc Hvalues Hall. split; intros Hin.
  - exists (makeParamWriter fd converter (queryWriter param)). split.
    + apply (bindParameter_found _ _ _ _ _ Hfd Hc).
      unfold getParamWriter. rewrite Hin. reflexivity.
    + rewrite (makeParamWriter_returns _ _ _ _ _ _ _ Hvalues Hall).
      cbn. rewrite app_nil_r. reflexivity.
  - exists (makeParamWriter fd converter (headerWriter param)). split.
    + apply (bindParameter_found _ _ _ _ _ Hfd Hc).
      unfold getParamWriter. rewrite Hin. reflexivity.
    + rewrite (makeParamWriter_returns _ _ _ _ _ _ _ Hvalues Hall).
      cbn. rewrite app_nil_r. reflexivity.
Qed.

(** A field that is not repeated, and a map field, give the writer of a
    [path] or [body] parameter exactly one value: when the converter
    returns for the value of the field, the writer places the string, does
    not log the warning of several values and does not panic. *)
Theorem path_and_body_writers_of_single_field (input : MessageDescriptor)
    (param : spec_Parameter) (fd : FieldDescriptor) (converter : Value -> Go string)
    (message : Message) (request : R) (l : list logLine) (s : string) :
  FindFieldByName input (replaceHyphens (Name param)) = Some fd ->
  getStringConverter fd (Some param) = inl converter ->
  IsRepeated fd && negb (IsMap fd) = false ->
  converter (GetField message fd) = (l, Returns s) ->
  (In param = "path" ->
   exists writer,
     bindParameter input param = inl writer
     /\ writer message request = (l, Returns (SetPathParam (Name param) s request)))
  /\ (In param = "body" ->
      exists writer,
        bindParameter input param = inl writer
        /\ writer message request = (l, Returns (SetBodyParam s request))).
Proof.
  intros Hfd Hc Hsingle Hs.
  assert (Hvalues : fieldValues message fd [GetField message fd]).
  { unfold fieldValues. rewrite Hsingle. reflexivity. }
  assert (Hall : Forall2 (fun v s => result (converter v) = Returns s)
                   [GetField message fd] [s]).
  { constructor; [rewrite Hs; reflexivity | constructor]. }
  split; intros Hin.
  - exists (makeParamWriter fd converter (pathWriter param)). split.
    + apply (bindParameter_found _ _ _ _ _ Hfd Hc).
      unfold getParamWriter. rewrite Hin. reflexivity.
    + rewrite (makeParamWriter_returns _ _ _ _ _ _ _ Hvalues Hall), pathWriter_cons.
      cbn. rewrite Hs. cbn. rewrite !app_nil_r. reflexivity.
  - exists (makeParamWriter fd converter (bodyWriter param)). split.
    + apply (bindParameter_found _ _ _ _ _ Hfd Hc).
      unfold getParamWriter. rewrite Hin. reflexivity.
    + rewrite (makeParamWriter_returns _ _ _ _ _ _ _ Hvalues Hall), bodyWriter_cons.
      cbn. rewrite Hs. cbn. rewrite !app_nil_r. reflexivity.
Qed.

(** A value the converter panics on ends the extraction: the values
    before it were converted in order, the values after it are not
    converted, and the writer made from the converter ends in the same
    panic before its placer touches the request. *)
Theorem writer_stops_at_first_panic (message : Message) (fd : FieldDescriptor)
    (toString : Value -> Go string) (placer : list string -> R -> Go (option error * R))
    (request : R) (pre : list Value) (value : Value) (post : list Value)
    (strings : list string) (p : panic) :
  fieldValues message fd (pre ++ value :: post) ->
  Forall2 (fun v s => result (toString v) = Returns s) pre strings ->
  result (toString value) = Panics p ->
  convertValues message fd toString
  = ((concat (map (fun v => logged (toString v)) pre) ++ logged (toString value))%list, Panics p)
  /\ makeParamWriter fd toString placer message request
     = ((concat (map (fun v => logged (toString v)) pre) ++ logged (toString value))%list,
        Panics p).
Proof.
  intros Hvalues Hpre Hvalue.
  assert (Hc : convertValues message fd toString
               = ((concat (map (fun v => logged (toString v)) pre)
                   ++ logged (toString value))%list, Panics p)).
  { rewrite (convertValues_fieldValues _ _ _ _ Hvalues).
    apply (convertEach_panics _ _ _ _ _ _ Hpre Hvalue). }
  split; [exact Hc |]. unfold makeParamWriter. rewrite Hc. reflexivity.
Qed.

End writers.

Lemma query_and_header_writers_witness :
  let message : Message := {[ 2 := VSlice [VString "foo"; VString "bar"] ]} in
  let request := {| Fixture.refused := []; Fixture.calls := [] |} in
  exists writer,
    @bindParameter Fixture.libraries _ Fixture.recorder_request Fixture.ValuesMessage
      (Fixture.param "repeatedValue" "query") = inl writer
    /\ writer message request
       = ([], Returns (None, {| Fixture.refused := [];
                                Fixture.calls :=
                                  [Fixture.QueryParam "repeatedValue" ["foo"; "bar"]%string] |})).
Proof.
  intros message request.
  apply (proj1 (@query_and_header_writers Fixture.libraries _ Fixture.recorder_request
                  Fixture.ValuesMessage (Fixture.param "repeatedValue" "query")
                  Fixture.repeatedValue stringConverter message request
                  [VString "foo"; VString "bar"] ["foo"; "bar"]%string
                  eq_refl eq_refl eq_refl ltac:(repeat constructor))).
  reflexivity.
Defined.

Lemma path_and_body_writers_of_single_field_witness :
  let request := {| Fixture.refused := []; Fixture.calls := [] |} in
  exists writer,
    @bindParameter Fixture.libraries _ Fixture.recorder_request Fixture.TestMessage
      (Fixture.param "int32Value" "path") = inl writer
    /\ writer Examples.protoIn request
       = ([], Returns (None, {| Fixture.refused := [];
                                Fixture.calls := [Fixture.PathParam "int32Value" "1234"] |})).
Proof.
  intros request.
  apply (proj1 (@path_and_body_writers_of_single_field Fixture.libraries _
                  Fixture.recorder_request
                  Fixture.TestMessage (Fixture.param "int32Value" "path")
                  (Fixture.scalar "int32Value" 3 TYPE_INT32) primitiveConverter
                  Examples.protoIn request [] "1234"%string
                  eq_refl eq_refl eq_refl ltac:(vm_compute; reflexivity))).
  reflexivity.
Defined.

Lemma writer_stops_at_first_panic_witness :
  let message : Message := {[ 2 := VSlice [VString "foo"; VInt32 1; VString "bar"] ]} in
  @makeParamWriter _ Fixture.repeatedValue stringConverter
    (@queryWriter _ Fixture.recorder_request (Fixture.param "repeatedValue" "query"))
    message {| Fixture.refused := []; Fixture.calls := [] |}
  = ([], Panics TypeAssertionFailed).
Proof.
  intros message.
  apply (proj2 (@writer_stops_at_first_panic Fixture.recorder
                  message Fixture.repeatedValue stringConverter
                  (@queryWriter _ Fixture.recorder_request
                     (Fixture.param "repeatedValue" "query"))
                  {| Fixture.refused := []; Fixture.calls := [] |}
                  [VString "foo"] (VInt32 1) [VString "bar"] ["foo"%string]
                  TypeAssertionFailed eq_refl ltac:(repeat constructor) eq_refl)).
Defined.

(** ** Which parameters an adapter can be made of *)
Section binding.
Context `{Libraries} {R : Type} `{ClientRequest R}.

#[local] Open Scope string_scope.

Lemma getStringConverter_by_kind fd param :
  if supportedKind (GetType fd)
  then exists converter, getStringConverter fd param = inl converter
  else getStringConverter fd param = inr (kindError (GetType fd)).
Proof.
  unfold getStringConverter. destruct (IsMap fd) eqn:Hmap.
  - rewrite (IsMap_message _ Hmap). eexists. reflexivity.
  - destruct (GetType fd); cbn; try (eexists; reflexivity); reflexivity.
Qed.

Lemma getParamWriter_supported (param : spec_Parameter) :
  supportedLocation (In param) ->
  exists placer, getParamWriter (R := R) param = inl placer.
Proof.
  unfold supportedLocation, getParamWriter. intros Hin.
  rewrite !elem_of_cons, elem_of_nil in Hin.
  destruct Hin as [Hin | [Hin | [Hin | [Hin | []]]]]; rewrite Hin; eexists; reflexivity.
Qed.

(** The outcome of binding one parameter.  The lookup of the field, under
    the name with every hyphen replaced, comes first: without the field the
    error names the replaced name, whatever the location.  Then comes the
    kind of the field, and the location last: a field without a converter
    gives the error of its kind also when the location has no placer. *)
Theorem bindParameter_outcome (input : MessageDescriptor) (param : spec_Parameter) :
  match FindFieldByName input (replaceHyphens (Name param)) with
  | None =>
      bindParameter (R := R) input param = inr (ErrFieldNotFound (replaceHyphens (Name param)))
  | Some fd =>
      if supportedKind (GetType fd)
      then if bool_decide (supportedLocation (In param))
           then exists writer, bindParameter (R := R) input param = inl writer
           else bindParameter (R := R) input param = inr (locationError param)
      else bindParameter (R := R) input param = inr (kindError (GetType fd))
  end.
Proof.
  unfold bindParameter.
  destruct (FindFieldByName input (replaceHyphens (Name param))) as [fd |]; [| reflexivity].
  pose proof (getStringConverter_by_kind fd (Some param)) as Hkind.
  destruct (supportedKind (GetType fd)).
  - destruct Hkind as [converter ->]. case_bool_decide as Hloc.
    + destruct (getParamWriter_supported _ Hloc) as [placer ->]. eexists. reflexivity.
    + rewrite (getParamWriter_unsupported _ Hloc). reflexivity.
  - rewrite Hkind. reflexivity.
Qed.

Lemma bindParameter_bindable input (param : spec_Parameter) :
  (exists writer, bindParameter (R := R) input param = inl writer) <-> bindable input param.
Proof.
  pose proof (bindParameter_outcome input param) as Hout. unfold bindable. split.
  - intros [writer Hw].
    destruct (FindFieldByName input (replaceHyphens (Name param))) as [fd |];
      [| congruence].
    exists fd. destruct (supportedKind (GetType fd)); [| congruence].
    case_bool_decide; [| congruence]. repeat split; assumption.
  - intros (fd & Hfd & Hkind & Hloc). rewrite Hfd, Hkind in Hout.
    rewrite bool_decide_eq_true_2 in Hout by exact Hloc. exact Hout.
Qed.

Lemma boundWriter_bound input (param : spec_Parameter) writer :
  bindParameter (R := R) input param = inl writer -> boundWriter input param = writer.
Proof. unfold boundWriter. intros ->. reflexivity. Qed.

Lemma bindParameters_inv input parameters writers bound :
  bindParameters (R := R) input parameters writers = inl bound ->
  Forall (fun kp => exists writer, bindParameter (R := R) input kp.2 = inl writer) parameters
  /\ bound = (writers ++ map (fun kp => boundWriter input kp.2) parameters)%list.
Proof.
  revert writers. induction parameters as [| [k param] rest IH]; intros writers Hb.
  - cbn in Hb. injection Hb as <-. rewrite app_nil_r. split; [constructor | reflexivity].
  - cbn [bindParameters] in Hb.
    destruct (bindParameter input param) as [writer | err] eqn:Hw; [| discriminate Hb].
    destruct (IH _ Hb) as [Hall ->]. split.
    + constructor; [exists writer; exact Hw | exact Hall].
    + cbn [map snd]. rewrite (boundWriter_bound _ _ _ Hw), <- app_assoc. reflexivity.
Qed.

Lemma newPathWrapper_inv httpMethod swaggerPath parameters method (p : operationAdapter (R := R)) :
  newPathWrapper httpMethod swaggerPath parameters method = inl p ->
  bindParameters (GetInputType method) parameters []
  = inl (map (fun kp => boundWriter (GetInputType method) kp.2) parameters)
  /\ p = {| httpMethod := httpMethod; swaggerPath := swaggerPath;
            paramWriters := map (fun kp => boundWriter (GetInputType method) kp.2) parameters;
            inputProtoType := GetInputType method;
            outputProtoType := GetOutputType method |}.
Proof.
  unfold newPathWrapper.
  destruct (bindParameters (GetInputType method) parameters []) as [bound | err] eqn:Hb;
    [| discriminate].
  destruct (bindParameters_inv _ _ _ _ Hb) as [_ ->]. cbn [app].
  intros Hp. injection Hp as <-. split; reflexivity.
Qed.

(** [newPathWrapper] returns an adapter exactly when every parameter can
    be written: its field exists and the kind and the location are ones
    the adapter handles; without parameters it always does.  The adapter
    then carries the method, the path and the two message types it was
    given, and one writer for each parameter, in the order in which the
    parameters were visited. *)
Theorem newPathWrapper_succeeds (httpMethod swaggerPath : string)
    (parameters : list (string * spec_Parameter)) (method : MethodDescriptor) :
  ((exists p : operationAdapter (R := R),
      newPathWrapper httpMethod swaggerPath parameters method = inl p)
   <-> Forall (fun kp => bindable (GetInputType method) kp.2) parameters)
  /\ (forall p : operationAdapter (R := R),
        newPathWrapper httpMethod swaggerPath parameters method = inl p ->
        p = {| httpMethod := httpMethod; swaggerPath := swaggerPath;
               paramWriters :=
                 map (fun kp => boundWriter (GetInputType method) kp.2) parameters;
               inputProtoType := GetInputType method;
               outputProtoType := GetOutputType method |}
        /\ Forall2 (fun kp writer => bindParameter (GetInputType method) kp.2 = inl writer)
             parameters (paramWriters p)).
Proof.
  split; [split |].
  - intros [p Hp]. destruct (newPathWrapper_inv _ _ _ _ _ Hp) as [Hb _].
    destruct (bindParameters_inv _ _ _ _ Hb) as [Hall _].
    eapply Forall_impl; [exact Hall |]. intros kp. apply bindParameter_bindable.
  - intros Hall.
    destruct (newPathWrapper_writers httpMethod swaggerPath parameters method) as (p & Hp & _).
    + eapply Forall_impl; [exact Hall |]. intros kp. apply bindParameter_bindable.
    + exists p. exact Hp.
  - intros p Hp. destruct (newPathWrapper_inv _ _ _ _ _ Hp) as [Hb ->]. split; [reflexivity |].
    cbn [paramWriters]. destruct (bindParameters_inv _ _ _ _ Hb) as [Hall _].
    clear Hb Hp. induction Hall as [| kp rest [writer Hw] _ IH]; [constructor |].
    cbn [map]. constructor; [| exact IH].
    rewrite (boundWriter_bound _ _ _ Hw). exact Hw.
Qed.

(** The parameters of an operation are a Go map, visited in no fixed
    order.  Whether [newPathWrapper] returns an adapter does not depend on
    the order, and the adapters of two orders have the same writers, in the
    order of the visit each. *)
Theorem newPathWrapper_any_order (verb pattern : string)
    (parameters parameters' : list (string * spec_Parameter)) (method : MethodDescriptor) :
  parameters ≡ₚ parameters' ->
  ((exists p : operationAdapter (R := R),
      newPathWrapper verb pattern parameters method = inl p)
   <-> (exists p' : operationAdapter (R := R),
          newPathWrapper verb pattern parameters' method = inl p'))
  /\ (forall p p' : operationAdapter (R := R),
        newPathWrapper verb pattern parameters method = inl p ->
        newPathWrapper verb pattern parameters' method = inl p' ->
        paramWriters p ≡ₚ paramWriters p'
        /\ httpMethod p = httpMethod p' /\ swaggerPath p = swaggerPath p'
        /\ inputProtoType p = inputProtoType p' /\ outputProtoType p = outputProtoType p').
Proof.
  intros Hperm.
  assert (Hiff : forall ps : list (string * spec_Parameter),
            (exists p : operationAdapter (R := R),
               newPathWrapper verb pattern ps method = inl p)
            <-> Forall (fun kp => exists writer,
                          bindParameter (R := R) (GetInputType method) kp.2 = inl writer) ps).
  { intros ps. split.
    - intros [p Hp]. destruct (newPathWrapper_inv _ _ _ _ _ Hp) as [Hb _].
      apply (bindParameters_inv _ _ _ _ Hb).
    - intros Hall.
      destruct (newPathWrapper_writers verb pattern ps method Hall) as (p & Hp & _).
      exists p. exact Hp. }
  split.
  - rewrite !Hiff. rewrite Hperm. reflexivity.
  - intros p p' Hp Hp'.
    destruct (newPathWrapper_inv _ _ _ _ _ Hp) as [_ ->].
    destruct (newPathWrapper_inv _ _ _ _ _ Hp') as [_ ->].
    cbn. split; [| repeat split]. rewrite Hperm. reflexivity.
Qed.

End binding.

Lemma newPathWrapper_any_order_witness :
  exists p',
    @newPathWrapper Fixture.libraries _ Fixture.recorder_request "GET" "/items"
      [ ("int32Value", Fixture.param "int32Value" "header");
        ("stringValue", Fixture.param "stringValue" "query");
        ("boolValue", Fixture.param "boolValue" "query") ]%string Examples.method = inl p'.
Proof.
  apply (proj1 (proj1 (@newPathWrapper_any_order Fixture.libraries _ Fixture.recorder_request
                         "GET" "/items" Examples.parameters _ Examples.method
                         (perm_swap _ _ _)))).
  eexists. reflexivity.
Defined.

(** ** The request writer and the call, in every case *)
Section calls.
Context `{Libraries} {R : Type} `{ClientRequest R}.

#[local] Open Scope string_scope.

(** The writers of a list run as the writers of its first part followed,
    when these return no error, by the writers of the rest on the request
    the first part left: an error or a panic of the first part ends the
    run, and the lines logged come in the order of the writers. *)
Theorem runWriters_sequence (writers1 writers2 : list (swaggerParamWriter (R := R)))
    (msg : Message) (request : R) :
  runWriters (writers1 ++ writers2)%list msg request
  = ('(err, request') ← runWriters writers1 msg request;
     match err with
     | Some err => mret (Some err, request')
     | None => runWriters writers2 msg request'
     end).
Proof.
  revert request. induction writers1 as [| writer writers1 IH]; intros request.
  - cbn [app runWriters]. rewrite bind_ret. reflexivity.
  - cbn [app runWriters]. rewrite bind_assoc.
    destruct (writer msg request) as [lw [[[err |] request1] | p]]; [| | reflexivity].
    + rewrite !(bind_returns _ _ lw (Some err, request1) eq_refl), bind_ret. reflexivity.
    + rewrite !(bind_returns _ _ lw (None, request1) eq_refl), IH. reflexivity.
Qed.

(** A panic of a writer is not recovered.  When the writers before it
    returned nil, the request writer ends in the panic with the lines
    logged up to then, the writers after it do not run, and the call ends
    in the same panic: it returns no error, no request goes to the HTTP
    client and no message to the stream. *)
Theorem handleGRPCRequest_writer_panic (t : transport) (p : operationAdapter (R := R))
    (stream : ServerStream) (protoIn : Message)
    (pre : list swaggerParamWriter) (writer : swaggerParamWriter)
    (post : list swaggerParamWriter) (l : list logLine) (request : R)
    (lw : list logLine) (pnc : panic) :
  RecvMsg stream = inl protoIn ->
  paramWriters p = (pre ++ writer :: post)%list ->
  runWriters pre protoIn (newRequest t (httpMethod p) (swaggerPath p))
  = (l, Returns (None, request)) ->
  writer protoIn request = (lw, Panics pnc) ->
  getRequestWriter p protoIn (newRequest t (httpMethod p) (swaggerPath p))
  = ((l ++ lw)%list, Panics pnc)
  /\ handleGRPCRequest t p stream = ((l ++ lw)%list, Panics pnc).
Proof.
  intros Hrecv Hwriters Hpre Hw.
  assert (Hrun : getRequestWriter p protoIn (newRequest t (httpMethod p) (swaggerPath p))
                 = ((l ++ lw)%list, Panics pnc)).
  { unfold getRequestWriter. rewrite Hwriters, (runWriters_app _ _ _ _ _ _ Hpre).
    cbn [runWriters]. rewrite (bind_panics _ _ lw pnc Hw). reflexivity. }
  split; [exact Hrun |].
  unfold handleGRPCRequest. rewrite Hrecv. unfold Submit.
  rewrite (bind_panics _ _ _ _ Hrun). reflexivity.
Qed.

(** A call whose message decodes and whose writers all return nil sends
    the request the writers built to the HTTP client, once.  An error of
    the round trip or of the decoding of the response is logged and
    returned, and nothing is sent on the stream; otherwise the decoded
    response is sent on the stream and the call returns what the stream
    returns for it. *)
Theorem handleGRPCRequest_round_trip (t : transport) (p : operationAdapter (R := R))
    (stream : ServerStream) (protoIn : Message) (l : list logLine) (request : R) :
  RecvMsg stream = inl protoIn ->
  runWriters (paramWriters p) protoIn (newRequest t (httpMethod p) (swaggerPath p))
  = (l, Returns (None, request)) ->
  handleGRPCRequest t p stream
  = match roundTrip t request with
    | inr err => ((l ++ [LogSubmitError err])%list, Returns ([HTTPRequest request], Some err))
    | inl body =>
        match Unmarshal t body (outputProtoType p) with
        | (_, Some err) =>
            ((l ++ [LogSubmitError err])%list, Returns ([HTTPRequest request], Some err))
        | (protoOut, None) =>
            (l, Returns ([HTTPRequest request; MessageSent protoOut], SendMsg stream protoOut))
        end
    end.
Proof.
  intros Hrecv Hrun. unfold handleGRPCRequest, Submit, getRequestWriter.
  rewrite Hrecv, (bind_returns _ _ _ _ Hrun). cbn.
  destruct (roundTrip t request) as [body | err]; cbn.
  - unfold ReadResponse. destruct (Unmarshal t body (outputProtoType p)) as [protoOut [err |]];
      cbn; rewrite ?app_nil_r; reflexivity.
  - rewrite app_nil_r. reflexivity.
Qed.

(** What a call that returns has done.  It made at most one HTTP request
    and sent at most one message, the message after the request.  A
    request that went out is the one the writers built without an error;
    a message that was sent is the decoded response to that request, and
    the call returns what the stream returned for it.  A call that returns
    nil has sent the response. *)
Theorem handleGRPCRequest_trace (t : transport) (p : operationAdapter (R := R))
    (stream : ServerStream) (events : list event) (err : option error) :
  result (handleGRPCRequest t p stream) = Returns (events, err) ->
  callShape events
  /\ (forall request, HTTPRequest request ∈ events ->
        exists protoIn l,
          RecvMsg stream = inl protoIn
          /\ getRequestWriter p protoIn (newRequest t (httpMethod p) (swaggerPath p))
             = (l, Returns (None, request)))
  /\ (forall message, MessageSent message ∈ events ->
        err = SendMsg stream message
        /\ exists request body,
             HTTPRequest request ∈ events
             /\ roundTrip t request = inl body
             /\ ReadResponse t p body = (message, None))
  /\ (err = None -> exists message, MessageSent message ∈ events).
Proof.
  unfold handleGRPCRequest, Submit.
  destruct (RecvMsg stream) as [protoIn | rerr]; cycle 1.
  { cbn. intros [= <- <-]. split; [constructor |].
    split; [| split]; [intros ? Hin .. | discriminate]; apply elem_of_nil in Hin; destruct Hin. }
  destruct (getRequestWriter p protoIn (newRequest t (httpMethod p) (swaggerPath p)))
    as [l [[[werr |] request] | pnc]] eqn:Hrun; cycle 2.
  { cbn. discriminate. }
  { cbn. intros [= <- <-]. split; [constructor |].
    split; [| split]; [intros ? Hin .. | discriminate]; apply elem_of_nil in Hin; destruct Hin. }
  cbn. destruct (roundTrip t request) as [body | terr] eqn:Htrip; cbn.
  - destruct (ReadResponse t p body) as [protoOut [uerr |]] eqn:Hread; cbn.
    + intros [= <- <-]. split; [constructor |]. split; [| split].
      * intros request0 Hin. apply list_elem_of_singleton in Hin. injection Hin as ->.
        exists protoIn, l. split; [reflexivity | exact Hrun].
      * intros message Hin. apply list_elem_of_singleton in Hin. discriminate Hin.
      * discriminate.
    + intros [= <- <-]. split; [constructor |]. split; [| split].
      * intros request0 Hin. apply elem_of_cons in Hin as [Hin | Hin].
        -- injection Hin as ->. exists protoIn, l. split; [reflexivity | exact Hrun].
        -- apply list_elem_of_singleton in Hin. discriminate Hin.
      * intros message Hin. apply elem_of_cons in Hin as [Hin | Hin]; [discriminate Hin |].
        apply list_elem_of_singleton in Hin. injection Hin as ->.
        split; [reflexivity |]. exists request, body.
        split; [left | split; [exact Htrip | exact Hread]].
      * intros _. exists protoOut. right. left.
  - intros [= <- <-]. split; [constructor |]. split; [| split].
    + intros request0 Hin. apply list_elem_of_singleton in Hin. injection Hin as ->.
      exists protoIn, l. split; [reflexivity | exact Hrun].
    + intros message Hin. apply list_elem_of_singleton in Hin. discriminate Hin.
    + discriminate.
Qed.

End calls.

Lemma handleGRPCRequest_writer_panic_witness :
  let p : operationAdapter (R := Fixture.recorder) :=
    {| httpMethod := "GET"; swaggerPath := "/items";
       paramWriters := [Examples.int32Writer; Examples.stringWriter; Examples.boolWriter];
       inputProtoType := Fixture.TestMessage; outputProtoType := Fixture.TestMessage |}%string in
  let message : Message := {[ 2 := VBool true; 3 := VInt32 1234 ]} in
  handleGRPCRequest (Examples.client []) p (Examples.stream (inl message))
  = ([], Panics TypeAssertionFailed).
Proof.
  intros p message.
  apply (proj2 (@handleGRPCRequest_writer_panic _ (Examples.client []) p
                  (Examples.stream (inl message)) message
                  [Examples.int32Writer] Examples.stringWriter [Examples.boolWriter] []
                  {| Fixture.refused := [];
                     Fixture.calls := [Fixture.HeaderParam "int32Value" ["1234"%string]] |}
                  [] TypeAssertionFailed eq_refl eq_refl
                  ltac:(vm_compute; reflexivity) ltac:(vm_compute; reflexivity))).
Defined.

Lemma handleGRPCRequest_round_trip_witness :
  handleGRPCRequest (Examples.client []) Examples.adapter (Examples.stream (inl Examples.protoIn))
  = ([], Returns ([ HTTPRequest
                      {| Fixture.refused := [];
                         Fixture.calls :=
                           [ Fixture.QueryParam "stringValue" ["foo"];
                             Fixture.HeaderParam "int32Value" ["1234"];
                             Fixture.QueryParam "boolValue" ["true"] ]%string |};
                    MessageSent ∅ ], None)).
Proof.
  apply (@handleGRPCRequest_round_trip _ (Examples.client []) Examples.adapter
           (Examples.stream (inl Examples.protoIn)) Examples.protoIn [] _ eq_refl).
  vm_compute. reflexivity.
Defined.

Lemma handleGRPCRequest_trace_witness :
  callShape (R := Fixture.recorder)
    [ HTTPRequest
        {| Fixture.refused := [];
           Fixture.calls :=
             [ Fixture.QueryParam "stringValue" ["foo"];
               Fixture.HeaderParam "int32Value" ["1234"];
               Fixture.QueryParam "boolValue" ["true"] ]%string |};
      MessageSent ∅ ].
Proof.
  apply (proj1 (@handleGRPCRequest_trace _ (Examples.client []) Examples.adapter
                  (Examples.stream (inl Examples.protoIn)) _ None
                  ltac:(vm_compute; reflexivity))).
Defined.

(** ** The name of the field of a parameter *)

(** The name under which the field of a parameter is looked up is as long
    as the name of the parameter and holds no hyphen; replacing again
    changes nothing, and a name without hyphens is looked up as it is. *)
Theorem replaceHyphens_normal (s : string) :
  String.length (replaceHyphens s) = String.length s
  /\ (forall n, String.get n (replaceHyphens s) <> Some "-"%char)
  /\ replaceHyphens (replaceHyphens s) = replaceHyphens s
  /\ ((forall n, String.get n s <> Some "-"%char) -> replaceHyphens s = s).
Proof.
  split; [| split; [| split]].
  - induction s as [| c s IH]; [reflexivity |]. cbn. rewrite IH. reflexivity.
  - intros n. rewrite replaceHyphens_get.
    destruct (String.get n s) as [c |]; [| discriminate]. cbn.
    case_bool_decide as Hc; [discriminate |]. intros [= Heq]. contradiction.
  - induction s as [| c s IH]; [reflexivity |]. cbn [replaceHyphens]. rewrite IH.
    destruct (bool_decide (c = "-"%char)) eqn:Hc; [reflexivity |].
    rewrite Hc. reflexivity.
  - induction s as [| c s IH]; [reflexivity |]. intros Hno. cbn [replaceHyphens].
    rewrite IH by (intros n; apply (Hno (S n))).
    case_bool_decide as Hc; [| reflexivity].
    exfalso. apply (Hno 0%nat). rewrite Hc. reflexivity.
Qed.

(** ** Fields the message does not set *)
Section unset.
Context `{Libraries}.

#[local] Open Scope string_scope.

(** A field the message does not set is written from its default: a map
    field as the empty JSON object, a repeated field as no value at all,
    and a field of a string, boolean or numeric kind that is not repeated
    as the conversion of the default its descriptor declares or, when it
    declares none, as the empty string, [false] or [0]. *)
Theorem unset_field_strings (message : Message) (fd : FieldDescriptor)
    (param : option spec_Parameter) (converter : Value -> Go string) :
  message !! GetNumber fd = None ->
  getStringConverter fd param = inl converter ->
  (IsMap fd = true -> convertValues message fd converter = mret ["{}"])
  /\ (IsRepeated fd = true -> IsMap fd = false ->
      convertValues message fd converter = mret [])
  /\ (IsRepeated fd = false ->
      primitiveKind (GetType fd) || bool_decide (GetType fd = TYPE_STRING) = true ->
      match declaredDefault fd with
      | Some value => convertValues message fd converter = (s ← converter value; mret [s])
      | None => convertValues message fd converter = mret [zeroString (GetType fd)]
      end).
Proof.
  intros Hunset Hc.
  assert (Hfield : GetField message fd = GetDefaultValue fd).
  { unfold GetField. rewrite Hunset. reflexivity. }
  unfold convertValues. rewrite Hfield. unfold GetDefaultValue, getStringConverter in *.
  split; [| split].
  - intros Hmap. rewrite Hmap in *. injection Hc as <-.
    rewrite andb_false_r, bind_ret. vm_compute. reflexivity.
  - intros Hrep Hmap. rewrite Hrep, Hmap. cbn. reflexivity.
  - intros Hrep Hkind.
    assert (Hmap : IsMap fd = false).
    { unfold IsMap. unfold IsRepeated in Hrep. rewrite Hrep. reflexivity. }
    rewrite Hmap in *. rewrite Hrep. cbn [andb]. rewrite bind_ret.
    destruct (declaredDefault fd) as [value |].
    + destruct (GetType fd); try discriminate Hkind; reflexivity.
    + destruct (GetType fd); try discriminate Hkind; injection Hc as <-;
        vm_compute; reflexivity.
Qed.

End unset.

Lemma replaceHyphens_normal_witness :
  replaceHyphens "page-size" = "page_size"%string
  /\ replaceHyphens "page_size" = "page_size"%string.
Proof.
  split; [reflexivity |].
  apply (proj2 (proj2 (proj2 (replaceHyphens_normal "page_size")))).
  intros n. do 9 (destruct n as [| n]; [discriminate |]). discriminate.
Defined.

Lemma unset_field_strings_witness :
  let count :=
    {| GetName := "count"; GetNumber := 9; GetType := TYPE_INT32;
       GetLabel := LABEL_OPTIONAL; mapEntry := false;
       declaredDefault := Some (VInt32 5) |}%string in
  @convertValues Examples.protoIn Fixture.mapValue (@mapConverter Fixture.libraries)
  = ([], Returns ["{}"%string])
  /\ @convertValues Examples.protoIn (Fixture.scalar "doubleValue" 5 TYPE_DOUBLE)
       (@primitiveConverter Fixture.libraries)
     = ([], Returns ["0"%string])
  /\ @convertValues Examples.protoIn count (@primitiveConverter Fixture.libraries)
     = ([], Returns ["5"%string]).
Proof.
  intros count. split; [| split].
  - apply (proj1 (@unset_field_strings Fixture.libraries Examples.protoIn Fixture.mapValue None
                    (@mapConverter Fixture.libraries) ltac:(vm_compute; reflexivity) eq_refl)).
    reflexivity.
  - apply (proj2 (proj2 (@unset_field_strings Fixture.libraries Examples.protoIn
                           (Fixture.scalar "doubleValue" 5 TYPE_DOUBLE) None
                           (@primitiveConverter Fixture.libraries)
                           ltac:(vm_compute; reflexivity) eq_refl)));
      reflexivity.
  - apply (proj2 (proj2 (@unset_field_strings Fixture.libraries Examples.protoIn
                           count None
                           (@primitiveConverter Fixture.libraries)
                           ltac:(vm_compute; reflexivity) eq_refl)));
      reflexivity.
Defined.

(** ** The order of the members of a converted map *)
Section map_members.
Context `{Libraries}.

#[local] Open Scope string_scope.

(** The JSON object the map converter returns lists the entries of the
    map by increasing key, whatever the order in which the map was
    visited. *)
Theorem mapConverter_sorted_keys (mapValue : list (Value * Value))
    (entries : list (string * Value)) :
  stringEntries mapValue = Some entries ->
  NoDup entries.*1 ->
  Forall (fun kv => exists e, json.encodeValue kv.2 = inl e) entries ->
  exists order members,
    order ≡ₚ entries
    /\ StronglySorted json.keyLe order
    /\ json.encodeMembers order = inl members
    /\ mapConverter (VMap mapValue) = mret ("{" +:+ json.join "," members +:+ "}").
Proof.
  intros Hs Hnd Henc.
  pose proof (sorted_entries_Permutation _ Hnd) as Hsorted.
  set (order := merge_sort json.keyLe (map_to_list (list_to_map entries : gmap string Value)))
    in *.
  assert (Hall : Forall (fun kv => exists e, json.encodeValue kv.2 = inl e) order).
  { rewrite Hsorted. exact Henc. }
  destruct (encodeMembers_encodes _ Hall) as [members Hm].
  exists order, members. split; [exact Hsorted |]. split; [| split; [exact Hm |]].
  - assert (Htrans : Transitive json.keyLe).
    { intros a b c. unfold json.keyLe. apply transitivity. }
    assert (Htotal : Total json.keyLe).
    { intros a b. unfold json.keyLe. apply total, _. }
    apply StronglySorted_merge_sort; assumption.
  - rewrite (mapConverter_strings _ _ Hs Hnd). unfold marshalConverted.
    cbn [json.Marshal]. unfold json.encodeMap. fold order. rewrite Hm. reflexivity.
Qed.

End map_members.

Lemma mapConverter_sorted_keys_witness :
  exists order members,
    order ≡ₚ [("foo"%string, VInt32 2); ("bar"%string, VInt32 1)]
    /\ StronglySorted json.keyLe order
    /\ @json.encodeMembers Fixture.libraries order = inl members
    /\ @mapConverter Fixture.libraries (VMap [(VString "foo", VInt32 2); (VString "bar", VInt32 1)])
       = mret ("{" +:+ json.join "," members +:+ "}")%string.
Proof.
  apply (@mapConverter_sorted_keys Fixture.libraries
           [(VString "foo", VInt32 2); (VString "bar", VInt32 1)]
           [("foo"%string, VInt32 2); ("bar"%string, VInt32 1)]
           eq_refl
           ltac:(apply (bool_decide_unpack _); vm_compute; reflexivity)).
  repeat constructor; eexists; reflexivity.
Defined.
